(** * Jsonary: the condition parser, the evaluator and the query builder

    A shallow embedding of [src/Query.ts] (class [QueryBuilder]),
    [src/Constant.ts] ([queryOperators], [getOperatorsSorted]) and the
    in-memory part of [src/index.ts] (class [Jsonary]), followed by the
    properties the specification states about them.

    Modelling conventions.
    - A JavaScript string is a [string]: a sequence of code units, here the
      8-bit ones of [ascii] (the Latin-1 range).
    - A JavaScript number is an IEEE 754 binary64 value, a [spec_float];
      [Number(s)] follows the grammar of numeric string literals and rounds
      to the nearest number.
    - Objects have identity: a record, a nested map or a nested array lives
      in an object heap and is named by a reference; [===] on two objects
      compares references.  An object has a prototype: a key is read,
      tested with [in] and assigned through the prototype chain, which for
      a record ends in [Object.prototype], with its methods and its
      accessor [__proto__].  The objects are those of JSON data and of
      literals: their data properties can be written and new properties
      added; a function is an opaque value, of which no property is read;
      the values of a patch are taken to be no functions.
    - The record arrays ([Jsonary.data], [QueryBuilder.originalData]) are
      shared mutable arrays and live in an array heap of their own; the
      working copy of a builder is private to it and is a plain list.
    - A method that reads or changes the state takes the state and returns
      the new one; a method that can fail returns an option.
    - Reading and writing the JSON file ([loadData], [saveData]) is outside
      the model: only the in-memory state is followed. *)

From Stdlib Require Import ZArith String Ascii List Lia Bool.
From Stdlib Require Import SpecFloat.
From stdpp Require Import base gmap strings list.

Local Open Scope string_scope.

(** ** Strings: the methods of [String.prototype] the code calls *)

Module JsString.

(** The code units [String.prototype.trim] removes: TAB, LF, VT, FF, CR,
    SP and NBSP (the white space and line terminators below 256). *)
Definition isWhiteSpace (c : ascii) : bool :=
  let n := N_of_ascii c in
  ((9 <=? n) && (n <=? 13) || (n =? 32) || (n =? 160))%N.

Fixpoint trimStart (s : string) : string :=
  match s with
  | EmptyString => EmptyString
  | String c s' => if isWhiteSpace c then trimStart s' else s
  end.

Fixpoint trimEnd (s : string) : string :=
  match s with
  | EmptyString => EmptyString
  | String c s' =>
      match trimEnd s' with
      | EmptyString => if isWhiteSpace c then EmptyString else String c EmptyString
      | t => String c t
      end
  end.

(** [s.trim()] *)
Definition trim (s : string) : string := trimEnd (trimStart s).

(** [s.startsWith(p)] *)
Fixpoint startsWith (s p : string) {struct p} : bool :=
  match p, s with
  | EmptyString, _ => true
  | String c p', String d s' => Ascii.eqb c d && startsWith s' p'
  | String _ _, EmptyString => false
  end.

(** The first position at which [p] occurs in [s], if any. *)
Fixpoint firstOccurrence (s p : string) : option nat :=
  if startsWith s p then Some 0%nat
  else match s with
       | EmptyString => None
       | String _ s' => S <$> firstOccurrence s' p
       end.

(** [s.indexOf(p)]: the index of the first occurrence, or [-1]. *)
Definition indexOf (s p : string) : Z :=
  match firstOccurrence s p with
  | Some i => Z.of_nat i
  | None => (-1)%Z
  end.

(** [s.includes(p)] *)
Definition includes (s p : string) : bool :=
  negb (indexOf s p =? -1)%Z.

Fixpoint take (n : nat) (s : string) : string :=
  match n, s with
  | S n', String c s' => String c (take n' s')
  | _, _ => EmptyString
  end.

Fixpoint drop (n : nat) (s : string) : string :=
  match n, s with
  | S n', String _ s' => drop n' s'
  | _, _ => s
  end.

(** An index argument clamped to [0 .. s.length], as [substring] does. *)
Definition clamp (s : string) (i : Z) : nat :=
  Z.to_nat (Z.min (Z.max i 0) (Z.of_nat (String.length s))).

(** [s.substring(start, end)]: both arguments are clamped and swapped when
    [start > end]. *)
Definition substring (s : string) (start end_ : Z) : string :=
  let a := clamp s start in
  let b := clamp s end_ in
  let lo := Nat.min a b in
  let hi := Nat.max a b in
  take (hi - lo) (drop lo s).

(** [s.substring(start)] *)
Definition substringFrom (s : string) (start : Z) : string :=
  substring s start (Z.of_nat (String.length s)).

(** An index argument of [slice]: a negative one counts from the end. *)
Definition relative (s : string) (i : Z) : nat :=
  let len := Z.of_nat (String.length s) in
  Z.to_nat (if (i <? 0)%Z then Z.max (len + i) 0 else Z.min i len).

(** [s.slice(start, end)] *)
Definition slice (s : string) (start end_ : Z) : string :=
  let a := relative s start in
  let b := relative s end_ in
  take (b - a) (drop a s).

(** [s.endsWith(p)] *)
Definition endsWith (s p : string) : bool :=
  let ls := String.length s in
  let lp := String.length p in
  (lp <=? ls)%nat && String.eqb (drop (ls - lp) s) p.

(** [s.split(sep)] for a separator of one code unit: the pieces between
    the separators, at least one piece. *)
Fixpoint split (sep : ascii) (s : string) : list string :=
  match s with
  | EmptyString => [EmptyString]
  | String c s' =>
      if Ascii.eqb c sep then EmptyString :: split sep s'
      else match split sep s' with
           | [] => [String c EmptyString]
           | piece :: pieces => String c piece :: pieces
           end
  end.

End JsString.

(** ** Numbers: binary64 values and the conversion [Number(string)] *)

Module JsNumber.

Definition prec : Z := 53.
Definition emax : Z := 1024.

Definition NaN : spec_float := S754_nan.

(** [isNaN(x)] for a number [x]. *)
Definition isNaN (x : spec_float) : bool :=
  match x with
  | S754_nan => true
  | _ => false
  end.

(** The number nearest to an integer (ties to even). *)
Definition ofZ (z : Z) : spec_float := binary_normalize prec emax z 0 false.

Definition ofNat (n : nat) : spec_float := ofZ (Z.of_nat n).

(** [x === y], [x < y], [x > y], [x <= y], [x >= y] on numbers: every
    comparison with NaN is false, and [+0] equals [-0]. *)
Definition equals (x y : spec_float) : bool := SFeqb x y.
Definition lessThan (x y : spec_float) : bool := SFltb x y.
Definition greaterThan (x y : spec_float) : bool := SFltb y x.
Definition lessOrEqual (x y : spec_float) : bool := SFleb x y.
Definition greaterOrEqual (x y : spec_float) : bool := SFleb y x.

(** The value of a code unit as a digit in [base], if it is one. *)
Definition digitValue (base : N) (c : ascii) : option N :=
  let n := N_of_ascii c in
  let v :=
    if ((48 <=? n) && (n <=? 57))%N then Some (n - 48)%N
    else if ((97 <=? n) && (n <=? 102))%N then Some (n - 87)%N
    else if ((65 <=? n) && (n <=? 70))%N then Some (n - 55)%N
    else None in
  match v with
  | Some d => if (d <? base)%N then Some d else None
  | None => None
  end.

Definition isDigit (c : ascii) : bool :=
  match digitValue 10 c with
  | Some _ => true
  | None => false
  end.

(** The value of [s] read as digits in [base] after the digits that gave
    [acc]; none when [s] has another code unit. *)
Fixpoint digits (base acc : N) (s : string) : option N :=
  match s with
  | EmptyString => Some acc
  | String c s' =>
      match digitValue base c with
      | Some d => digits base (acc * base + d)%N s'
      | None => None
      end
  end.

(** A non-empty run of digits in [base] that is all of [s]. *)
Definition integerLiteral (base : N) (s : string) : option N :=
  match s with
  | EmptyString => None
  | _ => digits base 0 s
  end.

(** The longest prefix of decimal digits, and what follows it. *)
Fixpoint spanDigits (s : string) : string * string :=
  match s with
  | EmptyString => (EmptyString, EmptyString)
  | String c s' =>
      if isDigit c
      then let '(d, r) := spanDigits s' in (String c d, r)
      else (EmptyString, s)
  end.

(** [ExponentPart], optional: [e] or [E], an optional sign and digits. *)
Definition exponentPart (s : string) : option Z :=
  match s with
  | EmptyString => Some 0%Z
  | String c r =>
      if Ascii.eqb c "e" || Ascii.eqb c "E" then
        let '(neg, r') :=
          match r with
          | String "+" r' => (false, r')
          | String "-" r' => (true, r')
          | _ => (false, r)
          end in
        match integerLiteral 10 r' with
        | Some n => Some (if neg then - Z.of_N n else Z.of_N n)%Z
        | None => None
        end
      else None
  end.

(** [StrUnsignedDecimalLiteral] apart from [Infinity]: digits with an
    optional fraction and exponent, read as [m * 10 ^ e]. *)
Definition unsignedDecimal (s : string) : option (N * Z) :=
  let '(ip, r1) := spanDigits s in
  let '(fp, r2) :=
    match r1 with
    | String "." r => spanDigits r
    | _ => (EmptyString, r1)
    end in
  match ip, fp with
  | EmptyString, EmptyString => None
  | _, _ =>
      match digits 10 0 (ip ++ fp), exponentPart r2 with
      | Some m, Some e => Some (m, (e - Z.of_nat (String.length fp))%Z)
      | _, _ => None
      end
  end.

(** The number nearest to [m * 10 ^ e] (ties to even), with the sign
    [neg]; a zero keeps the sign. *)
Definition decimalToNumber (neg : bool) (m : N) (e : Z) : spec_float :=
  match m with
  | N0 => S754_zero neg
  | Npos p =>
      if (0 <=? e)%Z
      then binary_normalize prec emax (cond_Zopp neg (Zpos p * 10 ^ e)) 0 neg
      else
        let '(q, e', l) :=
          SFdiv_core_binary prec emax (Zpos p) 0 (10 ^ (- e)) 0 in
        binary_round_aux prec emax neg q e' l
  end.

(** A literal with a radix prefix [0x], [0o] or [0b] (either case): its
    value when the digits after the prefix are well formed. *)
Definition nonDecimalLiteral (t : string) : option (option N) :=
  match t with
  | String "0" (String c r) =>
      if Ascii.eqb c "x" || Ascii.eqb c "X" then Some (integerLiteral 16 r)
      else if Ascii.eqb c "o" || Ascii.eqb c "O" then Some (integerLiteral 8 r)
      else if Ascii.eqb c "b" || Ascii.eqb c "B" then Some (integerLiteral 2 r)
      else None
  | _ => None
  end.

(** [Number(s)] for a string [s] (the abstract operation StringToNumber):
    surrounding white space is ignored, the empty literal is [+0], and a
    string that is no numeric literal is NaN. *)
Definition StringToNumber (s : string) : spec_float :=
  let t := JsString.trim s in
  match t with
  | EmptyString => S754_zero false
  | _ =>
      match nonDecimalLiteral t with
      | Some (Some n) => ofZ (Z.of_N n)
      | Some None => NaN
      | None =>
          let '(neg, u) :=
            match t with
            | String "+" u => (false, u)
            | String "-" u => (true, u)
            | _ => (false, t)
            end in
          if String.eqb u "Infinity" then S754_infinity neg
          else match unsignedDecimal u with
               | Some (m, e) => decimalToNumber neg m e
               | None => NaN
               end
      end
  end.

End JsNumber.

(** ** Values, objects and the object heap *)

Module JsValue.

(** A reference to an object of the heap. *)
Abbreviation loc := nat (only parsing).

(** A value.  A function is told from the other objects by its reference:
    the code calls no function it reads and reads no property of one. *)
Inductive val : Type :=
  | VUndefined
  | VNull
  | VBoolean (b : bool)
  | VNumber (x : spec_float)
  | VString (s : string)
  | VObject (l : loc)
  | VFunction (l : loc).

(** A property: a data property, or the accessor [__proto__] that
    [Object.prototype] holds, which reads and assigns the prototype of the
    object it is used on.  The objects are those of JSON data and of
    literals: every data property can be written and every object can be
    given new properties. *)
Inductive property : Type :=
  | Data (v : val)
  | ProtoAccessor.

(** An object is a map or an array; it has a prototype ([VNull], an object
    or a function) and its own properties.  An array holds its elements
    apart from the named properties assigned to it, a hole as [None]. *)
Inductive object : Type :=
  | PlainObject (proto : val) (props : gmap string property)
  | ArrayObject (proto : val) (elems : list (option val)) (props : gmap string property).

Abbreviation heap := (gmap loc object) (only parsing).

(** Whether two values, properties or objects are the same is decidable,
    so two heaps can be compared by computation. *)
#[global] Instance spec_float_eq_dec : EqDecision spec_float.
Proof. solve_decision. Defined.

#[global] Instance val_eq_dec : EqDecision val.
Proof. solve_decision. Defined.

#[global] Instance property_eq_dec : EqDecision property.
Proof. solve_decision. Defined.

#[global] Instance object_eq_dec : EqDecision object.
Proof. solve_decision. Defined.

(** The references of [Object.prototype] and [Array.prototype]. *)
Definition ObjectPrototype : loc := 0%nat.
Definition ArrayPrototype : loc := 6%nat.

(** [typeof v] *)
Definition typeof (v : val) : string :=
  match v with
  | VUndefined => "undefined"
  | VNull => "object"
  | VBoolean _ => "boolean"
  | VNumber _ => "number"
  | VString _ => "string"
  | VObject _ => "object"
  | VFunction _ => "function"
  end.

(** [a === b] *)
Definition strictEquals (a b : val) : bool :=
  match a, b with
  | VUndefined, VUndefined => true
  | VNull, VNull => true
  | VBoolean x, VBoolean y => Bool.eqb x y
  | VNumber x, VNumber y => JsNumber.equals x y
  | VString s, VString t => String.eqb s t
  | VObject l, VObject k => Nat.eqb l k
  | VFunction l, VFunction k => Nat.eqb l k
  | _, _ => false
  end.

(** A property key that is an array index: the canonical decimal form of
    an integer below [2^32 - 1]. *)
Definition arrayIndex (k : string) : option nat :=
  match k with
  | String "0" (String _ _) => None
  | _ =>
      match JsNumber.integerLiteral 10 k with
      | Some n => if (n <? 4294967295)%N then Some (N.to_nat n) else None
      | None => None
      end
  end.

Definition protoOf (o : object) : val :=
  match o with
  | PlainObject proto _ => proto
  | ArrayObject proto _ _ => proto
  end.

(** The object a prototype value refers to. *)
Definition protoLoc (v : val) : option loc :=
  match v with
  | VObject l => Some l
  | VFunction l => Some l
  | _ => None
  end.

(** The own property of an object under a key: of an array, its length,
    an element that is no hole, or a named property. *)
Definition getOwnProperty (o : object) (k : string) : option property :=
  match o with
  | PlainObject _ props => props !! k
  | ArrayObject _ elems props =>
      if String.eqb k "length" then Some (Data (VNumber (JsNumber.ofNat (length elems))))
      else match arrayIndex k with
           | Some i => Data <$> mjoin (elems !! i)
           | None => props !! k
           end
  end.

(** The property a key names on an object: its own, or the one of the
    nearest object of the prototype chain that has one.  The chain of a heap
    of [n] objects has at most [n] objects. *)
Fixpoint lookupProperty (fuel : nat) (h : heap) (l : loc) (k : string)
    : option property :=
  match fuel with
  | O => None
  | S fuel' =>
      match h !! l with
      | Some o =>
          match getOwnProperty o k with
          | Some p => Some p
          | None =>
              match protoLoc (protoOf o) with
              | Some l' => lookupProperty fuel' h l' k
              | None => None
              end
          end
      | None => None
      end
  end.

Definition findProperty (h : heap) (l : loc) (k : string) : option property :=
  lookupProperty (S (S (S (size h)))) h l k.

(** [l[k]] through a reference: the accessor gives the prototype of [l]. *)
Definition get (h : heap) (l : loc) (k : string) : val :=
  match findProperty h l k with
  | Some (Data v) => v
  | Some ProtoAccessor =>
      match h !! l with
      | Some o => protoOf o
      | None => VUndefined
      end
  | None => VUndefined
  end.

(** [k in l] *)
Definition has (h : heap) (l : loc) (k : string) : bool :=
  match findProperty h l k with
  | Some _ => true
  | None => false
  end.

(** [Number(v)], as the assignment to the length of an array converts the
    value assigned.  An object is converted by its methods [valueOf] and
    [toString], taken to be the built-in ones: a map gives NaN, an array the
    number of the string that [join] makes of it. *)
Fixpoint toNumber (fuel : nat) (h : heap) (v : val) : spec_float :=
  match v with
  | VUndefined => JsNumber.NaN
  | VNull => S754_zero false
  | VBoolean b => if b then JsNumber.ofZ 1 else S754_zero false
  | VNumber x => x
  | VString s => JsNumber.StringToNumber s
  | VFunction _ => JsNumber.NaN
  | VObject l =>
      match h !! l with
      | Some (ArrayObject _ elems _) =>
          match elems with
          | [] => S754_zero false
          | [element] =>
              match element with
              | None => S754_zero false
              | Some VUndefined => S754_zero false
              | Some VNull => S754_zero false
              | Some (VBoolean _) => JsNumber.NaN
              | Some (VFunction _) => JsNumber.NaN
              | Some (VNumber (S754_zero _)) => S754_zero false
              | Some (VNumber x) => x
              | Some (VString s) => JsNumber.StringToNumber s
              | Some (VObject l') =>
                  match fuel with
                  | S fuel' => toNumber fuel' h (VObject l')
                  | O => S754_zero false
                  end
              end
          | _ => JsNumber.NaN
          end
      | _ => JsNumber.NaN
      end
  end.

(** The length a number stands for: an integer from 0 to [2^32 - 1]. *)
Definition toLength (x : spec_float) : option nat :=
  match x with
  | S754_zero _ => Some 0%nat
  | S754_finite false m e =>
      let integer :=
        if (0 <=? e)%Z then Some (Z.pos m * 2 ^ e)%Z
        else if (Z.pos m mod 2 ^ (- e) =? 0)%Z then Some (Z.pos m / 2 ^ (- e))%Z
             else None in
      match integer with
      | Some z => if (z <? 4294967296)%Z then Some (Z.to_nat z) else None
      | None => None
      end
  | _ => None
  end.

(** [a[i] = v] on the elements of an array: an index past the end
    lengthens the array and leaves holes. *)
Definition arrayStore (elems : list (option val)) (i : nat) (v : val)
    : list (option val) :=
  if (i <? length elems)%nat then <[i := Some v]> elems
  else elems ++ replicate (i - length elems) None ++ [Some v].

(** [a.length = n] on the elements: the array is cut or lengthened by
    holes. *)
Definition setLength (elems : list (option val)) (n : nat) : list (option val) :=
  firstn n elems ++ replicate (n - length elems) None.

(** The object with the data property [k] defined as [v]; none when the
    assignment raises a RangeError (a value that is no length assigned to
    the length of an array). *)
Definition defineOwn (h : heap) (o : object) (k : string) (v : val) : option object :=
  match o with
  | PlainObject proto props => Some (PlainObject proto (<[k := Data v]> props))
  | ArrayObject proto elems props =>
      if String.eqb k "length" then
        match toLength (toNumber (size h) h v) with
        | Some n => Some (ArrayObject proto (setLength elems n) props)
        | None => None
        end
      else match arrayIndex k with
           | Some i => Some (ArrayObject proto (arrayStore elems i v) props)
           | None => Some (ArrayObject proto elems (<[k := Data v]> props))
           end
  end.

Definition withProto (proto : val) (o : object) : object :=
  match o with
  | PlainObject _ props => PlainObject proto props
  | ArrayObject _ elems props => ArrayObject proto elems props
  end.

(** Two prototype values are the same value. *)
Definition sameProto (a b : val) : bool :=
  match a, b with
  | VNull, VNull => true
  | VObject l, VObject k => Nat.eqb l k
  | VFunction l, VFunction k => Nat.eqb l k
  | _, _ => false
  end.

(** Whether [l] is on the prototype chain that starts with [v]. *)
Fixpoint onChain (fuel : nat) (h : heap) (l : loc) (v : val) : bool :=
  match fuel with
  | O => false
  | S fuel' =>
      match protoLoc v with
      | Some p =>
          if Nat.eqb p l then true
          else match h !! p with
               | Some o => onChain fuel' h l (protoOf o)
               | None => false
               end
      | None => false
      end
  end.

(** The setter of the accessor [__proto__] on the object [o] at [l]: a
    value that is neither an object nor null is ignored; the prototype of
    [Object.prototype] cannot be changed and no chain may become a cycle
    (a TypeError: none). *)
Definition setPrototype (h : heap) (l : loc) (o : object) (v : val) : option heap :=
  match v with
  | VNull | VObject _ | VFunction _ =>
      if sameProto v (protoOf o) then Some h
      else if Nat.eqb l ObjectPrototype then None
      else if onChain (S (size h)) h l v then None
      else Some (<[l := withProto v o]> h)
  | _ => Some h
  end.

(** [l[k] = v] through a reference: when the key names the accessor, on
    the object or on its prototype chain, the setter runs; otherwise the
    object gets or keeps the key as a data property of its own.  None when
    the assignment raises an error. *)
Definition set (h : heap) (l : loc) (k : string) (v : val) : option heap :=
  match h !! l with
  | Some o =>
      match findProperty h l k with
      | Some ProtoAccessor => setPrototype h l o v
      | _ =>
          match defineOwn h o k v with
          | Some o' => Some (<[l := o']> h)
          | None => None
          end
      end
  | None => None
  end.

(** The reference of the object a literal [{}] creates, and the object. *)
Definition freshLoc (h : heap) : loc := fresh (dom h).

Definition emptyObject : object := PlainObject (VObject ObjectPrototype) ∅.

End JsValue.

Import JsValue.

(** ** [Constant.ts]: the operator table *)

(** The operator symbols, [QueryOperator] of the interfaces. *)
Inductive QueryOperator : Type :=
  | OpEq
  | OpNeq
  | OpGt
  | OpLt
  | OpGte
  | OpLte
  | OpContains
  | OpStartsWith
  | OpEndsWith.

(** The symbol an operator stands for: the string the table holds. *)
Definition symbol (op : QueryOperator) : string :=
  match op with
  | OpEq => "="
  | OpNeq => "!="
  | OpGt => ">"
  | OpLt => "<"
  | OpGte => ">="
  | OpLte => "<="
  | OpContains => "contains"
  | OpStartsWith => "startsWith"
  | OpEndsWith => "endsWith"
  end.

(** [Object.values(queryOperators)]: the values of the table in the order
    its keys are declared ([eq], [neq], [gt], [lt], [gte], [lte],
    [contains], [startsWith], [endsWith]). *)
Definition queryOperators : list QueryOperator :=
  [OpEq; OpNeq; OpGt; OpLt; OpGte; OpLte; OpContains; OpStartsWith; OpEndsWith].

(** [Array.prototype.sort] with a comparator: a stable sort, an element
    [a] standing before [b] when [compare a b < 0] and equal elements
    keeping their order. *)
Fixpoint sortInsert {A : Type} (compare : A -> A -> Z) (x : A) (l : list A) : list A :=
  match l with
  | [] => [x]
  | y :: l' =>
      if (compare x y <=? 0)%Z then x :: y :: l'
      else y :: sortInsert compare x l'
  end.

Fixpoint sort {A : Type} (compare : A -> A -> Z) (l : list A) : list A :=
  match l with
  | [] => []
  | x :: l' => sortInsert compare x (sort compare l')
  end.

(** [getOperatorsSorted()]: the symbols sorted by [b.length - a.length]. *)
Definition getOperatorsSorted : list QueryOperator :=
  sort (fun a b => Z.of_nat (String.length (symbol b))
                   - Z.of_nat (String.length (symbol a)))%Z
       queryOperators.

(** ** The interfaces *)

Record JsonaryCondition : Type := {
  field : string;
  operator : QueryOperator;
  value : val
}.

(** ** The state the library works on *)

(** A reference to a record array. *)
Abbreviation arrayRef := nat (only parsing).

(** The object heap (records and what they hold), the record arrays, the
    static cache [QueryBuilder.conditionRecent], shared by every builder,
    and the field [data] of the [Jsonary] instance (the parent of the
    builders that have one). *)
Record World : Type := {
  objects : heap;
  arrays : gmap arrayRef (list loc);
  conditionRecent : gmap string (option JsonaryCondition);
  storeData : arrayRef
}.

(** The records an array holds; an unknown reference holds none. *)
Definition arrayOf (w : World) (a : arrayRef) : list loc :=
  default [] (arrays w !! a).

Definition setObjects (h : heap) (w : World) : World :=
  {| objects := h; arrays := arrays w;
     conditionRecent := conditionRecent w; storeData := storeData w |}.

Definition setArray (a : arrayRef) (l : list loc) (w : World) : World :=
  {| objects := objects w; arrays := <[a := l]> (arrays w);
     conditionRecent := conditionRecent w; storeData := storeData w |}.

Definition setConditionRecent (c : gmap string (option JsonaryCondition))
    (w : World) : World :=
  {| objects := objects w; arrays := arrays w;
     conditionRecent := c; storeData := storeData w |}.

Definition setStoreData (a : arrayRef) (w : World) : World :=
  {| objects := objects w; arrays := arrays w;
     conditionRecent := conditionRecent w; storeData := a |}.

(** [this.data = l] for a new array [l] (the result of [filter] or
    [concat], or a literal): the array is allocated and the field set. *)
Definition assignStoreData (l : list loc) (w : World) : World :=
  let a := fresh (dom (arrays w)) in
  setStoreData a (setArray a l w).

(** The argument of [where], [updateWhere] and [deleteWhere]: a condition
    string, or a predicate function, which reads the record it is given. *)
Inductive Condition : Type :=
  | CondString (s : string)
  | CondFunction (f : heap -> loc -> bool).

(** A patch [data: Record<string, unknown>], by its entries in the order
    [Object.keys] enumerates them; the patch object itself is not among the
    objects the records reach. *)
Definition Patch : Type := list (string * val).

(** [a.splice(i, 1)] *)
Definition splice (a : list loc) (i : nat) : list loc :=
  firstn i a ++ skipn (S i) a.

(** The one-character strings of the two quote characters. *)
Definition doubleQuote : string := String (ascii_of_nat 34) EmptyString.

Definition singleQuote : string := "'".

(** ** [Query.ts]: class [QueryBuilder] *)

Module Query.

(** A builder: whether it has a parent (the [Jsonary] instance), the
    conditions applied so far, the reference of the backing array and the
    working copy. *)
Record QueryBuilder : Type := {
  parent : bool;
  conditions : list JsonaryCondition;
  originalData : arrayRef;
  data : list loc
}.

(** [new QueryBuilder(data, parent)]: the working copy is a copy of the
    array [data] refers to. *)
Definition new (data0 : arrayRef) (parent0 : bool) (w : World) : QueryBuilder :=
  {| parent := parent0; conditions := [];
     originalData := data0; data := arrayOf w data0 |}.

Definition setData (l : list loc) (qb : QueryBuilder) : QueryBuilder :=
  {| parent := parent qb; conditions := conditions qb;
     originalData := originalData qb; data := l |}.

Definition pushCondition (c : JsonaryCondition) (qb : QueryBuilder) : QueryBuilder :=
  {| parent := parent qb; conditions := conditions qb ++ [c];
     originalData := originalData qb; data := data qb |}.

(** [Jsonary.syncFromQueryBuilder]: called on the parent. *)
Definition syncFromQueryBuilder (updatedData : arrayRef) (w : World) : World :=
  setStoreData updatedData w.

Definition count (qb : QueryBuilder) : nat := length (data qb).

Definition first (qb : QueryBuilder) : option loc := head (data qb).

Definition get (qb : QueryBuilder) : list loc := data qb.

(** The loop of [delete]: [n] is [i + 1], so the indices visited are
    [n - 1], ..., [0]. *)
Fixpoint deleteLoop (itemsToDelete : gset loc) (n : nat) (original : list loc)
    : list loc :=
  match n with
  | O => original
  | S i =>
      deleteLoop itemsToDelete i
        (match original !! i with
         | Some x =>
             if bool_decide (x ∈ itemsToDelete) then splice original i
             else original
         | None => original
         end)
  end.

Definition delete (qb : QueryBuilder) (w : World) : nat * QueryBuilder * World :=
  let deletedCount := length (data qb) in
  let itemsToDelete : gset loc := list_to_set (data qb) in
  let original := arrayOf w (originalData qb) in
  let w1 :=
    setArray (originalData qb)
      (deleteLoop itemsToDelete (length original) original) w in
  let w2 := if parent qb then syncFromQueryBuilder (originalData qb) w1 else w1 in
  (deletedCount, setData [] qb, w2).

(** [stripQuotes], on the string it is called with. *)
Definition stripQuotes (value : string) : string :=
  if (JsString.startsWith value doubleQuote && JsString.endsWith value doubleQuote)
     || (JsString.startsWith value singleQuote && JsString.endsWith value singleQuote)
  then JsString.slice value 1 (-1)
  else value.

(** [parseSpecialValue], on the string it is called with. *)
Definition parseSpecialValue (value : string) : val :=
  if String.eqb value "true" then VBoolean true
  else if String.eqb value "false" then VBoolean false
  else if String.eqb value "null" then VNull
  else if String.eqb value "undefined" then VUndefined
  else if negb (JsNumber.isNaN (JsNumber.StringToNumber value))
          && negb (String.eqb value "")
       then VNumber (JsNumber.StringToNumber value)
       else VString value.

(** The loop of [parseCondition] over the sorted operators. *)
Fixpoint parseLoop (operators : list QueryOperator) (condition : string)
    : option JsonaryCondition :=
  match operators with
  | [] => None
  | op :: operators' =>
      let index := JsString.indexOf condition (symbol op) in
      if negb (index =? -1)%Z then
        let value :=
          JsString.trim
            (JsString.substringFrom condition
               (index + Z.of_nat (String.length (symbol op)))) in
        let parsedValue := parseSpecialValue (stripQuotes value) in
        Some {| field := JsString.trim (JsString.substring condition 0 index);
                operator := op;
                value := parsedValue |}
      else parseLoop operators' condition
  end.

Definition parseCondition (condition : string) (w : World)
    : option JsonaryCondition * World :=
  match conditionRecent w !! condition with
  | Some cached => (cached, w)
  | None =>
      let result := parseLoop getOperatorsSorted condition in
      (result, setConditionRecent (<[condition := result]> (conditionRecent w)) w)
  end.

(** The loop of [getNestedValue] over the keys of the path. *)
Fixpoint getNestedLoop (h : heap) (keys : list string) (current : val) : val :=
  match keys with
  | [] => current
  | key :: keys' =>
      if strictEquals current VNull || strictEquals current VUndefined
         || negb (String.eqb (typeof current) "object")
      then VUndefined
      else match current with
           | VObject l => getNestedLoop h keys' (JsValue.get h l key)
           | _ => VUndefined
           end
  end.

Definition getNestedValue (h : heap) (obj : loc) (path : string) : val :=
  if negb (JsString.includes path ".") then JsValue.get h obj path
  else getNestedLoop h (JsString.split "." path) (VObject obj).

(** The operand of a comparison once [typeof] has told its type. *)
Definition asNumber (v : val) : spec_float :=
  match v with
  | VNumber x => x
  | _ => JsNumber.NaN
  end.

Definition asString (v : val) : string :=
  match v with
  | VString s => s
  | _ => EmptyString
  end.

Definition evaluateCondition (h : heap) (item : loc) (condition : JsonaryCondition)
    : bool :=
  let fieldValue := getNestedValue h item (field condition) in
  let value := value condition in
  let bothNumbers :=
    String.eqb (typeof fieldValue) "number" && String.eqb (typeof value) "number" in
  let bothStrings :=
    String.eqb (typeof fieldValue) "string" && String.eqb (typeof value) "string" in
  match operator condition with
  | OpEq => strictEquals fieldValue value
  | OpNeq => negb (strictEquals fieldValue value)
  | OpGt => bothNumbers && JsNumber.greaterThan (asNumber fieldValue) (asNumber value)
  | OpLt => bothNumbers && JsNumber.lessThan (asNumber fieldValue) (asNumber value)
  | OpGte => bothNumbers && JsNumber.greaterOrEqual (asNumber fieldValue) (asNumber value)
  | OpLte => bothNumbers && JsNumber.lessOrEqual (asNumber fieldValue) (asNumber value)
  | OpContains => bothStrings && JsString.includes (asString fieldValue) (asString value)
  | OpStartsWith => bothStrings && JsString.startsWith (asString fieldValue) (asString value)
  | OpEndsWith => bothStrings && JsString.endsWith (asString fieldValue) (asString value)
  end.

(** [where], a keyword here, is [where_]. *)
Definition where_ (condition : Condition) (qb : QueryBuilder) (w : World)
    : QueryBuilder * World :=
  match condition with
  | CondFunction f => (setData (List.filter (f (objects w)) (data qb)) qb, w)
  | CondString s =>
      let '(parsed, w') := parseCondition s w in
      match parsed with
      | Some c =>
          let qb' := pushCondition c qb in
          (setData
             (List.filter (fun item => evaluateCondition (objects w') item c) (data qb'))
             qb',
           w')
      | None => (qb, w')
      end
  end.

(** The loop of [setNestedValue] over the keys and the assignment of the
    last one. *)
Fixpoint setNestedLoop (keys : list string) (current : loc) (v : val) (h : heap)
    : option heap :=
  match keys with
  | [] => Some h
  | key :: keys' =>
      match keys' with
      | [] => JsValue.set h current key v
      | _ :: _ =>
          let replace :=
            negb (JsValue.has h current key)
            || negb (String.eqb (typeof (JsValue.get h current key)) "object")
            || strictEquals (JsValue.get h current key) VNull in
          let assigned :=
            if replace then
              let l := freshLoc h in
              JsValue.set (<[l := emptyObject]> h) current key (VObject l)
            else Some h in
          match assigned with
          | Some h' =>
              match JsValue.get h' current key with
              | VObject next => setNestedLoop keys' next v h'
              | _ => None
              end
          | None => None
          end
      end
  end.

Definition setNestedValue (h : heap) (obj : loc) (path : string) (v : val)
    : option heap :=
  setNestedLoop (JsString.split "." path) obj v h.

(** The body of [Object.keys(data).forEach] for one record. *)
Fixpoint assignPatch (item : loc) (patch : Patch) (h : heap) : option heap :=
  match patch with
  | [] => Some h
  | (key, v) :: patch' =>
      match (if JsString.includes key "." then setNestedValue h item key v
             else JsValue.set h item key v) with
      | Some h' => assignPatch item patch' h'
      | None => None
      end
  end.

Fixpoint updateLoop (items : list loc) (patch : Patch) (h : heap) : option heap :=
  match items with
  | [] => Some h
  | item :: items' =>
      match assignPatch item patch h with
      | Some h' => updateLoop items' patch h'
      | None => None
      end
  end.

(** [update]: none when an assignment fails (see [JsValue.set]). *)
Definition update (patch : Patch) (qb : QueryBuilder) (w : World) : option World :=
  match updateLoop (data qb) patch (objects w) with
  | Some h' =>
      let w1 := setObjects h' w in
      Some (if parent qb then syncFromQueryBuilder (originalData qb) w1 else w1)
  | None => None
  end.

End Query.

(** ** [index.ts]: class [Jsonary], in memory *)

Module Index.

(** [setNestedValue] of [Jsonary] has the body of the builder's. *)
Definition setNestedValue := Query.setNestedValue.

Definition clear (w : World) : World := assignStoreData [] w.

Definition get (w : World) : list loc := arrayOf w (storeData w).

(** [insert]: [push] lengthens the array in place. *)
Definition insert (item : loc) (w : World) : World :=
  setArray (storeData w) (arrayOf w (storeData w) ++ [item]) w.

Definition insertMany (items : list loc) (w : World) : World :=
  assignStoreData (arrayOf w (storeData w) ++ items) w.

Definition syncFromQueryBuilder := Query.syncFromQueryBuilder.

Definition deleteWhere (condition : Condition) (w : World) : nat * World :=
  let initialLength := length (arrayOf w (storeData w)) in
  let w' :=
    match condition with
    | CondFunction f =>
        assignStoreData
          (List.filter (fun item => negb (f (objects w) item))
             (arrayOf w (storeData w)))
          w
    | CondString s =>
        let '(parsed, w1) := Query.parseCondition s w in
        match parsed with
        | Some c =>
            assignStoreData
              (List.filter
                 (fun item => negb (Query.evaluateCondition (objects w1) item c))
                 (arrayOf w1 (storeData w1)))
              w1
        | None => w1
        end
    end in
  (initialLength - length (arrayOf w' (storeData w')), w').

(** The body of [this.data.forEach] in [updateWhere] for the records
    [items], [updatedCount] records having been updated so far. *)
Fixpoint updateWhereLoop (condition : Condition) (patch : Patch)
    (items : list loc) (updatedCount : nat) (w : World) : option (nat * World) :=
  match items with
  | [] => Some (updatedCount, w)
  | item :: items' =>
      let '(shouldUpdate, w1) :=
        match condition with
        | CondFunction f => (f (objects w) item, w)
        | CondString s =>
            let '(parsed, w1) := Query.parseCondition s w in
            match parsed with
            | Some c => (Query.evaluateCondition (objects w1) item c, w1)
            | None => (false, w1)
            end
        end in
      if shouldUpdate then
        match Query.assignPatch item patch (objects w1) with
        | Some h' =>
            updateWhereLoop condition patch items' (S updatedCount) (setObjects h' w1)
        | None => None
        end
      else updateWhereLoop condition patch items' updatedCount w1
  end.

(** [updateWhere]: none when an assignment fails (see [JsValue.set]). *)
Definition updateWhere (condition : Condition) (patch : Patch) (w : World)
    : option (nat * World) :=
  updateWhereLoop condition patch (arrayOf w (storeData w)) 0 w.

(** [where], a keyword here, is [where_]. *)
Definition where_ (condition : Condition) (w : World) : Query.QueryBuilder * World :=
  Query.where_ condition (Query.new (storeData w) true w) w.

End Index.

(** ** The notions the statements use *)

Module Notions.

(** [p] occurs in [s] at position [i]. *)
Definition occursAt (p s : string) (i : nat) : Prop :=
  exists pre post, s = pre ++ p ++ post /\ String.length pre = i.

(** [p] occurs in [s] as a substring. *)
Definition occurs (p s : string) : Prop := exists i, occursAt p s i.

(** The cache holds, for a string, what the loop of [parseCondition]
    computes for it: true of the empty cache and kept by every call, so true
    of every cache the program reaches ([conditionRecent] is private). *)
Definition cacheSound (w : World) : Prop :=
  forall s r, conditionRecent w !! s = Some r -> r = Query.parseLoop getOperatorsSorted s.

(** What the loop builds when it stops at [op], the condition string being
    [pre ++ symbol op ++ post]. *)
Definition conditionAt (op : QueryOperator) (pre post : string) : JsonaryCondition :=
  {| field := JsString.trim pre;
     operator := op;
     value := Query.parseSpecialValue (Query.stripQuotes (JsString.trim post)) |}.

(** [s] starts and ends with [q]. *)
Definition quoted (q s : string) : bool :=
  JsString.startsWith s q && JsString.endsWith s q.

(** The keys [keys], followed from the value [current], run into a value
    that is no object or into a key the object does not have. *)
Inductive pathAbsent (h : heap) : val -> list string -> Prop :=
  | absent_no_object (current : val) (key : string) (keys : list string) :
      (forall l, current <> VObject l) ->
      pathAbsent h current (key :: keys)
  | absent_no_key (l : loc) (key : string) (keys : list string) :
      JsValue.has h l key = false ->
      pathAbsent h (VObject l) (key :: keys)
  | absent_further (l : loc) (key : string) (keys : list string) :
      pathAbsent h (JsValue.get h l key) keys ->
      pathAbsent h (VObject l) (key :: keys).

(** The field path [path] does not lead to a value in the record [obj]. *)
Definition fieldAbsent (h : heap) (obj : loc) (path : string) : Prop :=
  pathAbsent h (VObject obj)
    (if JsString.includes path "." then JsString.split "." path else [path]).

(** Whether a record is one of the working copy. *)
Definition kept (working : list loc) (x : loc) : bool :=
  negb (bool_decide (x ∈ working)).






(** The own property of the object at a reference. *)
Definition ownAt (h : heap) (l : loc) (k : string) : option property :=
  match h !! l with
  | Some o => getOwnProperty o k
  | None => None
  end.




(** The test of [setNestedValue] for replacing what a key holds: it
    replaces everything but an object. *)
Definition replaces (h : heap) (current : loc) (key : string) : bool :=
  negb (JsValue.has h current key)
  || negb (String.eqb (typeof (JsValue.get h current key)) "object")
  || strictEquals (JsValue.get h current key) VNull.

(** The assignment the loop makes at an intermediate key. *)
Definition descend (h : heap) (current : loc) (key : string) : option heap :=
  if replaces h current key then
    JsValue.set (<[freshLoc h := emptyObject]> h) current key (VObject (freshLoc h))
  else Some h.




(** A chain of [where] calls on one builder. *)
Fixpoint whereChain (conditions : list Condition) (qb : Query.QueryBuilder) (w : World)
    : Query.QueryBuilder * World :=
  match conditions with
  | [] => (qb, w)
  | condition :: conditions' =>
      let '(qb', w') := Query.where_ condition qb w in
      whereChain conditions' qb' w'
  end.

End Notions.

Import Notions.

(** ** The states and strings of the examples *)

(** A world with no object, no array and an empty cache. *)
Definition emptyWorld : World :=
  {| objects := ∅; arrays := ∅; conditionRecent := ∅; storeData := 0%nat |}.

(** The condition string [name contains "oh"]. *)
Definition containsQuoted : string :=
  "name contains " ++ doubleQuote ++ "oh" ++ doubleQuote.

(** The built-in methods: each name with a function of its own, the
    functions at the references from [first] on. *)
Definition methods (first : loc) (names : list string) : list (string * property) :=
  zip names ((fun l => Data (VFunction l)) <$> seq first (length names)).

Definition objectPrototypeMethods : list string :=
  ["constructor"; "__defineGetter__"; "__defineSetter__"; "hasOwnProperty";
   "__lookupGetter__"; "__lookupSetter__"; "isPrototypeOf"; "propertyIsEnumerable";
   "toString"; "valueOf"; "toLocaleString"].

Definition arrayPrototypeMethods : list string :=
  ["constructor"; "at"; "concat"; "copyWithin"; "fill"; "find"; "findIndex";
   "findLast"; "findLastIndex"; "lastIndexOf"; "pop"; "push"; "reverse"; "shift";
   "unshift"; "slice"; "sort"; "splice"; "includes"; "indexOf"; "join"; "keys";
   "entries"; "values"; "forEach"; "filter"; "flat"; "flatMap"; "map"; "every";
   "some"; "reduce"; "reduceRight"; "toLocaleString"; "toString"; "toReversed";
   "toSorted"; "toSpliced"; "with"].

(** [Object.prototype]: its methods and the accessor [__proto__]. *)
Definition objectPrototype : object :=
  PlainObject VNull
    (<["__proto__" := ProtoAccessor]> (list_to_map (methods 7 objectPrototypeMethods))).

(** [Array.prototype]: an empty array with the methods of arrays. *)
Definition arrayPrototype : object :=
  ArrayObject (VObject ObjectPrototype) [] (list_to_map (methods 18 arrayPrototypeMethods)).

(** The heap before any record: the two prototypes and the built-in
    functions, of which no property is held. *)
Definition realmHeap : heap :=
  <[ObjectPrototype := objectPrototype]>
    (<[ArrayPrototype := arrayPrototype]>
       (list_to_map ((fun l => (l, PlainObject VNull ∅)) <$> seq 7 50))).

(** The map and the array a literal or [JSON.parse] makes. *)
Definition record (entries : list (string * val)) : object :=
  PlainObject (VObject ObjectPrototype)
    (list_to_map ((fun entry => (entry.1, Data entry.2)) <$> entries)).

Definition array (elements : list val) : object :=
  ArrayObject (VObject ArrayPrototype) (Some <$> elements) ∅.

(** The record [{name: "John"}] at reference 1. *)
Definition johnHeap : heap :=
  <[1%nat := record [("name", VString "John")]]> realmHeap.

(** The store [[{name: "John"}]]. *)
Definition johnWorld : World :=
  {| objects := johnHeap; arrays := {[ 0%nat := [1%nat] ]};
     conditionRecent := ∅; storeData := 0%nat |}.

(** The record [{tags: ["a"]}] at reference 1, its array at reference 2. *)
Definition tagsHeap : heap :=
  <[1%nat := record [("tags", VObject 2%nat)]]>
    (<[2%nat := array [VString "a"]]> realmHeap).

(** The store [[{age: 10}, {age: 20}, {age: 5}]]: the records at the
    references 1, 2 and 3, the array of the store at the reference 0. *)
Definition agesWorld : World :=
  {| objects :=
       <[1%nat := record [("age", VNumber (JsNumber.ofZ 10))]]>
         (<[2%nat := record [("age", VNumber (JsNumber.ofZ 20))]]>
            (<[3%nat := record [("age", VNumber (JsNumber.ofZ 5))]]> realmHeap));
     arrays := {[ 0%nat := [1; 2; 3]%nat ]};
     conditionRecent := ∅;
     storeData := 0%nat |}.





(** ** The earlier revision of [QueryBuilder.update] *)

Module Legacy.

(** [Object.assign(item, data)]: every own key of [data] is assigned to
    [item], in the order of the keys. *)
Fixpoint objectAssign (item : loc) (data : Patch) (h : heap) : option heap :=
  match data with
  | [] => Some h
  | (key, v) :: data' =>
      match JsValue.set h item key v with
      | Some h' => objectAssign item data' h'
      | None => None
      end
  end.

Fixpoint updateLoop (items : list loc) (data : Patch) (h : heap) : option heap :=
  match items with
  | [] => Some h
  | item :: items' =>
      match objectAssign item data h with
      | Some h' => updateLoop items' data h'
      | None => None
      end
  end.

(** [update] of the earlier revision, which assigns with [Object.assign]. *)
Definition update (data : Patch) (qb : Query.QueryBuilder) (w : World) : option World :=
  match updateLoop (Query.data qb) data (objects w) with
  | Some h' =>
      let w1 := setObjects h' w in
      Some (if Query.parent qb
            then Query.syncFromQueryBuilder (Query.originalData qb) w1
            else w1)
  | None => None
  end.

End Legacy.

(** ** The notions the further properties use *)

Module Composition.

(** The predicate a condition stands for in a world: the function itself,
    or the evaluation of the parsed condition; none for a string that does
    not parse. *)
Definition predicateOf (condition : Condition) (w : World) : option (loc -> bool) :=
  match condition with
  | CondFunction f => Some (f (objects w))
  | CondString raw =>
      match fst (Query.parseCondition raw w) with
      | Some c => Some (fun item => Query.evaluateCondition (objects w) item c)
      | None => None
      end
  end.

(** Whether [where] with the condition keeps the record: a string that
    does not parse keeps every record. *)
Definition selects (condition : Condition) (w : World) (item : loc) : bool :=
  match predicateOf condition w with
  | Some p => p item
  | None => true
  end.

(** The condition a [where] call records: the parsed condition of a
    string, nothing for a function. *)
Definition recorded (w : World) (condition : Condition) : option JsonaryCondition :=
  match condition with
  | CondFunction _ => None
  | CondString raw => fst (Query.parseCondition raw w)
  end.

(** The second state shows what the first shows: the same objects, the
    same arrays and store, and every string parses to the same. *)
Definition sameView (w w' : World) : Prop :=
  objects w' = objects w
  /\ arrays w' = arrays w
  /\ storeData w' = storeData w
  /\ forall s, fst (Query.parseCondition s w') = fst (Query.parseCondition s w).

(** A map with the entries of a patch assigned in their order. *)
Definition patched (patch : Patch) (props : gmap string property)
    : gmap string property :=
  foldl (fun m entry => <[entry.1 := Data entry.2]> m) props patch.

(** The value a patch assigns to a key: the one of its last entry for it. *)
Fixpoint patchValue (patch : Patch) (k : string) : option val :=
  match patch with
  | [] => None
  | (key, v) :: patch' =>
      match patchValue patch' k with
      | Some v' => Some v'
      | None => if String.eqb key k then Some v else None
      end
  end.

(** No key of the patch holds a dot: every key is assigned at the top
    level of a record. *)
Definition flat (patch : Patch) : bool :=
  forallb (fun entry => negb (JsString.includes entry.1 ".")) patch.

(** The reference names a map, not an array, as a literal or
    [JSON.parse] makes it: its prototype is [Object.prototype], a map at the
    end of the chain. *)
Definition plain (h : heap) (item : loc) : bool :=
  match h !! item, h !! ObjectPrototype with
  | Some (PlainObject (VObject p) _), Some (PlainObject VNull _) =>
      Nat.eqb p ObjectPrototype
  | _, _ => false
  end.

(** The key names the accessor [__proto__] on the object, as its own
    property or through the prototype chain. *)
Definition accessorAt (h : heap) (l : loc) (k : string) : bool :=
  match findProperty h l k with
  | Some ProtoAccessor => true
  | _ => false
  end.

(** No key of the patch names the accessor on one of the records. *)
Definition ordinary (h : heap) (patch : Patch) (items : list loc) : bool :=
  forallb (fun item => forallb (fun entry => negb (accessorAt h item entry.1)) patch)
    items.

(** A map with the patch assigned; an array is left as it is. *)
Definition patchObject (patch : Patch) (o : object) : object :=
  match o with
  | PlainObject proto props => PlainObject proto (patched patch props)
  | ArrayObject proto elems props => ArrayObject proto elems props
  end.

(** The objects once the patch is assigned to the records [items]. *)
Definition patchedAt (patch : Patch) (items : list loc) (h : heap) (l : loc)
    : option object :=
  if bool_decide (l ∈ items) then patchObject patch <$> h !! l else h !! l.

(** A string of white space only, as [trim] reads white space. *)
Fixpoint blank (s : string) : bool :=
  match s with
  | EmptyString => true
  | String c s' => JsString.isWhiteSpace c && blank s'
  end.

(** A string that is not empty and holds no white space. *)
Fixpoint spaceless (s : string) : bool :=
  match s with
  | EmptyString => true
  | String c s' => negb (JsString.isWhiteSpace c) && spaceless s'
  end.

Definition solid (s : string) : bool :=
  negb (String.eqb s "") && spaceless s.

(** One call of the library on the state. *)
Inductive step : World -> World -> Prop :=
  | step_clear (w : World) : step w (Index.clear w)
  | step_insert (item : loc) (w : World) : step w (Index.insert item w)
  | step_insertMany (items : list loc) (w : World) : step w (Index.insertMany items w)
  | step_deleteWhere (condition : Condition) (w : World) :
      step w (snd (Index.deleteWhere condition w))
  | step_updateWhere (condition : Condition) (patch : Patch) (n : nat) (w w' : World) :
      Index.updateWhere condition patch w = Some (n, w') -> step w w'
  | step_where (condition : Condition) (qb : Query.QueryBuilder) (w : World) :
      step w (snd (Query.where_ condition qb w))
  | step_delete (qb : Query.QueryBuilder) (w : World) :
      step w (snd (Query.delete qb w))
  | step_update (patch : Patch) (qb : Query.QueryBuilder) (w w' : World) :
      Query.update patch qb w = Some w' -> step w w'.

(** The states a program reaches from a state with an empty cache. *)
Inductive reachable : World -> Prop :=
  | reachable_start (w : World) : conditionRecent w = ∅ -> reachable w
  | reachable_step (w w' : World) : reachable w -> step w w' -> reachable w'.

End Composition.

Import Composition.

(** ** Facts about the string methods *)

Module JsStringFacts.
Import JsString.

Lemma append_nil (s : string) : "" ++ s = s.
Proof. reflexivity. Qed.

Lemma append_cons (c : ascii) (s t : string) : String c s ++ t = String c (s ++ t).
Proof. reflexivity. Qed.

Ltac unfold_append := rewrite ?append_nil, ?append_cons in *; simpl String.length in *.

Lemma append_empty_r (s : string) : s ++ "" = s.
Proof. induction s as [|c s IH]; unfold_append; [reflexivity | now rewrite IH]. Qed.

Lemma append_assoc (a b c : string) : (a ++ b) ++ c = a ++ b ++ c.
Proof. induction a as [|x a IH]; unfold_append; [reflexivity | now rewrite IH]. Qed.

Lemma length_append (a b : string) :
  String.length (a ++ b) = (String.length a + String.length b)%nat.
Proof. induction a as [|x a IH]; unfold_append; [reflexivity | now rewrite IH]. Qed.

Lemma take_append (pre rest : string) : take (String.length pre) (pre ++ rest) = pre.
Proof.
  induction pre as [|c pre IH]; unfold_append; simpl;
    [now destruct rest | now rewrite IH].
Qed.

Lemma drop_append (pre rest : string) : drop (String.length pre) (pre ++ rest) = rest.
Proof. induction pre as [|c pre IH]; unfold_append; simpl; [reflexivity | exact IH]. Qed.

Lemma take_all (s : string) : take (String.length s) s = s.
Proof. induction s as [|c s IH]; simpl; [reflexivity | now rewrite IH]. Qed.

Lemma take_drop (n : nat) (s : string) : take n s ++ drop n s = s.
Proof.
  revert s; induction n as [|n IH]; intros [|c s]; simpl; unfold_append;
    try reflexivity.
  now rewrite IH.
Qed.

Lemma startsWith_spec (s p : string) :
  startsWith s p = true <-> exists post, s = p ++ post.
Proof.
  revert s; induction p as [|c p IH]; intros s; simpl.
  - split; [intros _; now exists s | reflexivity].
  - destruct s as [|d s].
    + split; [discriminate | intros [post H]; discriminate].
    + rewrite andb_true_iff, Ascii.eqb_eq, IH.
      split.
      * intros [-> [post ->]]. now exists post.
      * intros [post H]. unfold_append. injection H as -> ->. eauto.
Qed.

Lemma occursAt_zero (p s : string) : occursAt p s 0 <-> startsWith s p = true.
Proof.
  rewrite startsWith_spec. split.
  - intros (pre & post & -> & Hlen). destruct pre; [|discriminate].
    now exists post.
  - intros [post ->]. now exists "", post.
Qed.

Lemma occursAt_succ (p : string) (c : ascii) (s : string) (i : nat) :
  occursAt p (String c s) (S i) <-> occursAt p s i.
Proof.
  split.
  - intros (pre & post & H & Hlen). destruct pre as [|d pre]; [discriminate|].
    unfold_append. exists pre, post. split; [congruence | lia].
  - intros (pre & post & -> & Hlen). exists (String c pre), post.
    unfold_append. split; [reflexivity | lia].
Qed.

Lemma occursAt_empty (p : string) (i : nat) : occursAt p "" i -> i = 0%nat.
Proof.
  intros (pre & post & H & Hlen). destruct pre; [now subst | discriminate].
Qed.

Lemma firstOccurrence_unfold (s p : string) :
  firstOccurrence s p =
  if startsWith s p then Some 0%nat
  else match s with
       | EmptyString => None
       | String _ s' => S <$> firstOccurrence s' p
       end.
Proof. destruct s; reflexivity. Qed.

(** [firstOccurrence] finds an occurrence, and the leftmost one. *)
Lemma firstOccurrence_found (s p : string) (i : nat) :
  firstOccurrence s p = Some i ->
  occursAt p s i /\ forall j, occursAt p s j -> (i <= j)%nat.
Proof.
  revert i; induction s as [|c s IH]; intros i; rewrite firstOccurrence_unfold.
  - destruct (startsWith "" p) eqn:E; [|discriminate].
    intros [= <-]. split; [now apply occursAt_zero | intros; lia].
  - destruct (startsWith (String c s) p) eqn:E.
    + intros [= <-]. split; [now apply occursAt_zero | intros; lia].
    + destruct (firstOccurrence s p) as [k|]; simpl; [|discriminate].
      intros [= <-]. destruct (IH k eq_refl) as [Hk Hleast].
      split; [now apply occursAt_succ|].
      intros [|j] Hj; [apply occursAt_zero in Hj; congruence|].
      apply occursAt_succ in Hj. apply Hleast in Hj. lia.
Qed.

Lemma firstOccurrence_missing (s p : string) :
  firstOccurrence s p = None -> ~ occurs p s.
Proof.
  induction s as [|c s IH]; rewrite firstOccurrence_unfold.
  - destruct (startsWith "" p) eqn:E; [discriminate|].
    intros _ [j Hj]. pose proof (occursAt_empty _ _ Hj) as ->.
    apply occursAt_zero in Hj. congruence.
  - destruct (startsWith (String c s) p) eqn:E; [discriminate|].
    destruct (firstOccurrence s p) as [k|]; simpl; [discriminate|].
    intros _ [[|j] Hj].
    + apply occursAt_zero in Hj. congruence.
    + apply occursAt_succ in Hj. apply IH; [reflexivity | now exists j].
Qed.

Lemma indexOf_missing (s p : string) : indexOf s p = (-1)%Z <-> ~ occurs p s.
Proof.
  unfold indexOf. destruct (firstOccurrence s p) as [i|] eqn:E.
  - split; [lia|]. intros H. exfalso. apply H. exists i.
    now apply firstOccurrence_found.
  - split; [intros _; now apply firstOccurrence_missing | reflexivity].
Qed.

(** When [p] occurs in [s], [indexOf] is the position of its leftmost
    occurrence. *)
Lemma indexOf_found (s p : string) :
  occurs p s ->
  exists pre post,
    s = pre ++ p ++ post
    /\ indexOf s p = Z.of_nat (String.length pre)
    /\ forall j, occursAt p s j -> (String.length pre <= j)%nat.
Proof.
  intros Hocc. unfold indexOf.
  destruct (firstOccurrence s p) as [i|] eqn:E.
  - destruct (firstOccurrence_found _ _ _ E) as [(pre & post & Hs & Hlen) Hleast].
    exists pre, post. subst i. auto.
  - now apply firstOccurrence_missing in E.
Qed.

Lemma includes_spec (s p : string) : includes s p = true <-> occurs p s.
Proof.
  unfold includes. rewrite negb_true_iff, Z.eqb_neq, indexOf_missing.
  split; [|tauto]. intros H.
  destruct (firstOccurrence s p) as [i|] eqn:E.
  - exists i. now apply firstOccurrence_found.
  - exfalso. apply H. now apply firstOccurrence_missing.
Qed.

Lemma includes_false (s p : string) : includes s p = false <-> ~ occurs p s.
Proof.
  rewrite <- includes_spec. destruct (includes s p); split; congruence.
Qed.

Lemma not_occurs_by_indexOf (p s : string) :
  indexOf s p = (-1)%Z -> ~ occurs p s.
Proof. apply indexOf_missing. Qed.

Lemma occurs_by_includes (p s : string) : includes s p = true -> occurs p s.
Proof. apply includes_spec. Qed.

Lemma clamp_inside (s : string) (n : nat) :
  (n <= String.length s)%nat -> clamp s (Z.of_nat n) = n.
Proof. unfold clamp. lia. Qed.

(** [substring(0, index)] is what stands before the index, and
    [substring(index + length)] what stands after the match. *)
Lemma substring_before (pre rest : string) :
  substring (pre ++ rest) 0 (Z.of_nat (String.length pre)) = pre.
Proof.
  unfold substring.
  rewrite (clamp_inside _ 0) by lia.
  rewrite clamp_inside by (rewrite length_append; lia).
  rewrite Nat.min_0_l, Nat.max_0_l, Nat.sub_0_r. simpl.
  apply take_append.
Qed.

Lemma substringFrom_after (pre p post : string) :
  substringFrom (pre ++ p ++ post)
    (Z.of_nat (String.length pre) + Z.of_nat (String.length p)) = post.
Proof.
  unfold substringFrom, substring.
  rewrite <- Nat2Z.inj_add.
  rewrite !clamp_inside by (rewrite ?length_append; lia).
  rewrite !length_append.
  rewrite Nat.min_l, Nat.max_r by lia.
  replace (String.length pre + String.length p)%nat
    with (String.length (pre ++ p)) by apply length_append.
  rewrite <- append_assoc, drop_append.
  replace (String.length pre + (String.length p + String.length post)
           - String.length (pre ++ p))%nat with (String.length post)
    by (rewrite length_append; lia).
  apply take_all.
Qed.

Lemma endsWith_spec (s p : string) :
  endsWith s p = true <-> exists pre, s = pre ++ p.
Proof.
  unfold endsWith. rewrite andb_true_iff, Nat.leb_le, String.eqb_eq. split.
  - intros [Hle Hdrop]. exists (take (String.length s - String.length p) s).
    pose proof (take_drop (String.length s - String.length p) s) as H.
    rewrite Hdrop in H. now symmetry.
  - intros [pre ->]. rewrite length_append. split; [lia|].
    replace (String.length pre + String.length p - String.length p)%nat
      with (String.length pre) by lia.
    apply drop_append.
Qed.

End JsStringFacts.

(** ** Facts about the parser *)

Module ParserFacts.
Import JsString JsStringFacts Query.

Lemma getOperatorsSorted_order :
  getOperatorsSorted =
  [OpStartsWith; OpContains; OpEndsWith; OpNeq; OpGte; OpLte; OpEq; OpGt; OpLt].
Proof. reflexivity. Qed.

Lemma parseLoop_skip (before rest : list QueryOperator) (raw : string) :
  (forall o, o ∈ before -> ~ occurs (symbol o) raw) ->
  parseLoop (before ++ rest) raw = parseLoop rest raw.
Proof.
  induction before as [|o before IH]; intros Hnone; [reflexivity|].
  simpl. assert (indexOf raw (symbol o) = (-1)%Z) as ->.
  { apply indexOf_missing, Hnone. left. }
  simpl. apply IH. intros o' Ho'. apply Hnone. now right.
Qed.

Lemma parseLoop_hit (op : QueryOperator) (rest : list QueryOperator) (raw : string) :
  occurs (symbol op) raw ->
  exists pre post,
    raw = pre ++ symbol op ++ post
    /\ (forall j, occursAt (symbol op) raw j -> (String.length pre <= j)%nat)
    /\ parseLoop (op :: rest) raw = Some (conditionAt op pre post).
Proof.
  intros Hocc.
  destruct (indexOf_found _ _ Hocc) as (pre & post & Hraw & Hidx & Hleast).
  exists pre, post. repeat split; [exact Hraw | exact Hleast |].
  simpl. rewrite Hidx.
  replace (negb (Z.of_nat (String.length pre) =? -1)%Z) with true
    by (symmetry; apply negb_true_iff, Z.eqb_neq; lia).
  unfold conditionAt. rewrite Hraw at 1 2.
  now rewrite substring_before, substringFrom_after.
Qed.

Lemma parseLoop_none (ops : list QueryOperator) (raw : string) :
  parseLoop ops raw = None <-> forall o, o ∈ ops -> ~ occurs (symbol o) raw.
Proof.
  induction ops as [|o ops IH]; simpl.
  - split; [intros _ o Ho; inversion Ho | reflexivity].
  - destruct (indexOf raw (symbol o) =? -1)%Z eqn:E; simpl.
    + apply Z.eqb_eq, indexOf_missing in E. rewrite IH. split.
      * intros H o' Ho'. apply elem_of_cons in Ho' as [->|Ho']; auto.
      * intros H o' Ho'. apply H. now right.
    + apply Z.eqb_neq in E. split; [discriminate|].
      intros H. exfalso. apply E, indexOf_missing, H. left.
Qed.

(** What a successful run of the loop tells: where it stopped and why. *)
Lemma parseLoop_some (ops : list QueryOperator) (raw : string) (c : JsonaryCondition) :
  parseLoop ops raw = Some c ->
  exists before after pre post,
    ops = (before ++ operator c :: after)%list
    /\ (forall o, o ∈ before -> ~ occurs (symbol o) raw)
    /\ raw = pre ++ symbol (operator c) ++ post
    /\ (forall j, occursAt (symbol (operator c)) raw j -> (String.length pre <= j)%nat)
    /\ c = conditionAt (operator c) pre post.
Proof.
  induction ops as [|o ops IH]; [discriminate|].
  destruct (indexOf raw (symbol o) =? -1)%Z eqn:E.
  - simpl. rewrite E. simpl. intros H.
    destruct (IH H) as (before & after & pre & post & -> & Hb & Hr & Hl & Hc).
    exists (o :: before), after, pre, post. repeat split; auto.
    intros o' Ho'. apply elem_of_cons in Ho' as [->|Ho']; auto.
    now apply indexOf_missing, Z.eqb_eq.
  - assert (occurs (symbol o) raw) as Hocc.
    { apply includes_spec. unfold includes. now rewrite E. }
    destruct (parseLoop_hit o ops raw Hocc) as (pre & post & Hr & Hl & Hp).
    rewrite Hp. intros [= <-]. exists [], ops, pre, post.
    repeat split; auto. intros o' Ho'. inversion Ho'.
Qed.

(** A call of [parseCondition] on a sound cache returns what the loop
    computes, keeps the cache sound and touches nothing else. *)
Lemma parseCondition_sound (raw : string) (w : World) :
  cacheSound w ->
  fst (parseCondition raw w) = parseLoop getOperatorsSorted raw
  /\ cacheSound (snd (parseCondition raw w))
  /\ objects (snd (parseCondition raw w)) = objects w
  /\ arrays (snd (parseCondition raw w)) = arrays w
  /\ storeData (snd (parseCondition raw w)) = storeData w.
Proof.
  intros Hw. unfold parseCondition.
  destruct (conditionRecent w !! raw) as [cached|] eqn:E; cbn [fst snd].
  - repeat split; auto.
  - repeat split; auto. intros s r.
    cbn [conditionRecent setConditionRecent]. rewrite lookup_insert. case_decide as Hs.
    + subst s. now intros [= <-].
    + apply Hw.
Qed.

Lemma cacheSound_empty (h : heap) (a : gmap arrayRef (list loc)) (d : arrayRef) :
  cacheSound {| objects := h; arrays := a; conditionRecent := ∅; storeData := d |}.
Proof. intros s r. simpl. now rewrite lookup_empty. Qed.

Lemma every_operator_sorted (op : QueryOperator) : op ∈ getOperatorsSorted.
Proof.
  rewrite getOperatorsSorted_order.
  destruct op; repeat (first [left | right]).
Qed.

(** [slice(1, -1)] drops the first and the last code unit. *)
Lemma slice_inner (c d : ascii) (body : string) :
  slice (String c (body ++ String d "")) 1 (-1) = body.
Proof.
  unfold slice, relative.
  assert (String.length (String c (body ++ String d "")) = S (String.length body + 1))
    as -> by (simpl; now rewrite length_append).
  change (-1 <? 0)%Z with true. change (1 <? 0)%Z with false. cbv iota.
  replace (Z.to_nat (Z.min 1 (Z.of_nat (S (String.length body + 1)))))
    with 1%nat by lia.
  replace (Z.to_nat (Z.max (Z.of_nat (S (String.length body + 1)) + -1) 0) - 1)%nat
    with (String.length body) by lia.
  cbn [drop]. apply take_append.
Qed.

Lemma slice_single (c : ascii) : slice (String c "") 1 (-1) = "".
Proof. reflexivity. Qed.

Lemma stripQuotes_eq (s : string) :
  stripQuotes s =
  if quoted doubleQuote s || quoted singleQuote s then slice s 1 (-1) else s.
Proof. reflexivity. Qed.

Lemma quoted_surrounded (c : ascii) (body : string) :
  quoted (String c "") (String c (body ++ String c "")) = true.
Proof.
  unfold quoted. apply andb_true_iff. split.
  - apply startsWith_spec. now exists (body ++ String c "").
  - apply endsWith_spec. now exists (String c body).
Qed.

(** [parseSpecialValue] by cases on the literal. *)
Lemma parseSpecialValue_cases (lit : string) :
  (lit = "true" -> parseSpecialValue lit = VBoolean true)
  /\ (lit = "false" -> parseSpecialValue lit = VBoolean false)
  /\ (lit = "null" -> parseSpecialValue lit = VNull)
  /\ (lit = "undefined" -> parseSpecialValue lit = VUndefined)
  /\ (lit <> "true" -> lit <> "false" -> lit <> "null" -> lit <> "undefined" ->
      (lit <> "" /\ JsNumber.isNaN (JsNumber.StringToNumber lit) = false ->
       parseSpecialValue lit = VNumber (JsNumber.StringToNumber lit))
      /\ (lit = "" \/ JsNumber.isNaN (JsNumber.StringToNumber lit) = true ->
          parseSpecialValue lit = VString lit)).
Proof.
  do 4 (split; [intros ->; reflexivity|]).
  intros H1 H2 H3 H4. unfold parseSpecialValue.
  apply String.eqb_neq in H1, H2, H3, H4. rewrite H1, H2, H3, H4.
  split.
  - intros [H5 H6]. apply String.eqb_neq in H5. now rewrite H5, H6.
  - intros [-> | H]; [reflexivity | now rewrite H].
Qed.

End ParserFacts.

(** ** Facts about the evaluator *)

Module EvaluatorFacts.
Import JsString JsStringFacts Query.

Lemma typeof_number (v : val) :
  String.eqb (typeof v) "number" = true <-> exists x, v = VNumber x.
Proof.
  destruct v; simpl; split; try discriminate; eauto;
    intros [? [=]].
Qed.

Lemma typeof_string (v : val) :
  String.eqb (typeof v) "string" = true <-> exists s, v = VString s.
Proof.
  destruct v; simpl; split; try discriminate; eauto;
    intros [? [=]].
Qed.

Lemma strictEquals_undefined (v : val) :
  strictEquals VUndefined v = true <-> v = VUndefined.
Proof. destruct v; simpl; split; congruence. Qed.

(** A comparison guarded by the two [typeof] tests for numbers. *)
Lemma both_numbers (a b : val) (rel : spec_float -> spec_float -> bool) :
  String.eqb (typeof a) "number" && String.eqb (typeof b) "number"
    && rel (asNumber a) (asNumber b) = true
  <-> exists x y, a = VNumber x /\ b = VNumber y /\ rel x y = true.
Proof.
  rewrite !andb_true_iff, !typeof_number. split.
  - intros [[[x ->] [y ->]] H]. eauto.
  - intros (x & y & -> & -> & H). eauto.
Qed.

(** A string relation guarded by the two [typeof] tests for strings. *)
Lemma both_strings (a b : val) (rel : string -> string -> bool) :
  String.eqb (typeof a) "string" && String.eqb (typeof b) "string"
    && rel (asString a) (asString b) = true
  <-> exists s t, a = VString s /\ b = VString t /\ rel s t = true.
Proof.
  rewrite !andb_true_iff, !typeof_string. split.
  - intros [[[s ->] [t ->]] H]. eauto.
  - intros (s & t & -> & -> & H). eauto.
Qed.

Lemma has_false_get (h : heap) (l : loc) (k : string) :
  JsValue.has h l k = false -> JsValue.get h l k = VUndefined.
Proof.
  unfold JsValue.has, JsValue.get.
  now destruct (findProperty h l k).
Qed.

Lemma getNestedLoop_undefined (h : heap) (keys : list string) :
  getNestedLoop h keys VUndefined = VUndefined.
Proof. destruct keys; reflexivity. Qed.

Lemma getNestedLoop_absent (h : heap) (current : val) (keys : list string) :
  pathAbsent h current keys -> getNestedLoop h keys current = VUndefined.
Proof.
  induction 1 as [current key keys Hno | l key keys Hhas | l key keys _ IH].
  - destruct current; try reflexivity. now destruct (Hno l).
  - simpl. rewrite has_false_get by exact Hhas. apply getNestedLoop_undefined.
  - simpl. exact IH.
Qed.

Lemma getNestedValue_absent (h : heap) (obj : loc) (path : string) :
  fieldAbsent h obj path -> getNestedValue h obj path = VUndefined.
Proof.
  unfold fieldAbsent, getNestedValue.
  destruct (includes path "."); simpl.
  - apply getNestedLoop_absent.
  - intros H. apply getNestedLoop_absent in H. exact H.
Qed.

End EvaluatorFacts.

(** ** Facts about the builder and the store *)

Module BuilderFacts.
Import ParserFacts Query.

Lemma filter_sublist {A : Type} (f : A -> bool) (l : list A) :
  List.filter f l `sublist_of` l.
Proof.
  induction l as [|x l IH]; simpl; [constructor|].
  destruct (f x); [now apply sublist_skip | now apply sublist_cons].
Qed.

(** The loop of [delete], having visited the indices from [n] on, has
    removed the members of the set among them and nothing else. *)
Lemma deleteLoop_filter (itemsToDelete : gset loc) (n : nat) (original : list loc) :
  n <= length original ->
  deleteLoop itemsToDelete n original =
  (List.filter (fun x => negb (bool_decide (x ∈ itemsToDelete))) (take n original)
     ++ drop n original)%list.
Proof.
  revert original. induction n as [|i IH]; intros original Hn; [reflexivity|].
  destruct (lookup_lt_is_Some_2 original i) as [x Hx]; [lia|].
  cbn [deleteLoop]. rewrite Hx.
  rewrite (take_S_r _ _ _ Hx), List.filter_app. cbn [List.filter].
  destruct (bool_decide (x ∈ itemsToDelete)) eqn:Ex; cbn [negb].
  - unfold splice. rewrite IH by (rewrite length_app, length_take; lia).
    rewrite take_app_length' by (rewrite length_take; lia).
    rewrite drop_app_length' by (rewrite length_take; lia).
    now rewrite app_nil_r.
  - rewrite IH by lia. rewrite (drop_S _ _ _ Hx), <- app_assoc. reflexivity.
Qed.

Lemma deleteLoop_all (working original : list loc) :
  deleteLoop (list_to_set working) (length original) original =
  List.filter (kept working) original.
Proof.
  rewrite deleteLoop_filter by lia.
  rewrite firstn_all, drop_all, app_nil_r.
  apply filter_ext. intros x. unfold kept. f_equal.
  apply bool_decide_ext, elem_of_list_to_set.
Qed.

Lemma arrayOf_setArray (a : arrayRef) (l : list loc) (w : World) :
  arrayOf (setArray a l w) a = l.
Proof. unfold arrayOf, setArray. simpl. now rewrite lookup_insert_eq. Qed.

Lemma arrayOf_setArray_ne (a b : arrayRef) (l : list loc) (w : World) :
  a <> b -> arrayOf (setArray a l w) b = arrayOf w b.
Proof. intros H. unfold arrayOf, setArray. simpl. now rewrite lookup_insert_ne. Qed.

Lemma arrayOf_ext (w1 w2 : World) (a : arrayRef) :
  arrays w1 = arrays w2 -> arrayOf w1 a = arrayOf w2 a.
Proof. unfold arrayOf. now intros ->. Qed.

(** What [delete] returns and leaves. *)
Lemma delete_result (qb : QueryBuilder) (w : World) :
  fst (fst (delete qb w)) = length (data qb)
  /\ data (snd (fst (delete qb w))) = []
  /\ arrayOf (snd (delete qb w)) (originalData qb) =
     List.filter (kept (data qb)) (arrayOf w (originalData qb))
  /\ objects (snd (delete qb w)) = objects w
  /\ (forall a, a <> originalData qb ->
      arrayOf (snd (delete qb w)) a = arrayOf w a)
  /\ storeData (snd (delete qb w)) =
     (if parent qb then originalData qb else storeData w).
Proof.
  unfold delete. cbn [fst snd]. rewrite deleteLoop_all.
  assert (forall v a, arrayOf (syncFromQueryBuilder (originalData qb) v) a = arrayOf v a)
    as Hsync by reflexivity.
  destruct (parent qb); split_and!; try reflexivity;
    rewrite ?Hsync; try apply arrayOf_setArray;
    intros a Ha; rewrite ?Hsync; now apply arrayOf_setArray_ne.
Qed.

Lemma get_assignStoreData (l : list loc) (w : World) :
  arrayOf (assignStoreData l w) (storeData (assignStoreData l w)) = l.
Proof. unfold assignStoreData. simpl. unfold arrayOf. simpl. now rewrite lookup_insert_eq. Qed.

(** Removing the records a predicate selects, by membership in the
    selection, is filtering by the negated predicate. *)
Lemma filter_kept_selected (p : loc -> bool) (l : list loc) :
  List.filter (kept (List.filter p l)) l = List.filter (fun x => negb (p x)) l.
Proof.
  apply filter_ext_in. intros x Hx. unfold kept. f_equal.
  destruct (p x) eqn:Ep.
  - apply bool_decide_eq_true. apply list_elem_of_In, filter_In. auto.
  - apply bool_decide_eq_false. intros H%list_elem_of_In%filter_In.
    destruct H; congruence.
Qed.

Lemma length_selected (p : loc -> bool) (l : list loc) :
  length (List.filter p l) = length l - length (List.filter (fun x => negb (p x)) l).
Proof. pose proof (filter_length p l). lia. Qed.

(** [where] with a condition string on a sound cache. *)
Lemma where_string (raw : string) (qb : QueryBuilder) (w : World) :
  cacheSound w ->
  exists w',
    cacheSound w' /\ objects w' = objects w /\ arrays w' = arrays w
    /\ storeData w' = storeData w
    /\ where_ (CondString raw) qb w =
       match parseLoop getOperatorsSorted raw with
       | Some c =>
           (setData (List.filter (fun item => evaluateCondition (objects w) item c)
                       (data qb))
              (pushCondition c qb), w')
       | None => (qb, w')
       end.
Proof.
  intros Hw. destruct (parseCondition_sound raw w Hw) as (Hp & Hs & Ho & Ha & Hd).
  exists (snd (parseCondition raw w)). repeat split; auto.
  unfold where_. destruct (parseCondition raw w) as [parsed w'] eqn:E.
  simpl in *. subst parsed. rewrite Ho. reflexivity.
Qed.

End BuilderFacts.

Module StoreFacts.
Import ParserFacts BuilderFacts Query.

(** With a condition string the loop of [parseCondition] rejects, the
    loop of [updateWhere] updates no record. *)
Lemma updateWhereLoop_unparseable
    (raw : string) (patch : Patch) (items : list loc) (n : nat) (w : World) :
  cacheSound w ->
  parseLoop getOperatorsSorted raw = None ->
  exists w',
    Index.updateWhereLoop (CondString raw) patch items n w = Some (n, w')
    /\ cacheSound w' /\ objects w' = objects w /\ arrays w' = arrays w
    /\ storeData w' = storeData w.
Proof.
  intros Hw Hnone. revert w Hw.
  induction items as [|item items IH]; intros w Hw.
  - exists w. repeat split; auto.
  - cbn [Index.updateWhereLoop].
    destruct (parseCondition_sound raw w Hw) as (Hp & Hs & Ho & Ha & Hd).
    destruct (parseCondition raw w) as [parsed w1]. cbn [fst snd] in *.
    rewrite Hp, Hnone.
    destruct (IH w1 Hs) as (w' & Hrun & Hs' & Ho' & Ha' & Hd').
    exists w'. repeat split; auto; congruence.
Qed.

(** What [deleteWhere] does with a condition string on a sound cache. *)
Lemma deleteWhere_string (raw : string) (w : World) :
  cacheSound w ->
  let after := snd (Index.deleteWhere (CondString raw) w) in
  objects after = objects w
  /\ match parseLoop getOperatorsSorted raw with
     | Some c =>
         arrayOf after (storeData after) =
         List.filter (fun item => negb (evaluateCondition (objects w) item c))
           (arrayOf w (storeData w))
     | None => arrays after = arrays w /\ storeData after = storeData w
     end
  /\ fst (Index.deleteWhere (CondString raw) w) =
     length (arrayOf w (storeData w)) - length (arrayOf after (storeData after)).
Proof.
  intros Hw. cbv zeta. unfold Index.deleteWhere.
  destruct (parseCondition_sound raw w Hw) as (Hp & Hs & Ho & Ha & Hd).
  destruct (parseCondition raw w) as [parsed w1]. cbn [fst snd] in *.
  subst parsed. destruct (parseLoop getOperatorsSorted raw) as [c|].
  - rewrite get_assignStoreData, Ho, Hd, (arrayOf_ext w1 w _ Ha).
    repeat split; auto.
  - repeat split; auto.
Qed.

(** The cache stays sound through every operation of the builder and of
    the store: only [parseCondition] writes to it. *)
Lemma cacheSound_same (w w' : World) :
  conditionRecent w' = conditionRecent w -> cacheSound w -> cacheSound w'.
Proof. unfold cacheSound. now intros ->. Qed.

Lemma where_keeps_cache (condition : Condition) (qb : QueryBuilder) (w : World) :
  cacheSound w -> cacheSound (snd (where_ condition qb w)).
Proof.
  intros Hw. destruct condition as [raw | f]; [|exact Hw].
  unfold where_. destruct (parseCondition_sound raw w Hw) as (_ & Hs & _).
  destruct (parseCondition raw w) as [[c|] w']; exact Hs.
Qed.

Lemma delete_keeps_cache (qb : QueryBuilder) (w : World) :
  cacheSound w -> cacheSound (snd (delete qb w)).
Proof.
  apply cacheSound_same. unfold delete. cbn [snd]. now destruct (parent qb).
Qed.

Lemma update_keeps_cache (patch : Patch) (qb : QueryBuilder) (w w' : World) :
  cacheSound w -> update patch qb w = Some w' -> cacheSound w'.
Proof.
  intros Hw. unfold update.
  destruct (updateLoop (data qb) patch (objects w)); [|discriminate].
  intros [= <-]. revert Hw. apply cacheSound_same. now destruct (parent qb).
Qed.

Lemma deleteWhere_keeps_cache (condition : Condition) (w : World) :
  cacheSound w -> cacheSound (snd (Index.deleteWhere condition w)).
Proof.
  intros Hw. unfold Index.deleteWhere. cbn [snd].
  destruct condition as [raw | f]; [|exact Hw].
  destruct (parseCondition_sound raw w Hw) as (_ & Hs & _).
  destruct (parseCondition raw w) as [[c|] w']; exact Hs.
Qed.

Lemma updateWhereLoop_keeps_cache
    (condition : Condition) (patch : Patch) (items : list loc) (n n' : nat)
    (w w' : World) :
  cacheSound w ->
  Index.updateWhereLoop condition patch items n w = Some (n', w') ->
  cacheSound w'.
Proof.
  revert n w. induction items as [|item items IH]; intros n w Hw.
  - now intros [= _ <-].
  - cbn [Index.updateWhereLoop].
    assert (forall (b : bool) (w1 : World),
              cacheSound w1 ->
              (if b then
                 match assignPatch item patch (objects w1) with
                 | Some h' =>
                     Index.updateWhereLoop condition patch items (S n) (setObjects h' w1)
                 | None => None
                 end
               else Index.updateWhereLoop condition patch items n w1) = Some (n', w') ->
              cacheSound w') as Hrest.
    { intros [|] w1 Hw1; [|now apply IH].
      destruct (assignPatch item patch (objects w1)); [|discriminate].
      now apply IH. }
    destruct condition as [raw | f];
      [|exact (Hrest (f (objects w) item) w Hw)].
    destruct (parseCondition_sound raw w Hw) as (_ & Hs & _).
    destruct (parseCondition raw w) as [[c|] w1]; cbn [snd] in Hs.
    + exact (Hrest (evaluateCondition (objects w1) item c) w1 Hs).
    + exact (Hrest false w1 Hs).
Qed.

End StoreFacts.

(** ** Facts about property writes and [setNestedValue] *)

Module SetNestedFacts.
Import Query.

Lemma lookupProperty_step (fuel : nat) (h : heap) (l : loc) (k : string) :
  lookupProperty (S fuel) h l k =
  match h !! l with
  | Some o =>
      match getOwnProperty o k with
      | Some p => Some p
      | None =>
          match protoLoc (protoOf o) with
          | Some l' => lookupProperty fuel h l' k
          | None => None
          end
      end
  | None => None
  end.
Proof. reflexivity. Qed.


(** An assignment changes the object it is made on and no other, and
    adds no object. *)
Lemma set_frame (h h' : heap) (l : loc) (k : string) (v : val) :
  JsValue.set h l k v = Some h' ->
  is_Some (h !! l) /\ dom h' = dom h /\ forall x, x <> l -> h' !! x = h !! x.
Proof.
  unfold JsValue.set. destruct (h !! l) as [o|] eqn:El; [|discriminate].
  assert (forall o', dom (<[l := o']> h) = dom h) as Hdom.
  { intros o'. rewrite dom_insert_L. apply subseteq_union_1_L, singleton_subseteq_l.
    now apply elem_of_dom_2 in El. }
  assert (forall o' x, x <> l -> <[l := o']> h !! x = h !! x) as Hne
    by (intros o' x Hx; now rewrite lookup_insert_ne).
  intros Hset. split; [eauto|].
  assert (h' = h \/ exists o', h' = <[l := o']> h) as [-> | [o' ->]]; auto.
  destruct (findProperty h l k) as [[x|]|].
  1,3: destruct (defineOwn h o k v) as [o'|]; [|discriminate];
       injection Hset as <-; eauto.
  unfold setPrototype in Hset.
  destruct v; try (injection Hset as <-; now left);
    (destruct (sameProto _ _); [injection Hset as <-; now left|]);
    (destruct (Nat.eqb l ObjectPrototype); [discriminate|]);
    (destruct (onChain _ _ _ _); [discriminate|]);
    injection Hset as <-; eauto.
Qed.















Lemma setNestedLoop_step
    (key key' : string) (keys : list string) (current : loc) (v : val) (h : heap) :
  setNestedLoop (key :: key' :: keys) current v h =
  match descend h current key with
  | Some h' =>
      match JsValue.get h' current key with
      | VObject next => setNestedLoop (key' :: keys) next v h'
      | _ => None
      end
  | None => None
  end.
Proof. reflexivity. Qed.































End SetNestedFacts.

(** ** Facts about [update] and [updateWhere] with one path *)

Module UpdateFacts.
Import Query SetNestedFacts.











End UpdateFacts.

(** ** The properties of the specification *)

Import JsString JsStringFacts ParserFacts EvaluatorFacts BuilderFacts StoreFacts
  SetNestedFacts.

(** The examples of the specification for the evaluator: [age >= 18] is
    true of [{age: 18}], false of [{age: 17}] and false of [{age: "18"}];
    [name contains "oh"] is true of [{name: "John"}]. *)
Example evaluate_examples :
  let holds (raw : string) (entries : list (string * val)) :=
    match fst (Query.parseCondition raw emptyWorld) with
    | Some c => Query.evaluateCondition (<[1%nat := record entries]> realmHeap) 1%nat c
    | None => false
    end in
  holds "age >= 18" [("age", VNumber (JsNumber.ofZ 18))] = true
  /\ holds "age >= 18" [("age", VNumber (JsNumber.ofZ 17))] = false
  /\ holds "age >= 18" [("age", VString "18")] = false
  /\ holds containsQuoted [("name", VString "John")] = true.
Proof. cbv zeta. repeat split; vm_compute; reflexivity. Qed.

(** C1 (as amended): [parseCondition] tries the operator symbols in the
    order [startsWith], [contains], [endsWith], [!=], [>=], [<=], [=],
    [>], [<] (descending length, symbols of one length in the order of
    the table: so [contains] before [endsWith]); the first symbol of that
    order that occurs anywhere in the string wins, and the string is split
    at the leftmost occurrence of that symbol: the field is the trimmed text
    before it, the value the typed literal of the trimmed text after it. *)
Theorem parse_first_sorted_symbol_leftmost
    (w : World) (raw : string) (before after : list QueryOperator)
    (op : QueryOperator) :
  cacheSound w ->
  getOperatorsSorted = (before ++ op :: after)%list ->
  (forall o, o ∈ before -> ~ occurs (symbol o) raw) ->
  occurs (symbol op) raw ->
  getOperatorsSorted =
    [OpStartsWith; OpContains; OpEndsWith; OpNeq; OpGte; OpLte; OpEq; OpGt; OpLt]
  /\ map (fun o => String.length (symbol o)) getOperatorsSorted =
     [10; 8; 8; 2; 2; 2; 1; 1; 1]%nat
  /\ exists pre post,
       raw = pre ++ symbol op ++ post
       /\ (forall j, occursAt (symbol op) raw j -> (String.length pre <= j)%nat)
       /\ fst (Query.parseCondition raw w) =
          Some {| field := trim pre;
                  operator := op;
                  value := Query.parseSpecialValue (Query.stripQuotes (trim post)) |}.
Proof.
  intros Hw Hops Hbefore Hocc. split; [apply getOperatorsSorted_order|].
  split; [reflexivity|].
  destruct (parseLoop_hit op after raw Hocc) as (pre & post & Hraw & Hleast & Hloop).
  exists pre, post. repeat split; [exact Hraw | exact Hleast |].
  destruct (parseCondition_sound raw w Hw) as [-> _].
  rewrite Hops, parseLoop_skip by exact Hbefore. exact Hloop.
Qed.

(** C1 at the condition string [age >= 18], on the empty cache. *)
Lemma parse_first_sorted_symbol_leftmost_witness :
  cacheSound emptyWorld
  /\ getOperatorsSorted =
     ([OpStartsWith; OpContains; OpEndsWith; OpNeq] ++ OpGte :: [OpLte; OpEq; OpGt; OpLt])%list
  /\ (forall o, o ∈ [OpStartsWith; OpContains; OpEndsWith; OpNeq] ->
      ~ occurs (symbol o) "age >= 18")
  /\ occurs (symbol OpGte) "age >= 18"
  /\ (getOperatorsSorted =
        [OpStartsWith; OpContains; OpEndsWith; OpNeq; OpGte; OpLte; OpEq; OpGt; OpLt]
      /\ map (fun o => String.length (symbol o)) getOperatorsSorted =
         [10; 8; 8; 2; 2; 2; 1; 1; 1]%nat
      /\ exists pre post,
           "age >= 18" = pre ++ symbol OpGte ++ post
           /\ (forall j, occursAt (symbol OpGte) "age >= 18" j ->
               (String.length pre <= j)%nat)
           /\ fst (Query.parseCondition "age >= 18" emptyWorld) =
              Some {| field := trim pre;
                      operator := OpGte;
                      value := Query.parseSpecialValue (Query.stripQuotes (trim post)) |}).
Proof.
  assert (cacheSound emptyWorld) as H1 by apply cacheSound_empty.
  assert (getOperatorsSorted =
          ([OpStartsWith; OpContains; OpEndsWith; OpNeq]
             ++ OpGte :: [OpLte; OpEq; OpGt; OpLt])%list) as H2 by reflexivity.
  assert (forall o, o ∈ [OpStartsWith; OpContains; OpEndsWith; OpNeq] ->
          ~ occurs (symbol o) "age >= 18") as H3.
  { intros o Ho. apply not_occurs_by_indexOf.
    repeat (apply elem_of_cons in Ho as [->|Ho]; [reflexivity|]).
    inversion Ho. }
  assert (occurs (symbol OpGte) "age >= 18") as H4
    by (apply occurs_by_includes; reflexivity).
  exact (conj H1 (conj H2 (conj H3 (conj H4
    (parse_first_sorted_symbol_leftmost emptyWorld "age >= 18" _ _ _ H1 H2 H3 H4))))).
Defined.

(** C1, the counterexample: in ["title endsWith contains"] the symbol
    [endsWith] occurs and [startsWith] does not; with [endsWith] tried
    before [contains], as the specification has it, the split would be at
    [endsWith]; the code splits at [contains]. *)
Lemma parse_contains_before_endsWith :
  occurs (symbol OpEndsWith) "title endsWith contains"
  /\ ~ occurs (symbol OpStartsWith) "title endsWith contains"
  /\ fst (Query.parseCondition "title endsWith contains" emptyWorld) =
     Some {| field := "title endsWith"; operator := OpContains; value := VString "" |}
  /\ fst (Query.parseCondition "title endsWith contains" emptyWorld) <>
     Some {| field := "title"; operator := OpEndsWith; value := VString "contains" |}.
Proof.
  split; [apply occurs_by_includes; reflexivity|].
  split; [apply not_occurs_by_indexOf; reflexivity|].
  split; [reflexivity | discriminate].
Qed.

(** C2: [delete] returns the size the working copy has when it is called,
    leaves in the backing array, in their order, exactly the elements that
    are not (by reference) members of the working copy, and empties the
    working copy; the loop visits the indices from the last to the first.
    The records themselves, the cache and the other arrays are untouched,
    and a parent is handed the backing array. *)
Theorem delete_removes_working_copy (qb : Query.QueryBuilder) (w : World) :
  let original := arrayOf w (Query.originalData qb) in
  let result := Query.delete qb w in
  let after := arrayOf (snd result) (Query.originalData qb) in
  fst (fst result) = length (Query.data qb)
  /\ Query.data (snd (fst result)) = []
  /\ after = Query.deleteLoop (list_to_set (Query.data qb)) (length original) original
  /\ after = List.filter (kept (Query.data qb)) original
  /\ after `sublist_of` original
  /\ (forall x, x ∈ after <-> x ∈ original /\ x ∉ Query.data qb)
  /\ objects (snd result) = objects w
  /\ conditionRecent (snd result) = conditionRecent w
  /\ (forall a, a <> Query.originalData qb -> arrayOf (snd result) a = arrayOf w a)
  /\ storeData (snd result) =
     (if Query.parent qb then Query.originalData qb else storeData w).
Proof.
  cbv zeta.
  destruct (delete_result qb w) as (Hn & Hd & Ha & Ho & Hothers & Hs).
  assert (conditionRecent (snd (Query.delete qb w)) = conditionRecent w) as Hc
    by (unfold Query.delete; cbn [snd]; now destruct (Query.parent qb)).
  rewrite Ha. split_and!; auto.
  - symmetry. apply deleteLoop_all.
  - apply filter_sublist.
  - intros x. rewrite list_elem_of_In, filter_In, <- list_elem_of_In.
    unfold kept. now rewrite negb_true_iff, bool_decide_eq_false.
Qed.

(** C3: for a condition string that parses, on a sound cache,
    [deleteWhere] leaves in the store the same records, in the same order,
    and returns the same count as a builder made over the store's array,
    narrowed by [where] with that string and then asked to [delete]:
    both leave the records of which the condition is false. *)
Theorem deleteWhere_agrees_with_builder
    (raw : string) (c : JsonaryCondition) (hasParent : bool) (w : World) :
  cacheSound w ->
  fst (Query.parseCondition raw w) = Some c ->
  let direct := Index.deleteWhere (CondString raw) w in
  let narrowed := Query.where_ (CondString raw) (Query.new (storeData w) hasParent w) w in
  let deleted := Query.delete (fst narrowed) (snd narrowed) in
  fst direct = fst (fst deleted)
  /\ Index.get (snd direct) = Index.get (snd deleted)
  /\ Index.get (snd direct) =
     List.filter (fun item => negb (Query.evaluateCondition (objects w) item c))
       (Index.get w)
  /\ objects (snd direct) = objects w
  /\ objects (snd deleted) = objects w.
Proof.
  intros Hw Hc. cbv zeta.
  destruct (parseCondition_sound raw w Hw) as (Hp & _). rewrite Hp in Hc.
  destruct (deleteWhere_string raw w Hw) as (Hobj & Harr & Hcount).
  rewrite Hc in Harr.
  destruct (where_string raw (Query.new (storeData w) hasParent w) w Hw)
    as (w' & _ & Ho & Ha & Hd & ->).
  rewrite Hc. cbn [fst snd].
  set (qb := Query.setData _ _).
  destruct (delete_result qb w') as (Hn & _ & Hleft & Hobjs & _ & Hstore).
  assert (Query.originalData qb = storeData w) as Horig by reflexivity.
  assert (Query.data qb =
          List.filter (fun item => Query.evaluateCondition (objects w) item c)
            (arrayOf w (storeData w))) as Hdata by reflexivity.
  assert (Index.get (snd (Query.delete qb w')) =
          List.filter (fun item => negb (Query.evaluateCondition (objects w) item c))
            (arrayOf w (storeData w))) as Hget.
  { unfold Index.get. rewrite Hstore, Horig, Hd.
    replace (if Query.parent qb then storeData w else storeData w)
      with (storeData w) by now destruct (Query.parent qb).
    rewrite <- Horig at 1. rewrite Hleft, Horig, (arrayOf_ext w' w _ Ha), Hdata.
    apply filter_kept_selected. }
  split_and!.
  - rewrite Hcount, Hn, Hdata, Harr. symmetry. apply length_selected.
  - unfold Index.get at 1. now rewrite Harr, Hget.
  - exact Harr.
  - exact Hobj.
  - congruence.
Qed.

(** C3 at [age < 18] on the store [[{age: 10}, {age: 20}, {age: 5}]]. *)
Lemma deleteWhere_agrees_with_builder_witness :
  cacheSound agesWorld
  /\ fst (Query.parseCondition "age < 18" agesWorld) =
     Some {| field := "age"; operator := OpLt; value := VNumber (JsNumber.ofZ 18) |}
  /\ (let direct := Index.deleteWhere (CondString "age < 18") agesWorld in
      let narrowed :=
        Query.where_ (CondString "age < 18") (Query.new (storeData agesWorld) true agesWorld)
          agesWorld in
      let deleted := Query.delete (fst narrowed) (snd narrowed) in
      fst direct = fst (fst deleted)
      /\ Index.get (snd direct) = Index.get (snd deleted)
      /\ Index.get (snd direct) =
         List.filter
           (fun item =>
              negb (Query.evaluateCondition (objects agesWorld) item
                      {| field := "age"; operator := OpLt;
                         value := VNumber (JsNumber.ofZ 18) |}))
           (Index.get agesWorld)
      /\ objects (snd direct) = objects agesWorld
      /\ objects (snd deleted) = objects agesWorld).
Proof.
  assert (cacheSound agesWorld) as H1 by apply cacheSound_empty.
  assert (fst (Query.parseCondition "age < 18" agesWorld) =
          Some {| field := "age"; operator := OpLt; value := VNumber (JsNumber.ofZ 18) |})
    as H2 by reflexivity.
  exact (conj H1 (conj H2
    (deleteWhere_agrees_with_builder "age < 18" _ true agesWorld H1 H2))).
Defined.

(** The example of the specification: [deleteWhere('age < 18')] on
    [[{age: 10}, {age: 20}, {age: 5}]] returns [2] and leaves [{age: 20}];
    so does [where('age < 18').delete()]. *)
Example deleteWhere_ages :
  fst (Index.deleteWhere (CondString "age < 18") agesWorld) = 2%nat
  /\ Index.get (snd (Index.deleteWhere (CondString "age < 18") agesWorld)) = [2%nat]
  /\ (let narrowed := Index.where_ (CondString "age < 18") agesWorld in
      let deleted := Query.delete (fst narrowed) (snd narrowed) in
      fst (fst deleted) = 2%nat /\ Index.get (snd deleted) = [2%nat]).
Proof. vm_compute. repeat split. Qed.



(** The example of the specification:
    [updateWhere('name = John', {'profile.active': true})] on
    [[{name: 'John'}]] updates one record and leaves
    [[{name: 'John', profile: {active: true}}]], the map [profile] being a
    new object; so does [where('name = John').update(...)]. *)
Example updateWhere_john :
  let patch := [("profile.active", VBoolean true)] in
  let profile := freshLoc johnHeap in
  let after : heap :=
    <[1%nat := record [("name", VString "John"); ("profile", VObject profile)]]>
      (<[profile := record [("active", VBoolean true)]]> realmHeap) in
  johnHeap !! profile = None
  /\ match Index.updateWhere (CondString "name = John") patch johnWorld with
     | Some (n, w') => n = 1%nat /\ objects w' = after /\ Index.get w' = [1%nat]
     | None => False
     end
  /\ match Query.update patch (fst (Index.where_ (CondString "name = John") johnWorld))
             (snd (Index.where_ (CondString "name = John") johnWorld)) with
     | Some w' => objects w' = after /\ Index.get w' = [1%nat]
     | None => False
     end.
Proof.
  cbv zeta. split; [vm_compute; reflexivity|]. split.
  - assert (match Index.updateWhere (CondString "name = John")
                    [("profile.active", VBoolean true)] johnWorld with
            | Some (n, w') =>
                bool_decide
                  (n = 1%nat
                   /\ objects w' =
                      <[1%nat := record [("name", VString "John");
                                         ("profile", VObject (freshLoc johnHeap))]]>
                        (<[freshLoc johnHeap := record [("active", VBoolean true)]]>
                           realmHeap)
                   /\ Index.get w' = [1%nat])
            | None => false
            end = true) as H by (vm_compute; reflexivity).
    destruct (Index.updateWhere _ _ _) as [[n w']|]; [|discriminate].
    now apply bool_decide_eq_true in H.
  - assert (match Query.update [("profile.active", VBoolean true)]
                    (fst (Index.where_ (CondString "name = John") johnWorld))
                    (snd (Index.where_ (CondString "name = John") johnWorld)) with
            | Some w' =>
                bool_decide
                  (objects w' =
                     <[1%nat := record [("name", VString "John");
                                        ("profile", VObject (freshLoc johnHeap))]]>
                       (<[freshLoc johnHeap := record [("active", VBoolean true)]]>
                          realmHeap)
                   /\ Index.get w' = [1%nat])
            | None => false
            end = true) as H by (vm_compute; reflexivity).
    destruct (Query.update _ _ _) as [w'|]; [|discriminate].
    now apply bool_decide_eq_true in H.
Qed.


(** C5 (as amended): when the field path does not lead to a value in the
    record (a key on the way is not there, neither as a key of the object
    itself nor as one it inherits from its prototypes, or the path goes on
    through a value that is no object: a string, a number, a boolean, a
    function, [null] or [undefined]), the condition [field = v] is true
    exactly when [v] is [undefined].  An array is an object: its indices and
    its [length] are keys like those of a map. *)
Theorem equality_on_absent_field (h : heap) (record : loc) (f : string) (v : val) :
  fieldAbsent h record f ->
  Query.evaluateCondition h record {| field := f; operator := OpEq; value := v |} = true
  <-> v = VUndefined.
Proof.
  intros Habsent. unfold Query.evaluateCondition. cbn [field operator value].
  rewrite getNestedValue_absent by exact Habsent.
  apply strictEquals_undefined.
Qed.

(** C5 at the path [profile.role] on the record [{name: "John"}]. *)
Lemma equality_on_absent_field_witness :
  fieldAbsent johnHeap 1%nat "profile.role"
  /\ (Query.evaluateCondition johnHeap 1%nat
        {| field := "profile.role"; operator := OpEq; value := VString "admin" |} = true
      <-> VString "admin" = VUndefined).
Proof.
  assert (fieldAbsent johnHeap 1%nat "profile.role") as H
    by (apply (absent_no_key johnHeap 1%nat "profile" ["role"]); vm_compute; reflexivity).
  exact (conj H (equality_on_absent_field johnHeap 1%nat "profile.role" _ H)).
Defined.

(** C5, the counterexample: the path [tags.length] passes through an
    array, which is not a map, and yet [tags.length = 1] is true of the
    record [{tags: ["a"]}], the value [1] not being [undefined].  And a key
    the record does not hold itself can be one it inherits: [toString] is
    no key of [{name: "John"}], yet it is [in] the record and names a
    function there, so [toString = undefined] is false of the record. *)
Lemma equality_through_array :
  JsValue.get tagsHeap 1%nat "tags" = VObject 2%nat
  /\ tagsHeap !! 2%nat = Some (array [VString "a"])
  /\ fst (Query.parseCondition "tags.length = 1" emptyWorld) =
     Some {| field := "tags.length"; operator := OpEq; value := VNumber (JsNumber.ofNat 1) |}
  /\ Query.evaluateCondition tagsHeap 1%nat
       {| field := "tags.length"; operator := OpEq; value := VNumber (JsNumber.ofNat 1) |}
     = true
  /\ VNumber (JsNumber.ofNat 1) <> VUndefined
  /\ ownAt johnHeap 1%nat "toString" = None
  /\ JsValue.has johnHeap 1%nat "toString" = true
  /\ typeof (JsValue.get johnHeap 1%nat "toString") = "function"
  /\ fst (Query.parseCondition "toString = undefined" emptyWorld) =
     Some {| field := "toString"; operator := OpEq; value := VUndefined |}
  /\ Query.evaluateCondition johnHeap 1%nat
       {| field := "toString"; operator := OpEq; value := VUndefined |} = false.
Proof. split_and!; try (vm_compute; reflexivity). discriminate. Qed.

(** C6: [evaluateCondition] is a total function of the heap, the record
    and the condition, and returns a boolean without changing anything.
    With an ordering operator it is true exactly when the field value and
    the condition value are both numbers in that order; with [contains],
    [startsWith] or [endsWith] exactly when both are strings and the
    condition value occurs in, starts or ends the field value. *)
Theorem evaluate_typed_comparisons (h : heap) (item : loc) (f : string) (v : val) :
  let fieldValue := Query.getNestedValue h item f in
  let holds op :=
    Query.evaluateCondition h item {| field := f; operator := op; value := v |} = true in
  (holds OpGt <-> exists x y, fieldValue = VNumber x /\ v = VNumber y
                              /\ JsNumber.greaterThan x y = true)
  /\ (holds OpLt <-> exists x y, fieldValue = VNumber x /\ v = VNumber y
                                 /\ JsNumber.lessThan x y = true)
  /\ (holds OpGte <-> exists x y, fieldValue = VNumber x /\ v = VNumber y
                                  /\ JsNumber.greaterOrEqual x y = true)
  /\ (holds OpLte <-> exists x y, fieldValue = VNumber x /\ v = VNumber y
                                  /\ JsNumber.lessOrEqual x y = true)
  /\ (holds OpContains <-> exists s t, fieldValue = VString s /\ v = VString t
                                       /\ exists pre post, s = pre ++ t ++ post)
  /\ (holds OpStartsWith <-> exists s t, fieldValue = VString s /\ v = VString t
                                         /\ exists post, s = t ++ post)
  /\ (holds OpEndsWith <-> exists s t, fieldValue = VString s /\ v = VString t
                                       /\ exists pre, s = pre ++ t).
Proof.
  cbv zeta. unfold Query.evaluateCondition. cbn [field operator value].
  do 4 (split; [apply both_numbers|]).
  split; [|split].
  - rewrite both_strings. split.
    + intros (s & t & Hs & Ht & (i & pre & post & Hpre & _)%includes_spec). eauto 8.
    + intros (s & t & Hs & Ht & pre & post & Hpre). exists s, t.
      repeat split; auto. apply includes_spec.
      now exists (String.length pre), pre, post.
  - rewrite both_strings. split.
    + intros (s & t & Hs & Ht & H%startsWith_spec). eauto 8.
    + intros (s & t & Hs & Ht & H). exists s, t.
      repeat split; auto. now apply startsWith_spec.
  - rewrite both_strings. split.
    + intros (s & t & Hs & Ht & H%endsWith_spec). eauto 8.
    + intros (s & t & Hs & Ht & H). exists s, t.
      repeat split; auto. now apply endsWith_spec.
Qed.

(** C7: the value of a parsed condition is the typed literal of the
    right-hand side: the text after the symbol is trimmed; when it starts
    and ends with the same quote character the first and the last code unit
    are dropped (a body between quotes gives the body, a lone quote the
    empty string), otherwise it is kept; the literal so obtained is turned
    into [true], [false], [null], [undefined], into its number when it is
    not empty and [Number] reads it, and is kept as a string otherwise. *)
Theorem parsed_value_is_typed_literal
    (w : World) (raw : string) (c : JsonaryCondition) :
  cacheSound w ->
  fst (Query.parseCondition raw w) = Some c ->
  exists pre post rhs lit,
    raw = pre ++ symbol (operator c) ++ post
    /\ rhs = trim post
    /\ (forall q body, q = doubleQuote \/ q = singleQuote ->
        rhs = q ++ body ++ q -> lit = body)
    /\ (rhs = doubleQuote \/ rhs = singleQuote -> lit = "")
    /\ (quoted doubleQuote rhs = false -> quoted singleQuote rhs = false -> lit = rhs)
    /\ (lit = "true" -> value c = VBoolean true)
    /\ (lit = "false" -> value c = VBoolean false)
    /\ (lit = "null" -> value c = VNull)
    /\ (lit = "undefined" -> value c = VUndefined)
    /\ (lit <> "true" -> lit <> "false" -> lit <> "null" -> lit <> "undefined" ->
        (lit <> "" /\ JsNumber.isNaN (JsNumber.StringToNumber lit) = false ->
         value c = VNumber (JsNumber.StringToNumber lit))
        /\ (lit = "" \/ JsNumber.isNaN (JsNumber.StringToNumber lit) = true ->
            value c = VString lit)).
Proof.
  intros Hw Hc. destruct (parseCondition_sound raw w Hw) as [Hp _].
  rewrite Hp in Hc.
  destruct (parseLoop_some _ _ _ Hc) as (_ & _ & pre & post & _ & _ & Hraw & _ & Hcond).
  exists pre, post, (trim post), (Query.stripQuotes (trim post)).
  split; [exact Hraw|]. split; [reflexivity|].
  assert (value c = Query.parseSpecialValue (Query.stripQuotes (trim post))) as ->
    by (rewrite Hcond; reflexivity).
  split; [|split; [|split]].
  - intros q body Hq Hrhs. rewrite stripQuotes_eq, Hrhs.
    destruct Hq as [-> | ->].
    + unfold doubleQuote. rewrite !append_cons, !append_nil.
      rewrite quoted_surrounded. apply slice_inner.
    + unfold singleQuote, doubleQuote. rewrite !append_cons, !append_nil.
      rewrite (quoted_surrounded "'"), orb_true_r. apply slice_inner.
  - intros [-> | ->]; reflexivity.
  - intros H1 H2. now rewrite stripQuotes_eq, H1, H2.
  - apply parseSpecialValue_cases.
Qed.

(** C7 at the condition string [name contains "oh"]. *)
Lemma parsed_value_is_typed_literal_witness :
  cacheSound emptyWorld
  /\ fst (Query.parseCondition containsQuoted emptyWorld) =
     Some {| field := "name"; operator := OpContains; value := VString "oh" |}
  /\ (
  exists pre post rhs lit,
    containsQuoted = pre ++ symbol OpContains ++ post
    /\ rhs = trim post
    /\ (forall q body, q = doubleQuote \/ q = singleQuote ->
        rhs = q ++ body ++ q -> lit = body)
    /\ (rhs = doubleQuote \/ rhs = singleQuote -> lit = "")
    /\ (quoted doubleQuote rhs = false -> quoted singleQuote rhs = false -> lit = rhs)
    /\ (lit = "true" -> VString "oh" = VBoolean true)
    /\ (lit = "false" -> VString "oh" = VBoolean false)
    /\ (lit = "null" -> VString "oh" = VNull)
    /\ (lit = "undefined" -> VString "oh" = VUndefined)
    /\ (lit <> "true" -> lit <> "false" -> lit <> "null" -> lit <> "undefined" ->
        (lit <> "" /\ JsNumber.isNaN (JsNumber.StringToNumber lit) = false ->
         VString "oh" = VNumber (JsNumber.StringToNumber lit))
        /\ (lit = "" \/ JsNumber.isNaN (JsNumber.StringToNumber lit) = true ->
            VString "oh" = VString lit))).
Proof.
  assert (cacheSound emptyWorld) as H1 by apply cacheSound_empty.
  assert (fst (Query.parseCondition containsQuoted emptyWorld) =
          Some {| field := "name"; operator := OpContains; value := VString "oh" |})
    as H2 by reflexivity.
  exact (conj H1 (conj H2
    (parsed_value_is_typed_literal emptyWorld containsQuoted _ H1 H2))).
Defined.

(** C8: with a condition string in which no operator symbol occurs, on a
    sound cache, [where] returns the builder as it was (the working copy
    untouched), [updateWhere] completes, updates no record and returns [0],
    and [deleteWhere] removes no record and returns [0]; the records and
    the record arrays stay as they were. *)
Theorem condition_without_symbol_is_noop
    (raw : string) (patch : Patch) (qb : Query.QueryBuilder) (w : World) :
  cacheSound w ->
  (forall op, ~ occurs (symbol op) raw) ->
  (fst (Query.where_ (CondString raw) qb w) = qb
   /\ objects (snd (Query.where_ (CondString raw) qb w)) = objects w
   /\ arrays (snd (Query.where_ (CondString raw) qb w)) = arrays w)
  /\ (exists w',
        Index.updateWhere (CondString raw) patch w = Some (0%nat, w')
        /\ objects w' = objects w /\ arrays w' = arrays w
        /\ storeData w' = storeData w)
  /\ (fst (Index.deleteWhere (CondString raw) w) = 0%nat
      /\ objects (snd (Index.deleteWhere (CondString raw) w)) = objects w
      /\ arrays (snd (Index.deleteWhere (CondString raw) w)) = arrays w
      /\ storeData (snd (Index.deleteWhere (CondString raw) w)) = storeData w).
Proof.
  intros Hw Hnone.
  assert (Query.parseLoop getOperatorsSorted raw = None) as Hloop
    by (apply parseLoop_none; intros op _; apply Hnone).
  split_and!.
  - destruct (where_string raw qb w Hw) as (w' & _ & _ & _ & _ & ->).
    now rewrite Hloop.
  - destruct (where_string raw qb w Hw) as (w' & _ & Ho & _ & _ & ->).
    now rewrite Hloop.
  - destruct (where_string raw qb w Hw) as (w' & _ & _ & Ha & _ & ->).
    now rewrite Hloop.
  - destruct (updateWhereLoop_unparseable raw patch (arrayOf w (storeData w)) 0 w Hw Hloop)
      as (w' & Hrun & _ & Ho & Ha & Hd).
    exists w'. auto.
  - destruct (deleteWhere_string raw w Hw) as (_ & Harr & ->).
    rewrite Hloop in Harr. destruct Harr as [Ha Hd].
    unfold arrayOf. rewrite Ha, Hd. lia.
  - apply (deleteWhere_string raw w Hw).
  - destruct (deleteWhere_string raw w Hw) as (_ & Harr & _).
    rewrite Hloop in Harr. apply Harr.
  - destruct (deleteWhere_string raw w Hw) as (_ & Harr & _).
    rewrite Hloop in Harr. apply Harr.
Qed.

(** C8 at the string [age] on the store [[{age: 10}, {age: 20}, {age: 5}]]. *)
Lemma condition_without_symbol_is_noop_witness :
  cacheSound agesWorld
  /\ (forall op, ~ occurs (symbol op) "age")
  /\ fst (Query.where_ (CondString "age") (Query.new 0%nat true agesWorld) agesWorld) =
     Query.new 0%nat true agesWorld
  /\ fst (Index.deleteWhere (CondString "age") agesWorld) = 0%nat.
Proof.
  assert (cacheSound agesWorld) as H1 by apply cacheSound_empty.
  assert (forall op, ~ occurs (symbol op) "age") as H2
    by (intros op; apply not_occurs_by_indexOf; destruct op; reflexivity).
  pose proof (condition_without_symbol_is_noop "age" []
                (Query.new 0%nat true agesWorld) agesWorld H1 H2) as H.
  exact (conj H1 (conj H2 (conj (proj1 (proj1 H)) (proj1 (proj2 (proj2 H)))))).
Defined.

(** C9: a [where] call, with a condition string or a predicate function,
    leaves a working copy that is a subsequence of the one before the call,
    so not a longer one; so does every chain of [where] calls, and the
    backing array of the builder stays the same. *)
Theorem where_only_narrows
    (condition : Condition) (conditions : list Condition)
    (qb : Query.QueryBuilder) (w : World) :
  (Query.data (fst (Query.where_ condition qb w)) `sublist_of` Query.data qb
   /\ length (Query.data (fst (Query.where_ condition qb w))) <= length (Query.data qb))
  /\ (Query.data (fst (whereChain conditions qb w)) `sublist_of` Query.data qb
      /\ length (Query.data (fst (whereChain conditions qb w))) <= length (Query.data qb)
      /\ Query.originalData (fst (whereChain conditions qb w)) = Query.originalData qb).
Proof.
  assert (forall c q v,
            Query.data (fst (Query.where_ c q v)) `sublist_of` Query.data q
            /\ Query.originalData (fst (Query.where_ c q v)) = Query.originalData q)
    as Hstep.
  { intros [s | f] q v; unfold Query.where_.
    - destruct (Query.parseCondition s v) as [[c|] v']; cbn [fst].
      + split; [apply filter_sublist | reflexivity].
      + split; reflexivity.
    - cbn [fst]. split; [apply filter_sublist | reflexivity]. }
  split.
  - split; [apply Hstep | apply sublist_length, Hstep].
  - revert qb w. induction conditions as [|c conditions IH]; intros qb w.
    + cbn [whereChain fst]. repeat split; [reflexivity | lia].
    + cbn [whereChain]. destruct (Hstep c qb w) as [Hs Ho].
      destruct (Query.where_ c qb w) as [qb' w']. cbn [fst] in Hs, Ho.
      destruct (IH qb' w') as (H1 & H2 & H3). repeat split.
      * now transitivity (Query.data qb').
      * apply sublist_length in Hs. lia.
      * congruence.
Qed.

(** C10 (as amended): on a sound cache [parseCondition] returns a
    condition exactly when one of the operator symbols occurs in the string
    as a substring, and none exactly when no symbol occurs; the field is not
    validated, and is the trimmed text before the leftmost occurrence of the
    symbol the condition has: so it is the empty string when the string
    begins with that symbol; a string that begins with an operator symbol
    parses, as ["= 5"] does, into a condition whose field is the empty
    string. *)
Theorem parse_some_iff_symbol_occurs (w : World) (raw : string) :
  cacheSound w ->
  (is_Some (fst (Query.parseCondition raw w)) <-> exists op, occurs (symbol op) raw)
  /\ (fst (Query.parseCondition raw w) = None <-> forall op, ~ occurs (symbol op) raw)
  /\ (forall c,
        fst (Query.parseCondition raw w) = Some c ->
        (exists pre post,
           raw = pre ++ symbol (operator c) ++ post
           /\ (forall j, occursAt (symbol (operator c)) raw j ->
               (String.length pre <= j)%nat)
           /\ field c = trim pre)
        /\ (startsWith raw (symbol (operator c)) = true -> field c = ""))
  /\ ((exists op, startsWith raw (symbol op) = true) ->
      is_Some (fst (Query.parseCondition raw w)))
  /\ fst (Query.parseCondition "= 5" w) =
     Some {| field := ""; operator := OpEq; value := VNumber (JsNumber.ofZ 5) |}.
Proof.
  intros Hw.
  assert (fst (Query.parseCondition raw w) = None <-> forall op, ~ occurs (symbol op) raw)
    as Hnone.
  { destruct (parseCondition_sound raw w Hw) as [-> _]. rewrite parseLoop_none.
    split; [intros H op; apply H, every_operator_sorted | intros H op _; apply H]. }
  assert (is_Some (fst (Query.parseCondition raw w)) <->
          exists op, occurs (symbol op) raw) as Hsome.
  { split.
    - intros [c Hc]. destruct (parseCondition_sound raw w Hw) as [Hp _].
      rewrite Hp in Hc.
      destruct (parseLoop_some _ _ _ Hc) as (_ & _ & pre & post & _ & _ & Hraw & _).
      exists (operator c), (String.length pre), pre, post. auto.
    - intros [op Hop]. destruct (fst (Query.parseCondition raw w)) eqn:E; [eauto|].
      exfalso. exact (proj1 Hnone eq_refl op Hop). }
  split; [exact Hsome|]. split; [exact Hnone|]. split; [|split].
  - intros c Hc. destruct (parseCondition_sound raw w Hw) as [Hp _].
    rewrite Hp in Hc.
    destruct (parseLoop_some _ _ _ Hc) as (_ & _ & pre & post & _ & _ & Hraw & Hleft & Hcond).
    assert (field c = trim pre) as Hfield by (rewrite Hcond; reflexivity).
    split; [exists pre, post; auto|].
    intros Hstart%occursAt_zero. apply Hleft in Hstart.
    destruct pre; [exact Hfield | simpl in Hstart; lia].
  - intros [op Hop%occursAt_zero]. apply Hsome. exists op, 0%nat. exact Hop.
  - destruct (parseCondition_sound "= 5" w Hw) as [-> _]. reflexivity.
Qed.

(** C10 at the string [age], on the empty cache. *)
Lemma parse_some_iff_symbol_occurs_witness :
  cacheSound emptyWorld
  /\ ((is_Some (fst (Query.parseCondition "age" emptyWorld)) <->
       exists op, occurs (symbol op) "age")
      /\ (fst (Query.parseCondition "age" emptyWorld) = None <->
          forall op, ~ occurs (symbol op) "age")).
Proof.
  pose proof (parse_some_iff_symbol_occurs emptyWorld "age" (cacheSound_empty _ _ _))
    as (H1 & H2 & _).
  exact (conj (cacheSound_empty _ _ _) (conj H1 H2)).
Defined.

(** C10, the counterexample: the strings ["> = 5"] and ["=>= 5"] begin
    with an operator symbol, [>] and [=], and parse into conditions whose
    field is not the empty string: the symbols found are [=] and [>=], and
    the fields the texts [>] and [=] that stand before them. *)
Lemma parse_leading_symbol_keeps_field :
  startsWith "> = 5" (symbol OpGt) = true
  /\ fst (Query.parseCondition "> = 5" emptyWorld) =
     Some {| field := ">"; operator := OpEq; value := VNumber (JsNumber.ofZ 5) |}
  /\ startsWith "=>= 5" (symbol OpEq) = true
  /\ fst (Query.parseCondition "=>= 5" emptyWorld) =
     Some {| field := "="; operator := OpGte; value := VNumber (JsNumber.ofZ 5) |}
  /\ ">" <> "" /\ "=" <> "".
Proof. split_and!; try reflexivity; discriminate. Qed.

(** ** Further properties of the code *)

Module FurtherFacts.
Import JsString JsStringFacts ParserFacts EvaluatorFacts BuilderFacts StoreFacts Query.

(** A call of [parseCondition] touches the cache only. *)
Lemma parseCondition_frame (raw : string) (w : World) :
  objects (snd (parseCondition raw w)) = objects w
  /\ arrays (snd (parseCondition raw w)) = arrays w
  /\ storeData (snd (parseCondition raw w)) = storeData w.
Proof.
  unfold parseCondition. now destruct (conditionRecent w !! raw).
Qed.

(** After a call for [raw] every string parses as before the call. *)
Lemma parseCondition_stable (s raw : string) (w : World) :
  fst (parseCondition s (snd (parseCondition raw w))) = fst (parseCondition s w).
Proof.
  unfold parseCondition at 2.
  destruct (conditionRecent w !! raw) as [cached|] eqn:E; [reflexivity|].
  cbn [snd]. unfold parseCondition. cbn [conditionRecent setConditionRecent].
  rewrite lookup_insert. case_decide as Hs.
  - subst s. now rewrite E.
  - now destruct (conditionRecent w !! s).
Qed.

Lemma parseCondition_recorded (raw : string) (w : World) :
  conditionRecent (snd (parseCondition raw w)) !! raw = Some (fst (parseCondition raw w)).
Proof.
  unfold parseCondition.
  destruct (conditionRecent w !! raw) as [cached|] eqn:E; cbn [fst snd]; [exact E|].
  cbn [conditionRecent setConditionRecent]. apply lookup_insert_eq.
Qed.

Lemma parseSpecialValue_primitive (lit : string) :
  (forall l, parseSpecialValue lit <> VObject l)
  /\ (forall x, parseSpecialValue lit = VNumber x -> JsNumber.isNaN x = false).
Proof.
  unfold parseSpecialValue.
  repeat match goal with
         | |- context [if ?b then _ else _] => destruct b eqn:?
         end; split; try discriminate.
  intros x [= <-].
  match goal with
  | H : negb _ && _ = true |- _ => apply andb_true_iff in H as [H _]
  end.
  now apply negb_true_iff.
Qed.

(** In the sorted list, an operator with a longer symbol stands before. *)
Lemma longer_symbol_before
    (before after : list QueryOperator) (op o : QueryOperator) :
  getOperatorsSorted = (before ++ op :: after)%list ->
  (String.length (symbol op) < String.length (symbol o))%nat ->
  o ∈ before.
Proof.
  rewrite getOperatorsSorted_order. intros Hsplit Hlen.
  do 9 (destruct before as [|? before];
        [injection Hsplit as <- _; destruct o; simpl in Hlen; try lia;
         apply list_elem_of_In; simpl; tauto
        |injection Hsplit as <- Hsplit]).
  now destruct before.
Qed.

End FurtherFacts.

Import FurtherFacts.

(** X1: a parsed condition never has an operator of which a symbol with a
    longer spelling occurs in the string: in [age >= 18] neither [>] nor
    [=] is taken, [>=] is. *)
Theorem parse_prefers_longer_symbol
    (w : World) (raw : string) (c : JsonaryCondition) (o : QueryOperator) :
  cacheSound w ->
  fst (Query.parseCondition raw w) = Some c ->
  (String.length (symbol (operator c)) < String.length (symbol o))%nat ->
  ~ occurs (symbol o) raw.
Proof.
  intros Hw Hc Hlen. destruct (parseCondition_sound raw w Hw) as [Hp _].
  rewrite Hp in Hc.
  destruct (parseLoop_some _ _ _ Hc) as (before & after & _ & _ & Hsplit & Hbefore & _).
  apply Hbefore. exact (longer_symbol_before _ _ _ _ Hsplit Hlen).
Qed.

(** X1 at [age = 18] and the symbol [>=], longer than [=]: the string
    holds no [>=]. *)
Lemma parse_prefers_longer_symbol_witness :
  cacheSound emptyWorld
  /\ fst (Query.parseCondition "age = 18" emptyWorld) =
     Some {| field := "age"; operator := OpEq; value := VNumber (JsNumber.ofZ 18) |}
  /\ (String.length (symbol OpEq) < String.length (symbol OpGte))%nat
  /\ ~ occurs (symbol OpGte) "age = 18".
Proof.
  assert (cacheSound emptyWorld) as H1 by apply cacheSound_empty.
  assert (fst (Query.parseCondition "age = 18" emptyWorld) =
          Some {| field := "age"; operator := OpEq; value := VNumber (JsNumber.ofZ 18) |})
    as H2 by reflexivity.
  assert (String.length (symbol OpEq) < String.length (symbol OpGte))%nat as H3
    by (simpl; lia).
  exact (conj H1 (conj H2 (conj H3
    (parse_prefers_longer_symbol emptyWorld "age = 18" _ OpGte H1 H2 H3)))).
Defined.

(** X2: a second call of [parseCondition] for a string returns what the
    first returned and leaves the state as the first left it; the first
    call stores its result under the string, and changes what no other
    string parses to. *)
Theorem parse_is_cached (raw s : string) (w : World) :
  Query.parseCondition raw (snd (Query.parseCondition raw w)) =
    Query.parseCondition raw w
  /\ conditionRecent (snd (Query.parseCondition raw w)) !! raw =
     Some (fst (Query.parseCondition raw w))
  /\ fst (Query.parseCondition s (snd (Query.parseCondition raw w))) =
     fst (Query.parseCondition s w).
Proof.
  split; [|split; [apply parseCondition_recorded | apply parseCondition_stable]].
  pose proof (parseCondition_recorded raw w) as Hrec.
  destruct (Query.parseCondition raw w) as [r w1] eqn:E. cbn [fst snd] in *.
  unfold Query.parseCondition at 1. now rewrite Hrec.
Qed.

(** X3: the value of a parsed condition is never an object and never NaN;
    so of a record whose field holds an object (a map or an array) a parsed
    condition is true exactly when its operator is [!=]. *)
Theorem parsed_value_is_primitive
    (w : World) (raw : string) (c : JsonaryCondition) :
  cacheSound w ->
  fst (Query.parseCondition raw w) = Some c ->
  (forall l, value c <> VObject l)
  /\ (forall x, value c = VNumber x -> JsNumber.isNaN x = false)
  /\ (forall h item l,
        Query.getNestedValue h item (field c) = VObject l ->
        (Query.evaluateCondition h item c = true <-> operator c = OpNeq)).
Proof.
  intros Hw Hc. destruct (parseCondition_sound raw w Hw) as [Hp _].
  rewrite Hp in Hc.
  destruct (parseLoop_some _ _ _ Hc) as (_ & _ & pre & post & _ & _ & _ & _ & Hcond).
  assert (value c = Query.parseSpecialValue (Query.stripQuotes (trim post))) as Hv
    by (rewrite Hcond; reflexivity).
  destruct (parseSpecialValue_primitive (Query.stripQuotes (trim post))) as [Hobj Hnan].
  rewrite <- Hv in Hobj, Hnan.
  split; [exact Hobj|]. split; [exact Hnan|].
  intros h item l Hget. unfold Query.evaluateCondition. rewrite Hget.
  assert (strictEquals (VObject l) (value c) = false) as Heq.
  { destruct (value c) as [| | | | |l'|]; try reflexivity. now destruct (Hobj l'). }
  destruct (operator c); rewrite ?Heq; simpl; split; easy.
Qed.

(** X3 at [age != 18], whose value is the number 18. *)
Lemma parsed_value_is_primitive_witness :
  cacheSound emptyWorld
  /\ fst (Query.parseCondition "age != 18" emptyWorld) =
     Some {| field := "age"; operator := OpNeq; value := VNumber (JsNumber.ofZ 18) |}
  /\ (forall h item l,
        Query.getNestedValue h item "age" = VObject l ->
        Query.evaluateCondition h item
          {| field := "age"; operator := OpNeq; value := VNumber (JsNumber.ofZ 18) |}
        = true).
Proof.
  assert (cacheSound emptyWorld) as H1 by apply cacheSound_empty.
  assert (fst (Query.parseCondition "age != 18" emptyWorld) =
          Some {| field := "age"; operator := OpNeq; value := VNumber (JsNumber.ofZ 18) |})
    as H2 by reflexivity.
  split; [exact H1|]. split; [exact H2|].
  intros h item l Hget.
  exact (proj2 (proj2 (proj2 (parsed_value_is_primitive emptyWorld "age != 18" _ H1 H2))
                  h item l Hget) eq_refl).
Defined.

(** *** Chains of [where] *)

Lemma sameView_refl (w : World) : sameView w w.
Proof. repeat split. Qed.

Lemma sameView_trans (w1 w2 w3 : World) :
  sameView w1 w2 -> sameView w2 w3 -> sameView w1 w3.
Proof.
  intros (Ho & Ha & Hd & Hp) (Ho' & Ha' & Hd' & Hp').
  split_and!; [congruence | congruence | congruence |].
  intros s. now rewrite Hp', Hp.
Qed.

Lemma sameView_parse (raw : string) (w : World) :
  sameView w (snd (Query.parseCondition raw w)).
Proof.
  destruct (parseCondition_frame raw w) as (Ho & Ha & Hd).
  repeat split; auto. intros s. apply parseCondition_stable.
Qed.

Lemma predicateOf_sameView (condition : Condition) (w w' : World) :
  sameView w w' -> predicateOf condition w' = predicateOf condition w.
Proof.
  intros (Ho & _ & _ & Hp). destruct condition as [raw | f]; simpl.
  - now rewrite Hp, Ho.
  - now rewrite Ho.
Qed.

Lemma selects_sameView (condition : Condition) (w w' : World) (item : loc) :
  sameView w w' -> selects condition w' item = selects condition w item.
Proof. intros H. unfold selects. now rewrite (predicateOf_sameView _ _ _ H). Qed.

Lemma recorded_sameView (condition : Condition) (w w' : World) :
  sameView w w' -> recorded w' condition = recorded w condition.
Proof. intros (_ & _ & _ & Hp). destruct condition; simpl; auto. Qed.

Lemma filter_true {A : Type} (l : list A) : List.filter (fun _ => true) l = l.
Proof. induction l as [|x l IH]; simpl; congruence. Qed.

Lemma filter_both {A : Type} (p q : A -> bool) (l : list A) :
  List.filter q (List.filter p l) = List.filter (fun x => p x && q x) l.
Proof.
  induction l as [|x l IH]; [reflexivity|]. simpl.
  destruct (p x); simpl; [destruct (q x)|]; now rewrite IH.
Qed.

Lemma forallb_pointwise {A : Type} (p q : A -> bool) (l : list A) :
  (forall x, p x = q x) -> forallb p l = forallb q l.
Proof. intros H. induction l as [|x l IH]; simpl; [reflexivity | now rewrite H, IH]. Qed.

Lemma omap_pointwise {A B : Type} (f g : A -> option B) (l : list A) :
  (forall x, f x = g x) -> omap f l = omap g l.
Proof.
  intros H. induction l as [|x l IH]; [reflexivity|].
  change (omap f (x :: l)) with (match f x with Some y => y :: omap f l | None => omap f l end).
  change (omap g (x :: l)) with (match g x with Some y => y :: omap g l | None => omap g l end).
  now rewrite H, IH.
Qed.

Lemma head_filter {A : Type} (p : A -> bool) (l : list A) :
  head (List.filter p l) = List.find p l.
Proof.
  induction l as [|x l IH]; [reflexivity|]. simpl. now destruct (p x).
Qed.

(** One [where] call: what it leaves of the working copy, of the builder
    and of the state. *)
Lemma where_step (condition : Condition) (qb : Query.QueryBuilder) (w : World) :
  Query.data (fst (Query.where_ condition qb w)) =
    List.filter (selects condition w) (Query.data qb)
  /\ Query.conditions (fst (Query.where_ condition qb w)) =
     (Query.conditions qb ++ option_list (recorded w condition))%list
  /\ Query.originalData (fst (Query.where_ condition qb w)) = Query.originalData qb
  /\ Query.parent (fst (Query.where_ condition qb w)) = Query.parent qb
  /\ sameView w (snd (Query.where_ condition qb w)).
Proof.
  destruct condition as [raw | f]; unfold Query.where_, selects; simpl.
  - pose proof (sameView_parse raw w) as Hview.
    destruct (Query.parseCondition raw w) as [[c|] w']; cbn [fst snd] in *.
    + split_and!; try reflexivity; [|exact Hview].
      apply filter_ext. intros item. now rewrite (proj1 Hview).
    + rewrite filter_true, app_nil_r. split_and!; try reflexivity. exact Hview.
  - rewrite app_nil_r. split_and!; try reflexivity. apply sameView_refl.
Qed.

Lemma whereChain_result (conditions : list Condition) (qb : Query.QueryBuilder) (w : World) :
  Query.data (fst (whereChain conditions qb w)) =
    List.filter (fun item => forallb (fun c => selects c w item) conditions)
      (Query.data qb)
  /\ Query.conditions (fst (whereChain conditions qb w)) =
     (Query.conditions qb ++ omap (recorded w) conditions)%list
  /\ Query.originalData (fst (whereChain conditions qb w)) = Query.originalData qb
  /\ Query.parent (fst (whereChain conditions qb w)) = Query.parent qb
  /\ sameView w (snd (whereChain conditions qb w)).
Proof.
  revert qb w. induction conditions as [|c conditions IH]; intros qb w.
  - cbn [whereChain fst snd forallb omap]. rewrite filter_true, app_nil_r.
    split_and!; try reflexivity. apply sameView_refl.
  - cbn [whereChain].
    destruct (where_step c qb w) as (Hd & Hc & Ho & Hp & Hview).
    destruct (Query.where_ c qb w) as [qb' w']. cbn [fst snd] in *.
    destruct (IH qb' w') as (Hd' & Hc' & Ho' & Hp' & Hview').
    split_and!.
    + rewrite Hd', Hd, filter_both. apply filter_ext. intros item.
      cbn [forallb]. f_equal. apply forallb_pointwise. intros c'.
      now apply selects_sameView.
    + rewrite Hc', Hc, <- app_assoc. f_equal.
      rewrite (omap_pointwise (recorded w') (recorded w))
        by (intros c'; now apply recorded_sameView).
      change (omap (recorded w) (c :: conditions))
        with (match recorded w c with
              | Some y => y :: omap (recorded w) conditions
              | None => omap (recorded w) conditions
              end).
      now destruct (recorded w c).
    + congruence.
    + congruence.
    + exact (sameView_trans _ _ _ Hview Hview').
Qed.




(** X6: the builder records, in the order of the calls, the parsed
    condition of every condition string that parses; a function and a string
    that does not parse leave no record. *)
Theorem where_chain_records_parsed
    (conditions : list Condition) (qb : Query.QueryBuilder) (w : World) :
  Query.conditions (fst (whereChain conditions qb w)) =
    (Query.conditions qb ++ omap (recorded w) conditions)%list.
Proof. apply whereChain_result. Qed.

(** X7: after a [where] call, [first] returns the first record of the
    former working copy that the condition selects, none when there is no
    such record, and [count] the number of the records selected. *)
Theorem first_is_first_selected
    (condition : Condition) (qb : Query.QueryBuilder) (w : World) :
  Query.first (fst (Query.where_ condition qb w)) =
    List.find (selects condition w) (Query.data qb)
  /\ (Query.first (fst (Query.where_ condition qb w)) = None <->
      forall item, item ∈ Query.data qb -> selects condition w item = false)
  /\ Query.count (fst (Query.where_ condition qb w)) =
     length (List.filter (selects condition w) (Query.data qb)).
Proof.
  destruct (where_step condition qb w) as (Hd & _).
  unfold Query.first, Query.count. rewrite Hd, head_filter.
  split; [reflexivity|]. split; [|reflexivity].
  split.
  - intros Hnone item Hitem%list_elem_of_In.
    exact (find_none _ _ Hnone item Hitem).
  - intros Hall. destruct (List.find _ _) as [x|] eqn:E; [|reflexivity].
    apply find_some in E as [Hx%list_elem_of_In Hsel].
    rewrite (Hall x Hx) in Hsel. discriminate.
Qed.

(** *** [deleteWhere] and [delete] *)

Lemma parse_same_cache (s : string) (w w' : World) :
  conditionRecent w' = conditionRecent w ->
  fst (Query.parseCondition s w') = fst (Query.parseCondition s w).
Proof.
  intros H. unfold Query.parseCondition. rewrite H.
  now destruct (conditionRecent w !! s).
Qed.

Lemma predicateOf_ext (condition : Condition) (w w' : World) :
  objects w' = objects w ->
  (forall s, fst (Query.parseCondition s w') = fst (Query.parseCondition s w)) ->
  predicateOf condition w' = predicateOf condition w.
Proof.
  intros Ho Hp. destruct condition as [raw | f]; simpl.
  - now rewrite Hp, Ho.
  - now rewrite Ho.
Qed.

Lemma filter_idempotent {A : Type} (p : A -> bool) (l : list A) :
  List.filter p (List.filter p l) = List.filter p l.
Proof. rewrite filter_both. apply filter_ext. intros x. now destruct (p x). Qed.

Lemma filter_length_sum {A : Type} (p : A -> bool) (l : list A) :
  length l - length (List.filter (fun x => negb (p x)) l) +
  length (List.filter (fun x => negb (p x)) l) = length l.
Proof. pose proof (filter_length p l). lia. Qed.

(** What [deleteWhere] returns and leaves, for either kind of condition. *)
Lemma deleteWhere_result (condition : Condition) (w : World) :
  objects (snd (Index.deleteWhere condition w)) = objects w
  /\ match predicateOf condition w with
     | Some p =>
         Index.get (snd (Index.deleteWhere condition w)) =
         List.filter (fun item => negb (p item)) (Index.get w)
     | None =>
         arrays (snd (Index.deleteWhere condition w)) = arrays w
         /\ storeData (snd (Index.deleteWhere condition w)) = storeData w
     end
  /\ fst (Index.deleteWhere condition w) =
     length (Index.get w) - length (Index.get (snd (Index.deleteWhere condition w)))
  /\ (forall s, fst (Query.parseCondition s (snd (Index.deleteWhere condition w))) =
                fst (Query.parseCondition s w)).
Proof.
  unfold Index.deleteWhere, Index.get. cbn [fst snd].
  destruct condition as [raw | f]; cbn [predicateOf].
  - destruct (parseCondition_frame raw w) as (Ho & Ha & Hd).
    pose proof (fun s => parseCondition_stable s raw w) as Hstable.
    destruct (Query.parseCondition raw w) as [[c|] w1]; cbn [fst snd] in *.
    + rewrite get_assignStoreData, Ho, Hd, (arrayOf_ext w1 w _ Ha).
      split_and!; try reflexivity; [exact Ho|].
      intros s. rewrite <- Hstable. now apply parse_same_cache.
    + split_and!; auto.
  - rewrite get_assignStoreData. split_and!; try reflexivity.
    intros s. now apply parse_same_cache.
Qed.

(** X8: [deleteWhere], with a predicate function or a condition string
    that parses, leaves in the store, in their order, the records of which
    the condition is false; with a string that does not parse it leaves
    every record.  The count returned and the number of records left add up
    to the number of records before, and no record is changed. *)
Theorem deleteWhere_removes_selected (condition : Condition) (w : World) :
  Index.get (snd (Index.deleteWhere condition w)) =
    match predicateOf condition w with
    | Some p => List.filter (fun item => negb (p item)) (Index.get w)
    | None => Index.get w
    end
  /\ fst (Index.deleteWhere condition w)
     + length (Index.get (snd (Index.deleteWhere condition w))) = length (Index.get w)
  /\ objects (snd (Index.deleteWhere condition w)) = objects w.
Proof.
  destruct (deleteWhere_result condition w) as (Ho & Hleft & Hn & _).
  assert (Index.get (snd (Index.deleteWhere condition w)) =
          match predicateOf condition w with
          | Some p => List.filter (fun item => negb (p item)) (Index.get w)
          | None => Index.get w
          end) as Hget.
  { destruct (predicateOf condition w) as [p|]; [exact Hleft|].
    destruct Hleft as [Ha Hd]. unfold Index.get. rewrite Hd. now apply arrayOf_ext. }
  split; [exact Hget|]. split; [|exact Ho].
  rewrite Hn, Hget. destruct (predicateOf condition w) as [p|].
  - apply filter_length_sum.
  - lia.
Qed.

(** X9: a second [deleteWhere] with the same condition removes nothing:
    it returns 0 and leaves the records the first call left. *)
Theorem deleteWhere_again_removes_nothing (condition : Condition) (w : World) :
  fst (Index.deleteWhere condition (snd (Index.deleteWhere condition w))) = 0%nat
  /\ Index.get (snd (Index.deleteWhere condition (snd (Index.deleteWhere condition w)))) =
     Index.get (snd (Index.deleteWhere condition w)).
Proof.
  destruct (deleteWhere_result condition w) as (Ho & Hleft & _ & Hparse).
  set (once := snd (Index.deleteWhere condition w)) in *.
  destruct (deleteWhere_result condition once) as (_ & Hleft' & Hn' & _).
  rewrite (predicateOf_ext condition w once Ho Hparse) in Hleft'.
  assert (Index.get (snd (Index.deleteWhere condition once)) = Index.get once) as Hsame.
  { destruct (predicateOf condition w) as [p|].
    - rewrite Hleft', Hleft. apply filter_idempotent.
    - destruct Hleft' as [Ha Hd]. unfold Index.get. rewrite Hd. now apply arrayOf_ext. }
  split; [|exact Hsame]. rewrite Hn', Hsame. lia.
Qed.

Lemma selects_predicate (condition : Condition) (p : loc -> bool) (w : World) (item : loc) :
  predicateOf condition w = Some p -> selects condition w item = p item.
Proof. intros H. unfold selects. now rewrite H. Qed.

Lemma selects_no_predicate (condition : Condition) (w : World) (item : loc) :
  predicateOf condition w = None -> selects condition w item = true.
Proof. intros H. unfold selects. now rewrite H. Qed.

Lemma filter_false {A : Type} (l : list A) : List.filter (fun _ => false) l = [].
Proof. induction l as [|x l IH]; simpl; congruence. Qed.

(** [delete] on a builder whose working copy is the selection [p] of its
    backing array, the array of the store. *)
Lemma delete_selection (p : loc -> bool) (qb : Query.QueryBuilder) (w w' : World) :
  sameView w w' ->
  Query.originalData qb = storeData w ->
  Query.data qb = List.filter p (Index.get w) ->
  fst (fst (Query.delete qb w')) = length (List.filter p (Index.get w))
  /\ Index.get (snd (Query.delete qb w')) =
     List.filter (fun item => negb (p item)) (Index.get w)
  /\ objects (snd (Query.delete qb w')) = objects w.
Proof.
  intros (Ho & Ha & Hd & _) Horig Hdata.
  destruct (delete_result qb w') as (Hn & _ & Hleft & Hobj & _ & Hstore).
  assert (storeData (snd (Query.delete qb w')) = Query.originalData qb) as Hs.
  { rewrite Hstore. destruct (Query.parent qb); congruence. }
  split_and!.
  - now rewrite Hn, Hdata.
  - unfold Index.get in *. rewrite Hs, Hleft, Horig, (arrayOf_ext w' w _ Ha), Hdata.
    apply filter_kept_selected.
  - congruence.
Qed.



(** X11: with a condition string that does not parse the two ways part:
    [where] keeps every record, so [where] followed by [delete] removes every
    record of the store and returns their number, while [deleteWhere] removes
    none and returns 0. *)
Theorem unparseable_where_delete_empties_store
    (condition : Condition) (hasParent : bool) (w : World) :
  predicateOf condition w = None ->
  let narrowed := Query.where_ condition (Query.new (storeData w) hasParent w) w in
  let deleted := Query.delete (fst narrowed) (snd narrowed) in
  fst (fst deleted) = length (Index.get w)
  /\ Index.get (snd deleted) = []
  /\ fst (Index.deleteWhere condition w) = 0%nat
  /\ Index.get (snd (Index.deleteWhere condition w)) = Index.get w.
Proof.
  intros Hp. cbv zeta.
  destruct (where_step condition (Query.new (storeData w) hasParent w) w)
    as (Hd & _ & Ho & _ & Hview).
  destruct (delete_selection (fun _ => true) _ _ _ Hview Ho) as (Hn & Hleft & _).
  { rewrite Hd. apply filter_ext. intros item. now apply selects_no_predicate. }
  destruct (deleteWhere_result condition w) as (_ & Hleft' & Hn' & _).
  rewrite Hp in Hleft'. destruct Hleft' as [Ha Hs].
  assert (Index.get (snd (Index.deleteWhere condition w)) = Index.get w) as Hsame.
  { unfold Index.get. rewrite Hs. now apply arrayOf_ext. }
  split_and!.
  - now rewrite Hn, filter_true.
  - rewrite Hleft. apply filter_false.
  - rewrite Hn', Hsame. lia.
  - exact Hsame.
Qed.

(** X11 at the store of the three ages and the string [age], which holds
    no operator. *)
Lemma unparseable_where_delete_empties_store_witness :
  predicateOf (CondString "age") agesWorld = None
  /\ fst (fst (Query.delete (fst (Index.where_ (CondString "age") agesWorld))
                 (snd (Index.where_ (CondString "age") agesWorld)))) = 3%nat
  /\ fst (Index.deleteWhere (CondString "age") agesWorld) = 0%nat.
Proof.
  assert (predicateOf (CondString "age") agesWorld = None) as H by reflexivity.
  pose proof (unparseable_where_delete_empties_store _ true agesWorld H) as R.
  exact (conj H (conj (proj1 R) (proj1 (proj2 (proj2 R))))).
Defined.


(** *** Builders and later changes of the store *)

Lemma kept_nil (x : loc) : kept [] x = true.
Proof. unfold kept. rewrite bool_decide_eq_false_2; [reflexivity | apply not_elem_of_nil]. Qed.

(** X13: [delete] spends the builder: its working copy is empty, so
    [count], [first] and [get] show no record, a further [where] selects
    none, a further [delete] returns 0 and leaves every array as it is, and
    a further [update] completes and changes no object. *)
Theorem builder_is_spent_after_delete
    (qb : Query.QueryBuilder) (w : World) (condition : Condition) (patch : Patch) :
  let spent := snd (fst (Query.delete qb w)) in
  let after := snd (Query.delete qb w) in
  Query.count spent = 0%nat
  /\ Query.first spent = None
  /\ Query.get spent = []
  /\ Query.get (fst (Query.where_ condition spent after)) = []
  /\ fst (fst (Query.delete spent after)) = 0%nat
  /\ (forall a, arrayOf (snd (Query.delete spent after)) a = arrayOf after a)
  /\ (exists w', Query.update patch spent after = Some w' /\ objects w' = objects after).
Proof.
  cbv zeta.
  destruct (delete_result qb w) as (_ & Hempty & _).
  set (spent := snd (fst (Query.delete qb w))) in *.
  set (after := snd (Query.delete qb w)) in *.
  destruct (where_step condition spent after) as (Hd & _).
  destruct (delete_result spent after) as (Hn & _ & Hleft & _ & Hother & _).
  split_and!.
  - unfold Query.count. now rewrite Hempty.
  - unfold Query.first. now rewrite Hempty.
  - exact Hempty.
  - unfold Query.get. now rewrite Hd, Hempty.
  - now rewrite Hn, Hempty.
  - intros a. destruct (decide (a = Query.originalData spent)) as [->|Hne].
    + rewrite Hleft, Hempty. rewrite <- (filter_true (arrayOf after _)) at 2.
      apply filter_ext. intros x. apply kept_nil.
    + now apply Hother.
  - unfold Query.update. rewrite Hempty. cbn [Query.updateLoop].
    eexists. split; [reflexivity|]. now destruct (Query.parent spent).
Qed.

(** X14: [insert] lengthens the array of the store in place, so a
    builder made over the store before the call has the new record in its
    backing array (not in its working copy): its [delete] leaves the store
    with the new record, unless the record is one of the working copy. *)
Theorem insert_reaches_earlier_builder
    (item : loc) (qb : Query.QueryBuilder) (w : World) :
  Query.originalData qb = storeData w ->
  arrayOf (Index.insert item w) (Query.originalData qb) = (Index.get w ++ [item])%list
  /\ storeData (Index.insert item w) = storeData w
  /\ Index.get (snd (Query.delete qb (Index.insert item w))) =
     List.filter (kept (Query.data qb)) (Index.get w ++ [item]).
Proof.
  intros Horig.
  assert (arrayOf (Index.insert item w) (Query.originalData qb) =
          (Index.get w ++ [item])%list) as Harr.
  { rewrite Horig. unfold Index.insert, Index.get. apply arrayOf_setArray. }
  split; [exact Harr|]. split; [reflexivity|].
  destruct (delete_result qb (Index.insert item w)) as (_ & _ & Hleft & _ & _ & Hstore).
  unfold Index.get at 1. rewrite Hstore.
  replace (if Query.parent qb then Query.originalData qb
           else storeData (Index.insert item w)) with (Query.originalData qb)
    by (destruct (Query.parent qb); [reflexivity | exact Horig]).
  now rewrite Hleft, Harr.
Qed.

(** X14 at the store of the three ages, a builder holding the record of
    age 10 and a new record. *)
Lemma insert_reaches_earlier_builder_witness :
  Index.get
    (snd (Query.delete (fst (Index.where_ (CondString "age = 10") agesWorld))
            (Index.insert 4%nat agesWorld))) = [2; 3; 4]%nat.
Proof.
  exact (proj2 (proj2 (insert_reaches_earlier_builder 4%nat
                         (fst (Index.where_ (CondString "age = 10") agesWorld))
                         agesWorld eq_refl))).
Defined.

(** X15: [insertMany] gives the store a new array, so a builder made over
    the store before the call keeps the old array without the new records.
    Its [delete], when it has a parent, makes the old array, less the working
    copy, the array of the store again, and the records [insertMany] added
    are no longer in the store; without a parent it removes nothing from the
    store. *)
Theorem insertMany_leaves_earlier_builder
    (items : list loc) (qb : Query.QueryBuilder) (w : World) :
  storeData w ∈ dom (arrays w) ->
  Query.originalData qb = storeData w ->
  Index.get (Index.insertMany items w) = (Index.get w ++ items)%list
  /\ arrayOf (Index.insertMany items w) (Query.originalData qb) = Index.get w
  /\ Index.get (snd (Query.delete qb (Index.insertMany items w))) =
     (if Query.parent qb then List.filter (kept (Query.data qb)) (Index.get w)
      else Index.get w ++ items)%list.
Proof.
  intros Hdom Horig.
  assert (fresh (dom (arrays w)) <> storeData w) as Hfresh.
  { intros E. rewrite <- E in Hdom. exact (is_fresh _ Hdom). }
  assert (Index.get (Index.insertMany items w) = (Index.get w ++ items)%list) as Hnew
    by apply get_assignStoreData.
  assert (arrayOf (Index.insertMany items w) (Query.originalData qb) = Index.get w) as Hold.
  { rewrite Horig. unfold Index.insertMany, assignStoreData, Index.get.
    change (arrayOf (setStoreData ?a ?v) ?b) with (arrayOf v b).
    now apply arrayOf_setArray_ne. }
  split; [exact Hnew|]. split; [exact Hold|].
  destruct (delete_result qb (Index.insertMany items w))
    as (_ & _ & Hleft & _ & Hother & Hstore).
  unfold Index.get at 1. rewrite Hstore. destruct (Query.parent qb).
  - now rewrite Hleft, Hold.
  - rewrite Hother; [exact Hnew|].
    rewrite Horig. exact Hfresh.
Qed.

(** X15 at the store of the three ages and a builder with a parent that
    holds the record of age 10. *)
Lemma insertMany_leaves_earlier_builder_witness :
  Index.get (Index.insertMany [4; 5]%nat agesWorld) = [1; 2; 3; 4; 5]%nat
  /\ Index.get
       (snd (Query.delete (fst (Index.where_ (CondString "age = 10") agesWorld))
               (Index.insertMany [4; 5]%nat agesWorld))) = [2; 3]%nat.
Proof.
  assert (storeData agesWorld ∈ dom (arrays agesWorld)) as H.
  { apply elem_of_dom. exists [1; 2; 3]%nat. reflexivity. }
  pose proof (insertMany_leaves_earlier_builder [4; 5]%nat
                (fst (Index.where_ (CondString "age = 10") agesWorld))
                agesWorld H eq_refl) as R.
  exact (conj (proj1 R) (proj2 (proj2 R))).
Defined.

(** *** The test for a dot *)

Lemma occurs_tail (p s : string) (c : ascii) : occurs p s -> occurs p (String c s).
Proof.
  intros (i & pre & post & -> & <-). exists (S (String.length pre)), (String c pre), post.
  split; reflexivity.
Qed.

(** A string without the separator is one piece. *)
Lemma split_no_separator (sep : ascii) (s : string) :
  ~ occurs (String sep "") s -> JsString.split sep s = [s].
Proof.
  induction s as [|c s IH]; intros Hno; [reflexivity|].
  cbn [JsString.split]. destruct (Ascii.eqb c sep) eqn:E.
  - apply Ascii.eqb_eq in E. subst c. exfalso. apply Hno.
    exists 0%nat, "", s. split; reflexivity.
  - rewrite IH; [reflexivity|]. intros H. apply Hno. now apply occurs_tail.
Qed.

Lemma split_undotted (path : string) :
  JsString.includes path "." = false -> JsString.split "." path = [path].
Proof. intros H%includes_false. now apply split_no_separator. Qed.

Lemma getNestedValue_loop (h : heap) (item : loc) (path : string) :
  Query.getNestedValue h item path =
  Query.getNestedLoop h (JsString.split "." path) (VObject item).
Proof.
  unfold Query.getNestedValue. destruct (JsString.includes path ".") eqn:E; [reflexivity|].
  now rewrite (split_undotted _ E).
Qed.

Lemma setNestedValue_undotted (h : heap) (item : loc) (key : string) (v : val) :
  JsString.includes key "." = false ->
  Query.setNestedValue h item key v = JsValue.set h item key v.
Proof.
  intros E. unfold Query.setNestedValue. now rewrite (split_undotted _ E).
Qed.

(** X16: the test for a dot, in [getNestedValue] and in the assignment of
    a patch, is a shortcut only: the loop over the segments of the path reads
    the same value, and [setNestedValue] makes the same assignment, whether
    the path holds a dot or not. *)
Theorem dot_test_is_shortcut
    (h : heap) (item : loc) (path : string) (v : val) (patch : Patch) :
  Query.getNestedValue h item path =
    Query.getNestedLoop h (JsString.split "." path) (VObject item)
  /\ Query.assignPatch item ((path, v) :: patch) h =
     match Query.setNestedValue h item path v with
     | Some h' => Query.assignPatch item patch h'
     | None => None
     end.
Proof.
  split; [apply getNestedValue_loop|].
  cbn [Query.assignPatch]. destruct (JsString.includes path ".") eqn:E; [reflexivity|].
  now rewrite (setNestedValue_undotted _ _ _ _ E).
Qed.

(** *** Patches of top-level keys *)

Lemma patched_cons (key : string) (v : val) (patch : Patch) (props : gmap string property) :
  patched ((key, v) :: patch) props = patched patch (<[key := Data v]> props).
Proof. reflexivity. Qed.

Lemma patched_lookup (patch : Patch) (props : gmap string property) (k : string) :
  patched patch props !! k =
  match patchValue patch k with
  | Some v => Some (Data v)
  | None => props !! k
  end.
Proof.
  revert props. induction patch as [|[key v] patch IH]; intros props; [reflexivity|].
  rewrite patched_cons, IH. cbn [patchValue].
  destruct (patchValue patch k); [reflexivity|].
  destruct (String.eqb key k) eqn:E.
  - apply String.eqb_eq in E. subst. apply lookup_insert_eq.
  - apply String.eqb_neq in E. now apply lookup_insert_ne.
Qed.

Lemma patched_idempotent (patch : Patch) (props : gmap string property) :
  patched patch (patched patch props) = patched patch props.
Proof.
  apply map_eq. intros k. rewrite !patched_lookup. now destruct (patchValue patch k).
Qed.

(** A plain record and the prototype it has. *)
Lemma plain_object (h : heap) (item : loc) :
  plain h item = true ->
  exists props propsO,
    h !! item = Some (PlainObject (VObject ObjectPrototype) props)
    /\ h !! ObjectPrototype = Some (PlainObject VNull propsO)
    /\ item <> ObjectPrototype.
Proof.
  unfold plain. destruct (h !! item) as [[p props|]|] eqn:Hitem; try discriminate.
  destruct p as [| | | | |l|]; try discriminate.
  destruct (h !! ObjectPrototype) as [[q propsO|]|] eqn:HO; try discriminate.
  destruct q; try discriminate. intros ->%Nat.eqb_eq.
  exists props, propsO. split_and!; auto. intros ->. congruence.
Qed.

Lemma plain_by_object (h : heap) (item : loc) (props propsO : gmap string property) :
  h !! item = Some (PlainObject (VObject ObjectPrototype) props) ->
  h !! ObjectPrototype = Some (PlainObject VNull propsO) ->
  plain h item = true.
Proof. intros Hitem HO. unfold plain. rewrite Hitem, HO. apply Nat.eqb_refl. Qed.

(** What a key names on a plain record: its own property, or the one of
    [Object.prototype]. *)
Lemma findProperty_plain
    (h : heap) (item : loc) (props propsO : gmap string property) (k : string) :
  h !! item = Some (PlainObject (VObject ObjectPrototype) props) ->
  h !! ObjectPrototype = Some (PlainObject VNull propsO) ->
  findProperty h item k =
  match props !! k with
  | Some p => Some p
  | None => propsO !! k
  end.
Proof.
  intros Hitem HO. unfold findProperty.
  rewrite lookupProperty_step, Hitem. cbn [getOwnProperty].
  destruct (props !! k); [reflexivity|]. cbn [protoOf protoLoc].
  rewrite lookupProperty_step, HO. cbn [getOwnProperty protoOf protoLoc].
  now destruct (propsO !! k).
Qed.

(** A read on a plain record depends on the record and on
    [Object.prototype] only. *)
Lemma get_plain_ext (h h0 : heap) (item : loc) (k : string) :
  plain h0 item = true ->
  h !! item = h0 !! item ->
  h !! ObjectPrototype = h0 !! ObjectPrototype ->
  JsValue.get h item k = JsValue.get h0 item k.
Proof.
  intros (props & propsO & Hitem & HO & _)%plain_object Hi Ho.
  unfold JsValue.get.
  rewrite (findProperty_plain h item props propsO k) by congruence.
  rewrite (findProperty_plain h0 item props propsO k) by congruence.
  now rewrite Hi.
Qed.

Lemma accessorAt_ext (h h0 : heap) (item : loc) (k : string) :
  plain h0 item = true ->
  h !! item = h0 !! item ->
  h !! ObjectPrototype = h0 !! ObjectPrototype ->
  accessorAt h item k = accessorAt h0 item k.
Proof.
  intros (props & propsO & Hitem & HO & _)%plain_object Hi Ho.
  unfold accessorAt.
  rewrite (findProperty_plain h item props propsO k) by congruence.
  now rewrite (findProperty_plain h0 item props propsO k) by congruence.
Qed.

(** A key that names no accessor before a patch is assigned names none
    afterwards. *)
Lemma accessorAt_patched
    (h h' : heap) (item : loc) (props propsO : gmap string property)
    (patch : Patch) (k : string) :
  h !! item = Some (PlainObject (VObject ObjectPrototype) props) ->
  h !! ObjectPrototype = Some (PlainObject VNull propsO) ->
  h' !! item = Some (PlainObject (VObject ObjectPrototype) (patched patch props)) ->
  h' !! ObjectPrototype = Some (PlainObject VNull propsO) ->
  accessorAt h item k = false -> accessorAt h' item k = false.
Proof.
  intros Hitem HO Hitem' HO'. unfold accessorAt.
  rewrite (findProperty_plain h item props propsO k Hitem HO).
  rewrite (findProperty_plain h' item _ propsO k Hitem' HO').
  rewrite patched_lookup. now destruct (patchValue patch k).
Qed.

(** The assignment of a key that names no accessor on a plain record. *)
Lemma set_plain
    (h : heap) (item : loc) (proto : val) (props : gmap string property)
    (key : string) (v : val) :
  h !! item = Some (PlainObject proto props) ->
  accessorAt h item key = false ->
  JsValue.set h item key v = Some (<[item := PlainObject proto (<[key := Data v]> props)]> h).
Proof.
  intros Hitem Hk. unfold JsValue.set. rewrite Hitem. unfold accessorAt in Hk.
  destruct (findProperty h item key) as [[x|]|]; try discriminate; reflexivity.
Qed.

Lemma assignPatch_flat
    (patch : Patch) (item : loc) (props propsO : gmap string property) (h : heap) :
  flat patch = true ->
  h !! item = Some (PlainObject (VObject ObjectPrototype) props) ->
  h !! ObjectPrototype = Some (PlainObject VNull propsO) ->
  item <> ObjectPrototype ->
  forallb (fun entry => negb (accessorAt h item entry.1)) patch = true ->
  Query.assignPatch item patch h =
  Some (<[item := PlainObject (VObject ObjectPrototype) (patched patch props)]> h).
Proof.
  revert props h. induction patch as [|[key v] patch IH];
    intros props h Hflat Hitem HO Hne Hord.
  - cbn [Query.assignPatch]. f_equal. symmetry. now apply insert_id.
  - cbn [flat forallb fst] in Hflat, Hord.
    apply andb_true_iff in Hflat as [Hkey Hflat].
    apply andb_true_iff in Hord as [Hk Hord].
    apply negb_true_iff in Hkey, Hk.
    cbn [Query.assignPatch]. rewrite Hkey.
    rewrite (set_plain h item _ props key v Hitem Hk).
    set (h1 := <[item := PlainObject (VObject ObjectPrototype) (<[key := Data v]> props)]> h).
    assert (h1 !! item =
            Some (PlainObject (VObject ObjectPrototype) (<[key := Data v]> props)))
      as Hitem1 by apply lookup_insert_eq.
    assert (h1 !! ObjectPrototype = Some (PlainObject VNull propsO)) as HO1
      by (unfold h1; now rewrite lookup_insert_ne by congruence).
    rewrite (IH (<[key := Data v]> props) h1 Hflat Hitem1 HO1 Hne).
    + unfold h1. now rewrite insert_insert_eq.
    + rewrite forallb_forall in *. intros entry Hin.
      apply negb_true_iff.
      apply (accessorAt_patched h h1 item props propsO [(key, v)] entry.1 Hitem HO Hitem1 HO1).
      apply negb_true_iff. now apply Hord.
Qed.

Lemma elem_of_cons_other (l item : loc) (items : list loc) :
  l <> item -> bool_decide (l ∈ item :: items) = bool_decide (l ∈ items).
Proof. intros Hne. apply bool_decide_ext. rewrite elem_of_cons. tauto. Qed.

(** The loop of [update] with a patch of top-level keys that name no
    accessor, on plain records. *)
Lemma updateLoop_flat (patch : Patch) (items : list loc) (h : heap) :
  flat patch = true ->
  forallb (plain h) items = true ->
  ordinary h patch items = true ->
  exists h',
    Query.updateLoop items patch h = Some h'
    /\ forall l, h' !! l = patchedAt patch items h l.
Proof.
  intros Hflat. revert h. induction items as [|item items IH]; intros h Hplain Hord.
  - exists h. split; [reflexivity|]. intros l. unfold patchedAt.
    rewrite bool_decide_eq_false_2; [reflexivity | apply not_elem_of_nil].
  - cbn [forallb ordinary] in Hplain, Hord.
    apply andb_true_iff in Hplain as [Hitem Hplain].
    unfold ordinary in Hord. cbn [forallb] in Hord.
    apply andb_true_iff in Hord as [Hk Hord].
    destruct (plain_object h item Hitem) as (props & propsO & E & HO & Hne).
    cbn [Query.updateLoop].
    rewrite (assignPatch_flat patch item props propsO h Hflat E HO Hne Hk).
    set (h1 := <[item := PlainObject (VObject ObjectPrototype) (patched patch props)]> h).
    assert (h1 !! item = Some (PlainObject (VObject ObjectPrototype) (patched patch props)))
      as E1 by apply lookup_insert_eq.
    assert (h1 !! ObjectPrototype = Some (PlainObject VNull propsO)) as HO1
      by (unfold h1; now rewrite lookup_insert_ne by congruence).
    destruct (IH h1) as (h' & Hrun & Hh').
    { rewrite forallb_forall in *. intros l Hl.
      destruct (decide (l = item)) as [->|Hl'].
      - exact (plain_by_object h1 item _ propsO E1 HO1).
      - destruct (plain_object h l (Hplain l Hl)) as (propsl & propsO' & El & HO' & _).
        apply (plain_by_object h1 l propsl propsO); [|exact HO1].
        unfold h1. now rewrite lookup_insert_ne by congruence. }
    { unfold ordinary. rewrite forallb_forall in *. intros l Hl.
      rewrite forallb_forall. intros entry Hentry. apply negb_true_iff.
      destruct (decide (l = item)) as [->|Hl'].
      - apply (accessorAt_patched h h1 item props propsO patch entry.1 E HO E1 HO1).
        apply negb_true_iff. now apply Hk.
      - rewrite (accessorAt_ext h1 h l entry.1).
        + apply negb_true_iff.
          pose proof (Hord l Hl) as Hl2. rewrite forallb_forall in Hl2. now apply Hl2.
        + now apply Hplain.
        + unfold h1. now rewrite lookup_insert_ne by congruence.
        + congruence. }
    exists h'. split; [exact Hrun|]. intros l. rewrite Hh'. unfold patchedAt.
    destruct (decide (l = item)) as [->|Hl'].
    + rewrite E1, E.
      rewrite (bool_decide_eq_true_2 (item ∈ item :: items)) by apply list_elem_of_here.
      case_bool_decide; cbn; [now rewrite patched_idempotent | reflexivity].
    + unfold h1. rewrite lookup_insert_ne by congruence.
      now rewrite (elem_of_cons_other l item items Hl').
Qed.

Lemma get_patched
    (patch : Patch) (props propsO : gmap string property) (h h' : heap)
    (item : loc) (k : string) :
  h !! item = Some (PlainObject (VObject ObjectPrototype) props) ->
  h !! ObjectPrototype = Some (PlainObject VNull propsO) ->
  h' !! item = Some (PlainObject (VObject ObjectPrototype) (patched patch props)) ->
  h' !! ObjectPrototype = Some (PlainObject VNull propsO) ->
  JsValue.get h' item k =
  match patchValue patch k with
  | Some v => v
  | None => JsValue.get h item k
  end.
Proof.
  intros H HO H' HO'. unfold JsValue.get.
  rewrite (findProperty_plain h item props propsO k H HO).
  rewrite (findProperty_plain h' item _ propsO k H' HO').
  rewrite patched_lookup, H, H'. now destruct (patchValue patch k).
Qed.

(** X17: [update] with a patch of top-level keys, on a working copy of
    plain records (maps whose prototype is [Object.prototype]) on which no
    key of the patch names the accessor [__proto__], completes; afterwards
    a record of the working copy reads at every key the value of the last
    entry the patch has for the key, and what it read before at a key the
    patch does not have; no other object changes. *)
Theorem update_assigns_flat_patch
    (patch : Patch) (qb : Query.QueryBuilder) (w : World) :
  flat patch = true ->
  forallb (plain (objects w)) (Query.data qb) = true ->
  ordinary (objects w) patch (Query.data qb) = true ->
  exists w',
    Query.update patch qb w = Some w'
    /\ (forall item k,
          item ∈ Query.data qb ->
          JsValue.get (objects w') item k =
          match patchValue patch k with
          | Some v => v
          | None => JsValue.get (objects w) item k
          end)
    /\ (forall l, l ∉ Query.data qb -> objects w' !! l = objects w !! l)
    /\ arrays w' = arrays w.
Proof.
  intros Hflat Hplain Hord.
  destruct (updateLoop_flat patch (Query.data qb) (objects w) Hflat Hplain Hord)
    as (h' & Hrun & Hh').
  unfold Query.update. rewrite Hrun. eexists. split; [reflexivity|].
  assert (forall v : World,
            objects (if Query.parent qb
                     then Query.syncFromQueryBuilder (Query.originalData qb) v else v) =
            objects v) as Hobj by (intros v; now destruct (Query.parent qb)).
  rewrite Hobj. cbn [objects setObjects]. split_and!.
  - intros item k Hitem.
    rewrite forallb_forall in Hplain.
    pose proof (Hplain item (proj1 (list_elem_of_In _ _) Hitem)) as Hp.
    destruct (plain_object _ _ Hp) as (props & propsO & E & HO & Hne).
    apply (get_patched patch props propsO); [exact E | exact HO | |].
    + rewrite Hh'. unfold patchedAt. rewrite bool_decide_eq_true_2 by exact Hitem.
      now rewrite E.
    + rewrite Hh'. unfold patchedAt. case_bool_decide as Hin; [|exact HO].
      exfalso. apply list_elem_of_In in Hin.
      destruct (plain_object _ _ (Hplain _ Hin)) as (? & ? & _ & _ & Hbad).
      now apply Hbad.
  - intros l Hl. rewrite Hh'. unfold patchedAt. now rewrite bool_decide_eq_false_2.
  - now destruct (Query.parent qb).
Qed.

(** X17 at the store [[{name: "John"}]] and the patch [{name: "Jane"}]. *)
Lemma update_assigns_flat_patch_witness :
  exists w',
    Query.update [("name", VString "Jane")] (Query.new 0%nat true johnWorld) johnWorld
      = Some w'
    /\ JsValue.get (objects w') 1%nat "name" = VString "Jane".
Proof.
  assert (forallb (plain (objects johnWorld)) (Query.data (Query.new 0%nat true johnWorld))
          = true) as Hplain by (vm_compute; reflexivity).
  assert (ordinary (objects johnWorld) [("name", VString "Jane")]
            (Query.data (Query.new 0%nat true johnWorld)) = true) as Hord
    by (vm_compute; reflexivity).
  destruct (update_assigns_flat_patch [("name", VString "Jane")]
              (Query.new 0%nat true johnWorld) johnWorld eq_refl Hplain Hord)
    as (w' & Hrun & Hget & _).
  exists w'. split; [exact Hrun|].
  assert (1%nat ∈ Query.data (Query.new 0%nat true johnWorld)) as H
    by (vm_compute; apply list_elem_of_here).
  exact (Hget 1%nat "name" H).
Defined.

(** *** [updateWhere] and [where] followed by [update] *)

(** A condition on a field without a dot reads, on a plain record, the
    record and [Object.prototype] only. *)
Lemma evaluate_undotted_ext (h h0 : heap) (item : loc) (c : JsonaryCondition) :
  JsString.includes (field c) "." = false ->
  plain h0 item = true ->
  h !! item = h0 !! item ->
  h !! ObjectPrototype = h0 !! ObjectPrototype ->
  Query.evaluateCondition h item c = Query.evaluateCondition h0 item c.
Proof.
  intros E Hp Hi Ho. unfold Query.evaluateCondition, Query.getNestedValue.
  rewrite E. cbn [negb]. now rewrite (get_plain_ext h h0 item (field c) Hp Hi Ho).
Qed.

(** A patch of top-level keys changes the record it is assigned to and no
    other object. *)
Lemma assignPatch_flat_frame (patch : Patch) (item : loc) (h h' : heap) :
  flat patch = true ->
  Query.assignPatch item patch h = Some h' ->
  forall x, x <> item -> h' !! x = h !! x.
Proof.
  revert h. induction patch as [|[key v] patch IH]; intros h Hflat Hrun x Hx.
  - now injection Hrun as <-.
  - cbn [flat forallb fst] in Hflat. apply andb_true_iff in Hflat as [Hkey Hflat].
    apply negb_true_iff in Hkey. cbn [Query.assignPatch] in Hrun. rewrite Hkey in Hrun.
    destruct (JsValue.set h item key v) as [h1|] eqn:Hset; [|discriminate].
    destruct (set_frame _ _ _ _ _ Hset) as (_ & _ & Hframe).
    rewrite (IH h1 Hflat Hrun x Hx). now apply Hframe.
Qed.

(** The loop of [updateWhere] with a condition string that parses to a
    condition on a field without a dot, and a patch of top-level keys, on
    distinct plain records: the records are selected as in the state [h0]
    before the loop, and the loop does to the objects what the loop of
    [update] does on the selected records. *)
Lemma updateWhereLoop_flat
    (raw : string) (c : JsonaryCondition) (patch : Patch) (h0 : heap)
    (items : list loc) (n : nat) (w : World) :
  fst (Query.parseCondition raw w) = Some c ->
  JsString.includes (field c) "." = false ->
  flat patch = true ->
  forallb (plain h0) items = true ->
  NoDup items ->
  (forall x, x ∈ items -> objects w !! x = h0 !! x) ->
  objects w !! ObjectPrototype = h0 !! ObjectPrototype ->
  match Index.updateWhereLoop (CondString raw) patch items n w,
        Query.updateLoop
          (List.filter (fun item => Query.evaluateCondition h0 item c) items)
          patch (objects w) with
  | Some (n', w'), Some h' =>
      n' = (n + length (List.filter (fun item => Query.evaluateCondition h0 item c)
                          items))%nat
      /\ objects w' = h'
      /\ arrays w' = arrays w
      /\ storeData w' = storeData w
  | None, None => True
  | _, _ => False
  end.
Proof.
  intros Hc Hfield Hflat. revert n w Hc.
  induction items as [|item items IH]; intros n w Hc Hplain Hnodup Hsame HO.
  - cbn [Index.updateWhereLoop List.filter Query.updateLoop length].
    rewrite Nat.add_0_r. auto.
  - cbn [forallb] in Hplain. apply andb_true_iff in Hplain as [Hitem Hplain].
    apply NoDup_cons in Hnodup as [Hfresh Hnodup].
    cbn [Index.updateWhereLoop].
    destruct (parseCondition_frame raw w) as (Ho & Ha & Hd).
    pose proof (parseCondition_stable raw raw w) as Hst.
    destruct (Query.parseCondition raw w) as [parsed w1]. cbn [fst snd] in *.
    subst parsed. rewrite Ho. cbn [List.filter].
    rewrite (evaluate_undotted_ext (objects w) h0 item c Hfield Hitem
               (Hsame item (list_elem_of_here _ _)) HO).
    destruct (Query.evaluateCondition h0 item c) eqn:Ev.
    + cbn [Query.updateLoop].
      destruct (Query.assignPatch item patch (objects w)) as [h1|] eqn:Hrun; [|exact I].
      pose proof (assignPatch_flat_frame patch item _ _ Hflat Hrun) as Hframe.
      destruct (plain_object h0 item Hitem) as (_ & _ & _ & _ & Hne).
      specialize (IH (S n) (setObjects h1 w1)).
      cbn [objects arrays storeData setObjects] in IH.
      assert (fst (Query.parseCondition raw (setObjects h1 w1)) = Some c) as Hc1
        by (rewrite <- Hst; now apply parse_same_cache).
      specialize (IH Hc1 Hplain Hnodup).
      destruct (Index.updateWhereLoop (CondString raw) patch items (S n) (setObjects h1 w1))
        as [[n' w']|];
        destruct (Query.updateLoop _ patch h1) as [h'|];
        (lapply IH; [clear IH; intros IH; lapply IH; [clear IH; intros IH|] |]).
      all: try (intros x Hx; rewrite Hframe;
                [apply Hsame; now right | intros ->; now apply Hfresh]).
      all: try (rewrite Hframe; [exact HO | congruence]).
      all: try exact IH.
      destruct IH as (-> & Hobj & Ha' & Hd'). cbn [length].
      split_and!; [lia | exact Hobj | congruence | congruence].
    + specialize (IH n w1 Hst Hplain Hnodup).
      rewrite Ho in IH.
      lapply IH; [clear IH; intros IH; lapply IH; [clear IH; intros IH|exact HO]
                 | intros x Hx; apply Hsame; now right].
      destruct (Index.updateWhereLoop (CondString raw) patch items n w1) as [[n' w']|];
        destruct (Query.updateLoop _ patch (objects w)) as [h'|]; try exact IH.
      destruct IH as (-> & Hobj & Ha' & Hd').
      split_and!; [reflexivity | exact Hobj | congruence | congruence].
Qed.

(** X18: for a condition string that parses to a condition on a field
    without a dot, a patch of top-level keys and a store of distinct plain
    records, [updateWhere] does what [where] followed by [update] does.
    When no key of the patch names the accessor [__proto__] on a record,
    both complete, the count [updateWhere] returns is the count of the
    builder, and they leave the same objects and the same records in the
    store.  In any case the two complete or raise an error together, and
    when they complete they agree in the same way. *)
Theorem updateWhere_is_where_update
    (raw : string) (c : JsonaryCondition) (patch : Patch) (w : World) :
  fst (Query.parseCondition raw w) = Some c ->
  JsString.includes (field c) "." = false ->
  flat patch = true ->
  forallb (plain (objects w)) (Index.get w) = true ->
  NoDup (Index.get w) ->
  (ordinary (objects w) patch (Index.get w) = true ->
   exists n w1 w2,
     Index.updateWhere (CondString raw) patch w = Some (n, w1)
     /\ Query.update patch (fst (Index.where_ (CondString raw) w))
          (snd (Index.where_ (CondString raw) w)) = Some w2
     /\ n = Query.count (fst (Index.where_ (CondString raw) w))
     /\ objects w1 = objects w2
     /\ Index.get w1 = Index.get w
     /\ Index.get w2 = Index.get w)
  /\ match Index.updateWhere (CondString raw) patch w,
           Query.update patch (fst (Index.where_ (CondString raw) w))
             (snd (Index.where_ (CondString raw) w)) with
     | Some (n, w1), Some w2 =>
         n = Query.count (fst (Index.where_ (CondString raw) w))
         /\ objects w1 = objects w2
         /\ Index.get w1 = Index.get w
         /\ Index.get w2 = Index.get w
     | None, None => True
     | _, _ => False
     end.
Proof.
  intros Hc Hfield Hflat Hplain Hnodup.
  set (p := fun item => Query.evaluateCondition (objects w) item c).
  pose proof (updateWhereLoop_flat raw c patch (objects w) (Index.get w) 0 w
                Hc Hfield Hflat Hplain Hnodup (fun _ _ => eq_refl) eq_refl) as Hloop.
  fold p in Hloop.
  change (Index.updateWhereLoop (CondString raw) patch (Index.get w) 0 w)
    with (Index.updateWhere (CondString raw) patch w) in Hloop.
  destruct (where_step (CondString raw) (Query.new (storeData w) true w) w)
    as (Hdata & _ & Horig & Hparent & (Ho & Ha & Hd & _)).
  fold (Index.where_ (CondString raw) w) in Hdata, Horig, Hparent, Ho, Ha, Hd.
  set (qb := fst (Index.where_ (CondString raw) w)) in *.
  set (w0 := snd (Index.where_ (CondString raw) w)) in *.
  assert (Query.data qb = List.filter p (Index.get w)) as Hsel.
  { rewrite Hdata. apply filter_ext. intros item.
    apply selects_predicate. cbn [predicateOf]. now rewrite Hc. }
  assert (Query.update patch qb w0 =
          match Query.updateLoop (List.filter p (Index.get w)) patch (objects w) with
          | Some h' =>
              Some (Query.syncFromQueryBuilder (Query.originalData qb) (setObjects h' w0))
          | None => None
          end) as Hupdate.
  { unfold Query.update. rewrite Hsel, Ho, Hparent. reflexivity. }
  assert (match Index.updateWhere (CondString raw) patch w, Query.update patch qb w0 with
          | Some (n, w1), Some w2 =>
              n = Query.count qb
              /\ objects w1 = objects w2
              /\ Index.get w1 = Index.get w
              /\ Index.get w2 = Index.get w
          | None, None => True
          | _, _ => False
          end) as Hagree.
  { rewrite Hupdate.
    destruct (Index.updateWhere (CondString raw) patch w) as [[n w1]|];
      destruct (Query.updateLoop (List.filter p (Index.get w)) patch (objects w))
        as [h'|]; try exact Hloop.
    destruct Hloop as (-> & Hobj & Ha1 & Hd1). split_and!.
    - unfold Query.count. now rewrite Hsel.
    - exact Hobj.
    - unfold Index.get. rewrite Hd1. now apply arrayOf_ext.
    - unfold Index.get. rewrite Horig.
      cbn [Query.new Query.parent Query.originalData Query.syncFromQueryBuilder
           setStoreData setObjects storeData arrays].
      now apply arrayOf_ext. }
  split; [|exact Hagree].
  intros Hord.
  destruct (updateLoop_flat patch (List.filter p (Index.get w)) (objects w) Hflat)
    as (h2 & Hrun2 & _).
  { rewrite forallb_forall in *. intros x Hx%filter_In. apply Hplain. tauto. }
  { unfold ordinary in *. rewrite forallb_forall in *. intros x Hx%filter_In.
    apply Hord. tauto. }
  rewrite Hupdate, Hrun2 in Hagree. rewrite Hupdate, Hrun2.
  destruct (Index.updateWhere (CondString raw) patch w) as [[n w1]|]; [|contradiction].
  exists n, w1. eexists. split; [reflexivity|]. split; [reflexivity|]. exact Hagree.
Qed.

(** X18 at the store of the three ages, [age < 18] and the patch
    [{minor: true}]: two records are updated. *)
Lemma updateWhere_is_where_update_witness :
  exists n w1 w2,
    Index.updateWhere (CondString "age < 18") [("minor", VBoolean true)] agesWorld
      = Some (n, w1)
    /\ Query.update [("minor", VBoolean true)]
         (fst (Index.where_ (CondString "age < 18") agesWorld))
         (snd (Index.where_ (CondString "age < 18") agesWorld)) = Some w2
    /\ n = 2%nat
    /\ objects w1 = objects w2.
Proof.
  assert (NoDup (Index.get agesWorld)) as Hnodup
    by (apply (bool_decide_unpack _); vm_compute; exact I).
  assert (forallb (plain (objects agesWorld)) (Index.get agesWorld) = true) as Hplain
    by (vm_compute; reflexivity).
  assert (ordinary (objects agesWorld) [("minor", VBoolean true)] (Index.get agesWorld)
          = true) as Hord by (vm_compute; reflexivity).
  destruct (proj1 (updateWhere_is_where_update "age < 18"
                     {| field := "age"; operator := OpLt;
                        value := VNumber (JsNumber.ofZ 18) |}
                     [("minor", VBoolean true)] agesWorld
                     eq_refl eq_refl eq_refl Hplain Hnodup) Hord)
    as (n & w1 & w2 & H1 & H2 & Hn & Hobj & _).
  exists n, w1, w2. split_and!; [exact H1 | exact H2 | | exact Hobj].
  rewrite Hn. vm_compute. reflexivity.
Defined.

(** Why the keys of the patch must name no accessor for the two to
    complete: on the store of the three ages, the patch [{__proto__: r}],
    [r] being the first record, makes the prototype chain of [r] a cycle,
    which raises an error, in [updateWhere] and in [where] followed by
    [update] alike. *)
Example updateWhere_cyclic_prototype :
  flat [("__proto__", VObject 1%nat)] = true
  /\ forallb (plain (objects agesWorld)) (Index.get agesWorld) = true
  /\ ordinary (objects agesWorld) [("__proto__", VObject 1%nat)] (Index.get agesWorld)
     = false
  /\ Index.updateWhere (CondString "age < 18") [("__proto__", VObject 1%nat)] agesWorld
     = None
  /\ Query.update [("__proto__", VObject 1%nat)]
       (fst (Index.where_ (CondString "age < 18") agesWorld))
       (snd (Index.where_ (CondString "age < 18") agesWorld)) = None.
Proof. split_and!; vm_compute; reflexivity. Qed.

(** *** What [update] and [updateWhere] keep *)

Lemma descend_dom (h h1 : heap) (current : loc) (key : string) :
  descend h current key = Some h1 -> dom h ⊆ dom h1.
Proof.
  unfold descend. destruct (replaces h current key).
  - intros Hset. destruct (set_frame _ _ _ _ _ Hset) as (_ & Hdom & _).
    rewrite Hdom, dom_insert. apply union_subseteq_r.
  - now intros [= <-].
Qed.

Lemma setNestedLoop_dom (keys : list string) (current : loc) (v : val) (h h' : heap) :
  Query.setNestedLoop keys current v h = Some h' -> dom h ⊆ dom h'.
Proof.
  revert current h. induction keys as [|key keys IH]; intros current h.
  - now intros [= <-].
  - destruct keys as [|key' keys].
    + cbn [Query.setNestedLoop]. intros Hset.
      destruct (set_frame _ _ _ _ _ Hset) as (_ & Hdom & _). now rewrite Hdom.
    + rewrite setNestedLoop_step.
      destruct (descend h current key) as [h1|] eqn:Ed; [|discriminate].
      destruct (JsValue.get h1 current key); try discriminate.
      intros Hrest. transitivity (dom h1); [exact (descend_dom _ _ _ _ Ed)|].
      exact (IH _ _ Hrest).
Qed.

Lemma assignPatch_dom (item : loc) (patch : Patch) (h h' : heap) :
  Query.assignPatch item patch h = Some h' -> dom h ⊆ dom h'.
Proof.
  revert h. induction patch as [|[key v] patch IH]; intros h.
  - now intros [= <-].
  - cbn [Query.assignPatch]. destruct (JsString.includes key ".").
    + destruct (Query.setNestedValue h item key v) as [h1|] eqn:E; [|discriminate].
      intros Hrest. transitivity (dom h1); [exact (setNestedLoop_dom _ _ _ _ _ E)|].
      exact (IH _ Hrest).
    + destruct (JsValue.set h item key v) as [h1|] eqn:E; [|discriminate].
      intros Hrest. destruct (set_frame _ _ _ _ _ E) as (_ & Hdom & _).
      rewrite <- Hdom. exact (IH _ Hrest).
Qed.


Lemma updateWhereLoop_keeps
    (condition : Condition) (patch : Patch) (items : list loc) (n n' : nat)
    (w w' : World) :
  Index.updateWhereLoop condition patch items n w = Some (n', w') ->
  arrays w' = arrays w
  /\ storeData w' = storeData w
  /\ dom (objects w) ⊆ dom (objects w')
  /\ (n <= n' <= n + length items)%nat.
Proof.
  revert n w. induction items as [|item items IH]; intros n w.
  - intros [= <- <-]. split_and!; try reflexivity; cbn [length]; lia.
  - cbn [Index.updateWhereLoop].
    assert (forall (b : bool) (w1 : World),
              arrays w1 = arrays w -> storeData w1 = storeData w ->
              objects w1 = objects w ->
              (if b then
                 match Query.assignPatch item patch (objects w1) with
                 | Some h' =>
                     Index.updateWhereLoop condition patch items (S n) (setObjects h' w1)
                 | None => None
                 end
               else Index.updateWhereLoop condition patch items n w1) = Some (n', w') ->
              arrays w' = arrays w
              /\ storeData w' = storeData w
              /\ dom (objects w) ⊆ dom (objects w')
              /\ (n <= n' <= n + length (item :: items))%nat) as Hrest.
    { intros [|] w1 Ha Hd Ho.
      - destruct (Query.assignPatch item patch (objects w1)) as [h'|] eqn:E;
          [|discriminate].
        intros Hrun. destruct (IH _ _ Hrun) as (Ha' & Hd' & Hdom & Hn).
        cbn [arrays storeData objects setObjects] in *.
        split_and!; [congruence | congruence | | cbn [length]; lia | cbn [length]; lia].
        transitivity (dom h'); [|exact Hdom].
        rewrite <- Ho. exact (assignPatch_dom _ _ _ _ E).
      - intros Hrun. destruct (IH _ _ Hrun) as (Ha' & Hd' & Hdom & Hn).
        split_and!; [congruence | congruence | now rewrite <- Ho
                    | cbn [length]; lia | cbn [length]; lia]. }
    destruct condition as [raw | f];
      [|exact (Hrest (f (objects w) item) w eq_refl eq_refl eq_refl)].
    destruct (parseCondition_frame raw w) as (Ho & Ha & Hd).
    destruct (Query.parseCondition raw w) as [[c|] w1]; cbn [fst snd] in *.
    + exact (Hrest (Query.evaluateCondition (objects w1) item c) w1 Ha Hd Ho).
    + exact (Hrest false w1 Ha Hd Ho).
Qed.


(** X20: [updateWhere], with any condition and patch, leaves the store
    with the same records in the same order and removes no object; the count
    it returns is at most the number of records. *)
Theorem updateWhere_keeps_every_record
    (condition : Condition) (patch : Patch) (n : nat) (w w' : World) :
  Index.updateWhere condition patch w = Some (n, w') ->
  Index.get w' = Index.get w
  /\ (n <= length (Index.get w))%nat
  /\ dom (objects w) ⊆ dom (objects w').
Proof.
  unfold Index.updateWhere. intros Hrun.
  destruct (updateWhereLoop_keeps _ _ _ _ _ _ _ Hrun) as (Ha & Hd & Hdom & Hn).
  split_and!; [|unfold Index.get; lia | exact Hdom].
  unfold Index.get. rewrite Hd. now apply arrayOf_ext.
Qed.


(** X20 at the store of the three ages, [age < 18] and the patch
    [{minor: true}]. *)
Lemma updateWhere_keeps_every_record_witness :
  exists n w',
    Index.updateWhere (CondString "age < 18") [("minor", VBoolean true)] agesWorld
      = Some (n, w')
    /\ Index.get w' = [1; 2; 3]%nat.
Proof.
  eexists. eexists. split; [reflexivity|].
  exact (proj1 (updateWhere_keeps_every_record (CondString "age < 18")
                  [("minor", VBoolean true)] _ agesWorld _ eq_refl)).
Defined.

(** *** The earlier revision of [update] *)

Lemma objectAssign_flat (item : loc) (patch : Patch) (h : heap) :
  flat patch = true -> Legacy.objectAssign item patch h = Query.assignPatch item patch h.
Proof.
  revert h. induction patch as [|[key v] patch IH]; intros h Hflat; [reflexivity|].
  cbn [flat forallb fst] in Hflat. apply andb_true_iff in Hflat as [Hkey Hflat].
  apply negb_true_iff in Hkey.
  cbn [Legacy.objectAssign Query.assignPatch]. rewrite Hkey.
  destruct (JsValue.set h item key v); [now apply IH | reflexivity].
Qed.

Lemma legacy_updateLoop_flat (items : list loc) (patch : Patch) (h : heap) :
  flat patch = true -> Legacy.updateLoop items patch h = Query.updateLoop items patch h.
Proof.
  intros Hflat. revert h. induction items as [|item items IH]; intros h; [reflexivity|].
  cbn [Legacy.updateLoop Query.updateLoop]. rewrite (objectAssign_flat _ _ _ Hflat).
  destruct (Query.assignPatch item patch h); [apply IH | reflexivity].
Qed.

(** X21: on a patch of which no key holds a dot, [update] does what the
    earlier revision of [update], which assigns with [Object.assign], does:
    the two differ on keys with a dot only. *)
Theorem update_agrees_with_earlier_revision
    (patch : Patch) (qb : Query.QueryBuilder) (w : World) :
  flat patch = true -> Query.update patch qb w = Legacy.update patch qb w.
Proof.
  intros Hflat. unfold Query.update, Legacy.update.
  now rewrite (legacy_updateLoop_flat _ _ _ Hflat).
Qed.

(** X21 at the store [[{name: "John"}]] and the patch [{name: "Jane"}]. *)
Lemma update_agrees_with_earlier_revision_witness :
  Query.update [("name", VString "Jane")] (Query.new 0%nat true johnWorld) johnWorld =
  Legacy.update [("name", VString "Jane")] (Query.new 0%nat true johnWorld) johnWorld.
Proof.
  exact (update_agrees_with_earlier_revision [("name", VString "Jane")]
           (Query.new 0%nat true johnWorld) johnWorld eq_refl).
Defined.

(** *** The cache in the states a program reaches *)

Lemma step_keeps_cache (w w' : World) : step w w' -> cacheSound w -> cacheSound w'.
Proof.
  intros Hstep Hw. destruct Hstep.
  - revert Hw. now apply cacheSound_same.
  - revert Hw. now apply cacheSound_same.
  - revert Hw. now apply cacheSound_same.
  - now apply deleteWhere_keeps_cache.
  - unfold Index.updateWhere in *. eapply updateWhereLoop_keeps_cache; eauto.
  - now apply where_keeps_cache.
  - now apply delete_keeps_cache.
  - eapply update_keeps_cache; eauto.
Qed.

Lemma reachable_sound (w : World) : reachable w -> cacheSound w.
Proof.
  induction 1 as [w Hempty | w w' _ IH Hstep].
  - intros s r. rewrite Hempty, lookup_empty. discriminate.
  - exact (step_keeps_cache _ _ Hstep IH).
Qed.

(** X22: in every state a program reaches from an empty cache by calls
    of [clear], [insert], [insertMany], [deleteWhere], [updateWhere],
    [where], [delete] and [update], the cache holds for a string what the
    loop over the operators computes for it: [parseCondition] returns for
    every string what it returns with an empty cache. *)
Theorem reachable_cache_is_sound (w : World) (raw : string) :
  reachable w ->
  cacheSound w
  /\ fst (Query.parseCondition raw w) = Query.parseLoop getOperatorsSorted raw.
Proof.
  intros Hw%reachable_sound. split; [exact Hw|].
  now destruct (parseCondition_sound raw w Hw).
Qed.

(** X22 after [deleteWhere] with [age < 18] on the store of the ages. *)
Lemma reachable_cache_is_sound_witness :
  fst (Query.parseCondition "age < 18"
         (snd (Index.deleteWhere (CondString "age < 18") agesWorld))) =
  Query.parseLoop getOperatorsSorted "age < 18".
Proof.
  apply reachable_cache_is_sound.
  apply (reachable_step agesWorld); [now apply reachable_start | apply step_deleteWhere].
Defined.

(** *** How the operators relate *)

Lemma SFcompare_antisym (x y : spec_float) :
  SFcompare y x = option_map CompOpp (SFcompare x y).
Proof.
  destruct x as [sx | sx | | sx mx ex], y as [sy | sy | | sy my ey];
    try reflexivity; try (destruct sx; reflexivity); try (destruct sy; reflexivity);
    try (destruct sx, sy; reflexivity).
  cbn [SFcompare option_map]. f_equal.
  change (Pos.compare_cont Eq my mx) with (Pos.compare my mx).
  change (Pos.compare_cont Eq mx my) with (Pos.compare mx my).
  rewrite (Z.compare_antisym ex ey), (Pos.compare_antisym mx my).
  destruct sx, sy; try reflexivity;
    destruct (ex ?= ey)%Z; try reflexivity;
    destruct (mx ?= my)%positive; reflexivity.
Qed.

Lemma equals_sym (x y : spec_float) : JsNumber.equals x y = JsNumber.equals y x.
Proof.
  unfold JsNumber.equals, SFeqb. rewrite (SFcompare_antisym x y).
  now destruct (SFcompare x y) as [[]|].
Qed.

Lemma greaterOrEqual_split (x y : spec_float) :
  JsNumber.greaterOrEqual x y = JsNumber.greaterThan x y || JsNumber.equals x y.
Proof.
  rewrite equals_sym.
  unfold JsNumber.greaterOrEqual, JsNumber.greaterThan, JsNumber.equals, SFleb, SFltb, SFeqb.
  now destruct (SFcompare y x) as [[]|].
Qed.

Lemma lessOrEqual_split (x y : spec_float) :
  JsNumber.lessOrEqual x y = JsNumber.lessThan x y || JsNumber.equals x y.
Proof.
  unfold JsNumber.lessOrEqual, JsNumber.lessThan, JsNumber.equals, SFleb, SFltb, SFeqb.
  now destruct (SFcompare x y) as [[]|].
Qed.

Lemma number_trichotomy (x y : spec_float) :
  JsNumber.lessThan x y && JsNumber.greaterThan x y = false
  /\ JsNumber.lessThan x y && JsNumber.equals x y = false
  /\ JsNumber.greaterThan x y && JsNumber.equals x y = false
  /\ (JsNumber.isNaN x = false -> JsNumber.isNaN y = false ->
      JsNumber.lessThan x y || JsNumber.equals x y || JsNumber.greaterThan x y = true).
Proof.
  unfold JsNumber.lessThan, JsNumber.greaterThan, JsNumber.equals, SFltb, SFeqb.
  rewrite (SFcompare_antisym x y).
  split_and!; try (now destruct (SFcompare x y) as [[]|]).
  intros Hx Hy. destruct x, y; try discriminate;
    now destruct (SFcompare _ _) as [[]|] eqn:E.
Qed.

(** X23: how the ordering operators relate on one record, field and
    value: [>=] holds exactly when [>] holds or the two are equal numbers,
    [<=] exactly when [<] holds or the two are equal numbers; no two of [<],
    [>] and [=] on numbers hold together; and when the field holds a number
    that is not NaN and the value is a number that is not NaN, one of the
    three holds. *)
Theorem ordering_operators_relate (h : heap) (item : loc) (f : string) (v : val) :
  let fieldValue := Query.getNestedValue h item f in
  let holds op :=
    Query.evaluateCondition h item {| field := f; operator := op; value := v |} in
  let numbers :=
    String.eqb (typeof fieldValue) "number" && String.eqb (typeof v) "number" in
  holds OpGte = holds OpGt || numbers && holds OpEq
  /\ holds OpLte = holds OpLt || numbers && holds OpEq
  /\ holds OpLt && holds OpGt = false
  /\ holds OpLt && (numbers && holds OpEq) = false
  /\ holds OpGt && (numbers && holds OpEq) = false
  /\ (forall x y,
        fieldValue = VNumber x -> v = VNumber y ->
        JsNumber.isNaN x = false -> JsNumber.isNaN y = false ->
        holds OpLt || holds OpEq || holds OpGt = true).
Proof.
  cbv zeta. unfold Query.evaluateCondition. cbn [field operator value].
  destruct (Query.getNestedValue h item f) as [| | b | x | s | l | l];
    destruct v as [| | b' | y | s' | l' | l'];
    cbn [typeof strictEquals Query.asNumber String.eqb Ascii.eqb Bool.eqb andb orb];
    split_and!; try reflexivity; try (intros; discriminate).
  - apply greaterOrEqual_split.
  - apply lessOrEqual_split.
  - apply number_trichotomy.
  - apply number_trichotomy.
  - apply number_trichotomy.
  - intros x' y' [= <-] [= <-]. apply number_trichotomy.
Qed.

Lemma includes_prefix (s t : string) :
  JsString.startsWith s t = true -> JsString.includes s t = true.
Proof.
  intros [post ->]%startsWith_spec. apply includes_spec.
  exists 0%nat, "", post. split; reflexivity.
Qed.

Lemma includes_suffix (s t : string) :
  JsString.endsWith s t = true -> JsString.includes s t = true.
Proof.
  intros [pre ->]%endsWith_spec. apply includes_spec.
  exists (String.length pre), pre, "". split; [|reflexivity].
  now rewrite append_empty_r.
Qed.

Lemma startsWith_refl (s : string) : JsString.startsWith s s = true.
Proof. apply startsWith_spec. exists "". now rewrite append_empty_r. Qed.

Lemma endsWith_refl (s : string) : JsString.endsWith s s = true.
Proof. apply endsWith_spec. now exists "". Qed.

(** X24: how the string operators relate on one record, field and value:
    a record that [startsWith] or [endsWith] selects is one [contains]
    selects, and a record whose field equals a string value is selected by
    all three. *)
Theorem string_operators_relate (h : heap) (item : loc) (f : string) (v : val) :
  let holds op :=
    Query.evaluateCondition h item {| field := f; operator := op; value := v |} in
  let text := String.eqb (typeof v) "string" in
  implb (holds OpStartsWith) (holds OpContains) = true
  /\ implb (holds OpEndsWith) (holds OpContains) = true
  /\ implb (text && holds OpEq)
       (holds OpStartsWith && holds OpEndsWith && holds OpContains) = true.
Proof.
  cbv zeta. unfold Query.evaluateCondition. cbn [field operator value].
  destruct (Query.getNestedValue h item f) as [| | b | x | s | l | l];
    destruct v as [| | b' | y | t | l' | l'];
    cbn [typeof strictEquals Query.asString String.eqb Ascii.eqb Bool.eqb andb orb implb];
    split_and!; try reflexivity.
  - destruct (JsString.startsWith s t) eqn:E; [|reflexivity].
    now rewrite (includes_prefix _ _ E).
  - destruct (JsString.endsWith s t) eqn:E; [|reflexivity].
    now rewrite (includes_suffix _ _ E).
  - destruct (String.eqb s t) eqn:E; [|reflexivity].
    apply String.eqb_eq in E. subst t.
    now rewrite startsWith_refl, endsWith_refl, (includes_prefix _ _ (startsWith_refl s)).
Qed.

(** *** White space in a condition string *)

Lemma solid_symbol (op : QueryOperator) : solid (symbol op) = true.
Proof. now destruct op. Qed.

Lemma solid_cons (p : string) :
  solid p = true ->
  exists c p', p = String c p' /\ isWhiteSpace c = false /\ spaceless p' = true.
Proof.
  destruct p as [|c p']; [discriminate|]. unfold solid. cbn [String.eqb negb andb spaceless].
  intros [Hc Hp]%andb_true_iff. apply negb_true_iff in Hc. eauto.
Qed.

Lemma blank_cons (ws : string) :
  blank ws = true -> ws <> "" ->
  exists d ws', ws = String d ws' /\ isWhiteSpace d = true /\ blank ws' = true.
Proof.
  destruct ws as [|d ws']; [congruence|]. cbn [blank].
  intros [Hd Hws]%andb_true_iff _. eauto.
Qed.

Lemma eqb_space (c d : ascii) :
  isWhiteSpace c = false -> isWhiteSpace d = true -> Ascii.eqb c d = false.
Proof. intros Hc Hd. apply Ascii.eqb_neq. congruence. Qed.

Lemma firstOccurrence_nil (p : string) : p <> "" -> firstOccurrence "" p = None.
Proof. now destruct p. Qed.

(** Where white space stands, a string without white space does not
    start, whatever stands before the white space. *)
Lemma startsWith_mid (x ws y p : string) :
  blank ws = true -> ws <> "" -> spaceless p = true ->
  startsWith (x ++ ws ++ y) p = startsWith x p.
Proof.
  intros Hws Hne. revert x. induction p as [|c p IH]; intros x Hp; [reflexivity|].
  cbn [spaceless] in Hp. apply andb_true_iff in Hp as [Hc Hp].
  apply negb_true_iff in Hc.
  destruct x as [|d x]; unfold_append.
  - destruct (blank_cons ws Hws Hne) as (d & ws' & -> & Hd & _). unfold_append.
    cbn [startsWith]. now rewrite (eqb_space c d Hc Hd).
  - cbn [startsWith]. now rewrite IH.
Qed.

Lemma fmap_succ_add (n : nat) (o : option nat) :
  S <$> ((fun i => n + i)%nat <$> o) = (fun i => S n + i)%nat <$> o.
Proof. now destruct o. Qed.

Lemma firstOccurrence_head (ws y p : string) :
  blank ws = true -> solid p = true ->
  firstOccurrence (ws ++ y) p = (fun i => String.length ws + i)%nat <$> firstOccurrence y p.
Proof.
  intros Hws Hp. destruct (solid_cons p Hp) as (c & p' & -> & Hc & _).
  induction ws as [|d ws IH]; unfold_append.
  - now destruct (firstOccurrence y (String c p')).
  - cbn [blank] in Hws. apply andb_true_iff in Hws as [Hd Hws].
    rewrite firstOccurrence_unfold. cbn [startsWith].
    rewrite (eqb_space c d Hc Hd). cbn [andb].
    rewrite (IH Hws). apply fmap_succ_add.
Qed.

Lemma firstOccurrence_mid (x ws y p : string) :
  blank ws = true -> ws <> "" -> solid p = true ->
  firstOccurrence (x ++ ws ++ y) p =
  match firstOccurrence x p with
  | Some i => Some i
  | None => (fun i => String.length x + String.length ws + i)%nat <$> firstOccurrence y p
  end.
Proof.
  intros Hws Hne Hp.
  assert (spaceless p = true /\ p <> "") as [Hsp Hpne].
  { destruct (solid_cons p Hp) as (c & p' & -> & Hc & Hp'). split; [|discriminate].
    cbn [spaceless]. now rewrite Hc, Hp'. }
  induction x as [|c x IH].
  - rewrite (firstOccurrence_nil p Hpne). unfold_append.
    now apply firstOccurrence_head.
  - rewrite (firstOccurrence_unfold (String c x ++ ws ++ y)), (firstOccurrence_unfold (String c x)).
    rewrite (startsWith_mid (String c x) ws y p Hws Hne Hsp).
    destruct (startsWith (String c x) p); [reflexivity|].
    unfold_append. rewrite IH.
    destruct (firstOccurrence x p); [reflexivity|].
    cbn [fmap option_fmap option_map]. apply fmap_succ_add.
Qed.

Lemma firstOccurrence_none (s p : string) : firstOccurrence s p = None <-> ~ occurs p s.
Proof.
  split; [apply firstOccurrence_missing|].
  intros H. destruct (firstOccurrence s p) as [i|] eqn:E; [|reflexivity].
  exfalso. apply H. exists i. now apply firstOccurrence_found.
Qed.

Lemma firstOccurrence_leftmost (s p : string) (i : nat) :
  occursAt p s i -> (forall j, occursAt p s j -> (i <= j)%nat) ->
  firstOccurrence s p = Some i.
Proof.
  intros Hocc Hleast. destruct (firstOccurrence s p) as [k|] eqn:E.
  - destruct (firstOccurrence_found _ _ _ E) as [Hk Hkleast].
    f_equal. pose proof (Hleast k Hk). pose proof (Hkleast i Hocc). lia.
  - exfalso. apply (firstOccurrence_missing _ _ E). now exists i.
Qed.

Lemma occursAt_app_l (p x y : string) (i : nat) :
  occursAt p x i -> occursAt p (x ++ y) i.
Proof.
  intros (a & b & -> & Hlen). exists a, (b ++ y). split; [|exact Hlen].
  now rewrite !append_assoc.
Qed.

Lemma occursAt_app_r (p x y : string) (i : nat) :
  occursAt p y i -> occursAt p (x ++ y) (String.length x + i).
Proof.
  intros (a & b & -> & Hlen). exists (x ++ a), b.
  split; [now rewrite append_assoc | rewrite length_append; lia].
Qed.

Lemma occursAt_bound (p s : string) (i : nat) :
  occursAt p s i -> (i + String.length p <= String.length s)%nat.
Proof. intros (a & b & -> & <-). rewrite !length_append. lia. Qed.

(** A string that starts two ways: the shorter start starts the longer. *)
Lemma append_prefix (u v x y : string) :
  u ++ v = x ++ y -> (String.length u <= String.length x)%nat ->
  exists t, x = u ++ t /\ v = t ++ y.
Proof.
  revert x. induction u as [|c u IH]; intros x H Hle; unfold_append.
  - now exists x.
  - destruct x as [|d x]; unfold_append; [lia|].
    injection H as -> H. destruct (IH x H) as (t & -> & ->); [lia|].
    now exists t.
Qed.

Lemma append_same_length (u v x y : string) :
  u ++ v = x ++ y -> String.length u = String.length x -> u = x /\ v = y.
Proof.
  intros H Hlen. destruct (append_prefix u v x y H) as (t & Hx & Hv); [lia|].
  assert (t = "") as ->.
  { rewrite Hx, length_append in Hlen. destruct t; [reflexivity | simpl in Hlen; lia]. }
  rewrite append_empty_r in Hx. now subst.
Qed.

Lemma firstOccurrence_after (x y p : string) (i : nat) :
  firstOccurrence (x ++ y) p = Some i -> (String.length x <= i)%nat ->
  firstOccurrence y p = Some (i - String.length x).
Proof.
  revert i. induction x as [|c x IH]; intros i; unfold_append.
  - intros H _. now rewrite Nat.sub_0_r.
  - rewrite firstOccurrence_unfold. destruct (startsWith _ p).
    + intros [= <-] Hle. lia.
    + destruct (firstOccurrence (x ++ y) p) as [k|] eqn:E; [|discriminate].
      intros [= <-] Hle. cbn [Nat.sub]. apply IH; [reflexivity | lia].
Qed.

Lemma firstOccurrence_within (x y p : string) (i : nat) :
  firstOccurrence (x ++ y) p = Some i ->
  (i + String.length p <= String.length x)%nat ->
  firstOccurrence x p = Some i.
Proof.
  intros [Hocc Hleast]%firstOccurrence_found Hle.
  apply firstOccurrence_leftmost.
  - destruct Hocc as (a & b & H & Hlen).
    rewrite <- append_assoc in H. symmetry in H.
    destruct (append_prefix (a ++ p) b x y H) as (t & -> & _).
    { rewrite length_append. lia. }
    exists a, t. split; [now rewrite append_assoc | exact Hlen].
  - intros j Hj. apply Hleast. now apply occursAt_app_l.
Qed.

(** White space put into a string, and the first occurrence of a string
    without white space: none when there was none; moved by the length of
    the white space when it stood after the place; the same when it stood
    before. *)
Lemma insert_blank_none (x ws y p : string) :
  blank ws = true -> solid p = true ->
  firstOccurrence (x ++ y) p = None -> firstOccurrence (x ++ ws ++ y) p = None.
Proof.
  intros Hws Hp Hnone. destruct (string_dec ws "") as [->|Hne]; [exact Hnone|].
  rewrite (firstOccurrence_mid x ws y p Hws Hne Hp).
  apply firstOccurrence_none in Hnone.
  assert (firstOccurrence x p = None) as ->.
  { apply firstOccurrence_none. intros [i Hi]. apply Hnone. exists i.
    now apply occursAt_app_l. }
  assert (firstOccurrence y p = None) as ->.
  { apply firstOccurrence_none. intros [i Hi]. apply Hnone. eexists.
    apply occursAt_app_r. exact Hi. }
  reflexivity.
Qed.

Lemma insert_blank_before (x ws y p : string) (i : nat) :
  blank ws = true -> solid p = true ->
  firstOccurrence (x ++ y) p = Some i -> (String.length x <= i)%nat ->
  firstOccurrence (x ++ ws ++ y) p = Some (i + String.length ws).
Proof.
  intros Hws Hp Hsome Hle. destruct (string_dec ws "") as [->|Hne].
  - cbn [String.length]. rewrite Nat.add_0_r. exact Hsome.
  - rewrite (firstOccurrence_mid x ws y p Hws Hne Hp).
    assert (firstOccurrence x p = None) as ->.
    { destruct (firstOccurrence x p) as [k|] eqn:E; [|reflexivity]. exfalso.
      destruct (firstOccurrence_found _ _ _ E) as [Hk _].
      destruct (firstOccurrence_found _ _ _ Hsome) as [_ Hleast].
      pose proof (Hleast k (occursAt_app_l _ _ y _ Hk)).
      pose proof (occursAt_bound _ _ _ Hk) as Hb.
      destruct (solid_cons p Hp) as (c & p' & -> & _).
      cbn [String.length] in Hb. lia. }
    rewrite (firstOccurrence_after x y p i Hsome Hle).
    cbn [fmap option_fmap option_map]. f_equal. lia.
Qed.

Lemma insert_blank_after (x ws y p : string) (i : nat) :
  blank ws = true -> solid p = true ->
  firstOccurrence (x ++ y) p = Some i ->
  (i + String.length p <= String.length x)%nat ->
  firstOccurrence (x ++ ws ++ y) p = Some i.
Proof.
  intros Hws Hp Hsome Hle. destruct (string_dec ws "") as [->|Hne]; [exact Hsome|].
  rewrite (firstOccurrence_mid x ws y p Hws Hne Hp).
  now rewrite (firstOccurrence_within x y p i Hsome Hle).
Qed.

Lemma padded_none (pre sym post ws1 ws2 ws3 ws4 q : string) :
  blank ws1 = true -> blank ws2 = true -> blank ws3 = true -> blank ws4 = true ->
  solid q = true ->
  firstOccurrence (pre ++ sym ++ post) q = None ->
  firstOccurrence (ws1 ++ pre ++ ws2 ++ sym ++ ws3 ++ post ++ ws4) q = None.
Proof.
  intros H1 H2 H3 H4 Hq Hnone.
  assert (firstOccurrence (pre ++ sym ++ post ++ ws4) q = None) as S1.
  { pose proof (insert_blank_none (pre ++ sym ++ post) ws4 "" q H4 Hq) as H.
    rewrite !append_empty_r, !append_assoc in H. now apply H. }
  assert (firstOccurrence (pre ++ sym ++ ws3 ++ post ++ ws4) q = None) as S2.
  { pose proof (insert_blank_none (pre ++ sym) ws3 (post ++ ws4) q H3 Hq) as H.
    rewrite !append_assoc in H. now apply H. }
  assert (firstOccurrence (pre ++ ws2 ++ sym ++ ws3 ++ post ++ ws4) q = None) as S3
    by now apply insert_blank_none.
  exact (insert_blank_none "" ws1 _ q H1 Hq S3).
Qed.

Lemma padded_some (pre sym post ws1 ws2 ws3 ws4 : string) :
  blank ws1 = true -> blank ws2 = true -> blank ws3 = true -> blank ws4 = true ->
  solid sym = true ->
  firstOccurrence (pre ++ sym ++ post) sym = Some (String.length pre) ->
  firstOccurrence (ws1 ++ pre ++ ws2 ++ sym ++ ws3 ++ post ++ ws4) sym =
    Some (String.length (ws1 ++ pre ++ ws2)).
Proof.
  intros H1 H2 H3 H4 Hq Hsome.
  assert (firstOccurrence (pre ++ sym ++ post ++ ws4) sym = Some (String.length pre)) as S1.
  { pose proof (insert_blank_after (pre ++ sym ++ post) ws4 "" sym (String.length pre)
                  H4 Hq) as H.
    rewrite !append_empty_r, !append_assoc in H. apply H; [exact Hsome|].
    rewrite !length_append. lia. }
  assert (firstOccurrence (pre ++ sym ++ ws3 ++ post ++ ws4) sym =
          Some (String.length pre)) as S2.
  { pose proof (insert_blank_after (pre ++ sym) ws3 (post ++ ws4) sym (String.length pre)
                  H3 Hq) as H.
    rewrite !append_assoc in H. apply H; [exact S1|].
    rewrite !length_append. lia. }
  assert (firstOccurrence (pre ++ ws2 ++ sym ++ ws3 ++ post ++ ws4) sym =
          Some (String.length pre + String.length ws2)%nat) as S3
    by (apply insert_blank_before; auto).
  assert (firstOccurrence (ws1 ++ pre ++ ws2 ++ sym ++ ws3 ++ post ++ ws4) sym =
          Some (String.length pre + String.length ws2 + String.length ws1)%nat) as S4.
  { apply (insert_blank_before "" ws1 _ sym _ H1 Hq S3). cbn [String.length]. lia. }
  rewrite S4. f_equal. rewrite !length_append. lia.
Qed.

Lemma trimStart_blank (ws : string) : blank ws = true -> trimStart ws = "".
Proof.
  induction ws as [|c ws IH]; [reflexivity|]. cbn [blank trimStart].
  intros [-> Hws]%andb_true_iff. now apply IH.
Qed.

Lemma trimStart_head (ws s : string) :
  blank ws = true -> trimStart (ws ++ s) = trimStart s.
Proof.
  induction ws as [|c ws IH]; [reflexivity|]. unfold_append. cbn [blank trimStart].
  intros [-> Hws]%andb_true_iff. now apply IH.
Qed.

Lemma trimEnd_blank (ws : string) : blank ws = true -> trimEnd ws = "".
Proof.
  induction ws as [|c ws IH]; [reflexivity|]. cbn [blank trimEnd].
  intros [-> Hws]%andb_true_iff. now rewrite IH.
Qed.

Lemma trimEnd_tail (s ws : string) :
  blank ws = true -> trimEnd (s ++ ws) = trimEnd s.
Proof.
  intros Hws. induction s as [|c s IH]; unfold_append.
  - now apply trimEnd_blank.
  - cbn [trimEnd]. now rewrite IH.
Qed.

Lemma trimStart_tail (s ws : string) :
  blank ws = true ->
  exists ws', blank ws' = true /\ trimStart (s ++ ws) = trimStart s ++ ws'.
Proof.
  intros Hws. induction s as [|c s IH]; unfold_append.
  - exists "". split; [reflexivity|]. now apply trimStart_blank.
  - cbn [trimStart]. destruct (isWhiteSpace c); [exact IH|].
    exists ws. split; [exact Hws | reflexivity].
Qed.

Lemma trim_padded (ws s ws' : string) :
  blank ws = true -> blank ws' = true -> trim (ws ++ s ++ ws') = trim s.
Proof.
  intros Hws Hws'. unfold trim. rewrite (trimStart_head _ _ Hws).
  destruct (trimStart_tail s ws' Hws') as (t & Ht & ->).
  now apply trimEnd_tail.
Qed.

(** X25: white space at the two ends of a condition string and on either
    side of the symbol found does not change what the string parses to:
    [age>=18], [age >= 18] and [  age  >=  18  ] parse to the same
    condition. *)
Theorem parse_ignores_white_space
    (w : World) (raw pre post ws1 ws2 ws3 ws4 : string) (c : JsonaryCondition) :
  cacheSound w ->
  fst (Query.parseCondition raw w) = Some c ->
  raw = pre ++ symbol (operator c) ++ post ->
  (forall j, occursAt (symbol (operator c)) raw j -> (String.length pre <= j)%nat) ->
  blank ws1 = true -> blank ws2 = true -> blank ws3 = true -> blank ws4 = true ->
  fst (Query.parseCondition
         (ws1 ++ pre ++ ws2 ++ symbol (operator c) ++ ws3 ++ post ++ ws4) w) = Some c.
Proof.
  intros Hw Hparse Hraw Hleast B1 B2 B3 B4.
  destruct (parseCondition_sound raw w Hw) as [Hp _]. rewrite Hp in Hparse.
  destruct (parseCondition_sound
              (ws1 ++ pre ++ ws2 ++ symbol (operator c) ++ ws3 ++ post ++ ws4) w Hw)
    as [-> _].
  destruct (parseLoop_some _ _ _ Hparse)
    as (before & after & pre0 & post0 & Hops & Hbefore & Hraw0 & Hleast0 & Hc).
  set (sym := symbol (operator c)) in *.
  assert (pre0 = pre /\ post0 = post) as [-> ->].
  { assert (String.length pre0 = String.length pre) as Hlen.
    { assert (String.length pre <= String.length pre0)%nat
        by (apply Hleast; rewrite Hraw0; now exists pre0, post0).
      assert (String.length pre0 <= String.length pre)%nat
        by (apply Hleast0; rewrite Hraw; now exists pre, post).
      lia. }
    rewrite Hraw in Hraw0. symmetry in Hraw0.
    destruct (append_same_length _ _ _ _ Hraw0 Hlen) as [Hpre Hrest].
    split; [exact Hpre|].
    apply (append_same_length sym post0 sym post Hrest eq_refl). }
  assert (firstOccurrence (pre ++ sym ++ post) sym = Some (String.length pre)) as Hfirst.
  { rewrite <- Hraw. apply firstOccurrence_leftmost; [|exact Hleast].
    rewrite Hraw. now exists pre, post. }
  rewrite Hops. rewrite parseLoop_skip.
  2:{ intros o Ho. apply firstOccurrence_none.
      apply padded_none; auto using solid_symbol.
      apply firstOccurrence_none. rewrite <- Hraw. now apply Hbefore. }
  cbn [Query.parseLoop]. cbv zeta. fold sym. unfold indexOf.
  rewrite (padded_some pre sym post ws1 ws2 ws3 ws4 B1 B2 B3 B4 (solid_symbol _) Hfirst).
  replace (negb (Z.of_nat (String.length (ws1 ++ pre ++ ws2)) =? -1)%Z) with true
    by (symmetry; apply negb_true_iff, Z.eqb_neq; lia).
  replace (ws1 ++ pre ++ ws2 ++ sym ++ ws3 ++ post ++ ws4)
    with ((ws1 ++ pre ++ ws2) ++ sym ++ (ws3 ++ post ++ ws4))
    by (now rewrite !append_assoc).
  rewrite substring_before, substringFrom_after.
  rewrite (trim_padded ws1 pre ws2 B1 B2), (trim_padded ws3 post ws4 B3 B4).
  f_equal. symmetry. exact Hc.
Qed.

(** X25 at [age>=18] and one space on either side of [>=]. *)
Lemma parse_ignores_white_space_witness :
  fst (Query.parseCondition "age >= 18" emptyWorld) =
  Some {| field := "age"; operator := OpGte; value := VNumber (JsNumber.ofZ 18) |}.
Proof.
  exact (parse_ignores_white_space emptyWorld "age>=18" "age" "18" "" " " " " ""
           {| field := "age"; operator := OpGte; value := VNumber (JsNumber.ofZ 18) |}
           (cacheSound_empty _ _ _) eq_refl eq_refl
           (proj2 (firstOccurrence_found "age>=18" ">=" 3 eq_refl))
           eq_refl eq_refl eq_refl eq_refl).
Defined.

(** *** A new array for the store, and the builders made before *)

Lemma arrayOf_assignStoreData (l : list loc) (w : World) (a : arrayRef) :
  a ∈ dom (arrays w) -> arrayOf (assignStoreData l w) a = arrayOf w a.
Proof.
  intros Hdom. unfold assignStoreData.
  change (arrayOf (setStoreData ?b ?v) a) with (arrayOf v a).
  apply arrayOf_setArray_ne. intros E. rewrite <- E in Hdom. exact (is_fresh _ Hdom).
Qed.

(** [clear] and [deleteWhere] leave the array the store had as it was. *)
Lemma old_array_kept (condition : Condition) (w w1 : World) :
  storeData w ∈ dom (arrays w) ->
  w1 = Index.clear w \/ w1 = snd (Index.deleteWhere condition w) ->
  arrayOf w1 (storeData w) = Index.get w.
Proof.
  intros Hdom [-> | ->].
  - now apply arrayOf_assignStoreData.
  - unfold Index.deleteWhere, Index.get. cbn [snd].
    destruct condition as [raw | f]; [|now apply arrayOf_assignStoreData].
    destruct (parseCondition_frame raw w) as (_ & Ha & _).
    destruct (Query.parseCondition raw w) as [[c|] w0]; cbn [snd] in Ha.
    + rewrite arrayOf_assignStoreData by now rewrite Ha.
      now apply arrayOf_ext.
    + now apply arrayOf_ext.
Qed.

(** X26: [clear] gives the store a new, empty array, and [deleteWhere] a
    new array without the records removed; the array the store had stays as
    it was.  So a builder with a parent that was made over the store before
    the call brings the old array back: after its [update] the store shows
    the records it had before the call, and after its [delete] those records
    less the working copy. *)
Theorem earlier_builder_restores_store
    (condition : Condition) (patch : Patch) (qb : Query.QueryBuilder) (w w1 : World) :
  storeData w ∈ dom (arrays w) ->
  Query.originalData qb = storeData w ->
  Query.parent qb = true ->
  w1 = Index.clear w \/ w1 = snd (Index.deleteWhere condition w) ->
  Index.get (Index.clear w) = []
  /\ Index.get (snd (Query.delete qb w1)) =
     List.filter (kept (Query.data qb)) (Index.get w)
  /\ (forall w', Query.update patch qb w1 = Some w' -> Index.get w' = Index.get w).
Proof.
  intros Hdom Horig Hparent Hw1.
  pose proof (old_array_kept condition w w1 Hdom Hw1) as Hold.
  split; [apply get_assignStoreData|]. split.
  - destruct (delete_result qb w1) as (_ & _ & Hleft & _ & _ & Hstore).
    unfold Index.get at 1. rewrite Hstore, Hparent, Hleft, Horig. now rewrite Hold.
  - intros w'. unfold Query.update.
    destruct (Query.updateLoop (Query.data qb) patch (objects w1)); [|discriminate].
    intros [= <-]. rewrite Hparent, Horig. exact Hold.
Qed.

(** X26 at the store of the three ages, a builder holding the record of
    age 10, and [clear]. *)
Lemma earlier_builder_restores_store_witness :
  Index.get (Index.clear agesWorld) = []
  /\ Index.get
       (snd (Query.delete (fst (Index.where_ (CondString "age = 10") agesWorld))
               (Index.clear agesWorld))) = [2; 3]%nat.
Proof.
  assert (storeData agesWorld ∈ dom (arrays agesWorld)) as H.
  { apply elem_of_dom. exists [1; 2; 3]%nat. reflexivity. }
  pose proof (earlier_builder_restores_store (CondString "age = 10") []
                (fst (Index.where_ (CondString "age = 10") agesWorld))
                agesWorld (Index.clear agesWorld) H eq_refl eq_refl (or_introl eq_refl)) as R.
  exact (conj (proj1 R) (proj1 (proj2 R))).
Defined.
